(** * clawg-ui: the session-scoped translation and tool-call lifecycle

    A shallow embedding of the core of the clawg-ui plugin:

    - [src/tool-store.ts]   the per-session state store,
    - [src/client-tools.ts] the tool factory that drains stashed client tools,
    - [index.ts]            the [before_tool_call] and [tool_result_persist] hooks,
    - [src/http-handler.ts] the SSE writer, the reply dispatcher and the
                            run orchestration of [handleAguiRequest].

    Where the sources hold two revisions of a file, the later one is
    embedded (the store with the message id, the hooks that set the
    tool-fired flag and look the message id up).

    JavaScript code that can throw lives in a small state-and-exception
    monad; the module-level [Map]s of the store are finite maps keyed by the
    session key; the closures a request creates ([closed], [messageStarted],
    the response object) live in a heap of runs addressed by a handle, which
    is what the writer store holds for a bound [EventWriter].  One run is
    followed at a time: other requests appear only through the writers they
    have bound and the hooks fired for their sessions. *)

From stdpp Require Import gmap strings list pretty.

Set Warnings "-register-all".

(** ** Outcomes and the state-and-exception monad *)

Inductive Outcome (A : Type) : Type :=
| Ret (a : A)
| Throw (err : string).
Arguments Ret {A} a.
Arguments Throw {A} err.

Definition M (S A : Type) : Type := S → Outcome A * S.

#[global] Instance M_ret {S} : MRet (M S) := λ A a s, (Ret a, s).

#[global] Instance M_bind {S} : MBind (M S) := λ A B f m s,
  match m s with
  | (Ret a, s') => f a s'
  | (Throw e, s') => (Throw e, s')
  end.

Definition throw {S A} (e : string) : M S A := λ s, (Throw e, s).

(** [try { body } catch (err) { handler err }] *)
Definition try_catch {S A} (body : M S A) (handler : string → M S A) : M S A :=
  λ s, match body s with
       | (Ret a, s') => (Ret a, s')
       | (Throw e, s') => handler e s'
       end.

(** [try { body } finally { fin }]: [fin] runs on both exits; the outcome of
    [body] is kept unless [fin] itself throws. *)
Definition try_finally {S A} (body : M S A) (fin : M S unit) : M S A :=
  λ s, match body s with
       | (o, s') =>
           match fin s' with
           | (Ret _, s'') => (o, s'')
           | (Throw e, s'') => (Throw e, s'')
           end
       end.

Definition gets {S A} (f : S → A) : M S A := λ s, (Ret (f s), s).
Definition modify {S} (f : S → S) : M S unit := λ s, (Ret tt, f s).

Definition when_ {S} (b : bool) (m : M S unit) : M S unit :=
  if b then m else mret tt.

(** the state a computation leaves behind *)
Definition exec {S A} (m : M S A) (s : S) : S := (m s).2.

(** ** JavaScript strings: truthiness and [String.prototype.trim] *)

(** [if (s)] on a string: the empty string is falsy. *)
Definition truthy (s : string) : bool := negb (String.eqb s "").

(** [if (x)] on [string | undefined]. *)
Definition truthy_opt (o : option string) : bool :=
  match o with
  | Some s => truthy s
  | None => false
  end.

(** A string is the byte string of the UTF-8 encoding of the JavaScript
    string.  White space is ECMAScript's WhiteSpace and LineTerminator, which
    [String.prototype.trim] removes: one byte for TAB, LF, VT, FF, CR and
    SPACE; two bytes for U+00A0; three bytes for U+1680, U+2000 to U+200A,
    U+2028, U+2029, U+202F, U+205F, U+3000 and U+FEFF. *)
Definition is_space1 (c1 : Ascii.ascii) : bool :=
  let n1 := Ascii.nat_of_ascii c1 in
  (Nat.leb 9 n1 && Nat.leb n1 13) || Nat.eqb n1 32.

Definition is_space2 (c1 c2 : Ascii.ascii) : bool :=
  Nat.eqb (Ascii.nat_of_ascii c1) 194 && Nat.eqb (Ascii.nat_of_ascii c2) 160.

Definition is_space3 (c1 c2 c3 : Ascii.ascii) : bool :=
  let n1 := Ascii.nat_of_ascii c1 in
  let n2 := Ascii.nat_of_ascii c2 in
  let n3 := Ascii.nat_of_ascii c3 in
  (Nat.eqb n1 225 && (Nat.eqb n2 154 && Nat.eqb n3 128))
  || (Nat.eqb n1 226
      && ((Nat.eqb n2 128
           && ((Nat.leb 128 n3 && Nat.leb n3 138)
               || Nat.eqb n3 168 || Nat.eqb n3 169 || Nat.eqb n3 175))
          || (Nat.eqb n2 129 && Nat.eqb n3 159)))
  || (Nat.eqb n1 227 && (Nat.eqb n2 128 && Nat.eqb n3 128))
  || (Nat.eqb n1 239 && (Nat.eqb n2 187 && Nat.eqb n3 191)).

(** the string after its first character, when that is white space *)
Definition strip_space (s : string) : option string :=
  match s with
  | String c1 s1 =>
      if is_space1 c1 then Some s1
      else
        match s1 with
        | String c2 s2 =>
            if is_space2 c1 c2 then Some s2
            else
              match s2 with
              | String c3 s3 => if is_space3 c1 c2 c3 then Some s3 else None
              | EmptyString => None
              end
        | EmptyString => None
        end
  | EmptyString => None
  end.

Fixpoint trimStart (s : string) : string :=
  match s with
  | String c1 s1 =>
      if is_space1 c1 then trimStart s1
      else
        match s1 with
        | String c2 s2 =>
            if is_space2 c1 c2 then trimStart s2
            else
              match s2 with
              | String c3 s3 => if is_space3 c1 c2 c3 then trimStart s3 else s
              | EmptyString => s
              end
        | EmptyString => s
        end
  | EmptyString => EmptyString
  end.

(** the string up to the first place from which all is white space *)
Fixpoint trimEnd (s : string) : string :=
  match s with
  | String c s' =>
      if String.eqb (trimStart s) EmptyString then EmptyString
      else String c (trimEnd s')
  | EmptyString => EmptyString
  end.

Definition trim (s : string) : string := trimEnd (trimStart s).

(** ** JSON values and [JSON.stringify]

    The fragment of JSON the hooks serialize: null, booleans, numbers,
    strings, arrays and objects (an object is the list of its own enumerable
    properties in enumeration order).  The numbers are the safe integers of
    JavaScript, those of absolute value below 2^53, which [JSON.stringify]
    prints in decimal digits; fractions, larger numbers, NaN and the
    infinities are not in the fragment. *)

Record SafeInteger : Type := mkSafeInteger {
  int_value : Z;
  int_is_safe : (Z.abs int_value <? 2 ^ 53)%Z = true;
}.

Inductive JSValue : Type :=
| JNull
| JBool (b : bool)
| JNum (n : SafeInteger)
| JStr (s : string)
| JArr (xs : list JSValue)
| JObj (props : list (string * JSValue)).

Definition hex_digit (n : nat) : Ascii.ascii :=
  Ascii.ascii_of_nat (if Nat.ltb n 10 then 48 + n else 87 + n).

Definition dquote : string := String (Ascii.ascii_of_nat 34) EmptyString.

Definition escape_char (c : Ascii.ascii) : string :=
  let n := Ascii.nat_of_ascii c in
  if Nat.eqb n 34 then "\" +:+ dquote else
  if Nat.eqb n 92 then "\\" else
  if Nat.eqb n 8 then "\b" else
  if Nat.eqb n 9 then "\t" else
  if Nat.eqb n 10 then "\n" else
  if Nat.eqb n 12 then "\f" else
  if Nat.eqb n 13 then "\r" else
  if Nat.ltb n 32
  then "\u00" +:+ String (hex_digit (n / 16)) (String (hex_digit (n mod 16)) EmptyString)
  else String c EmptyString.

Fixpoint escape (s : string) : string :=
  match s with
  | EmptyString => EmptyString
  | String c s' => escape_char c +:+ escape s'
  end.

Definition quote (s : string) : string := dquote +:+ escape s +:+ dquote.

Fixpoint JSON_stringify (v : JSValue) : string :=
  match v with
  | JNull => "null"
  | JBool b => if b then "true" else "false"
  | JNum n => pretty (int_value n)
  | JStr s => quote s
  | JArr xs =>
      "[" +:+ (fix items (l : list JSValue) : string :=
                match l with
                | [] => ""
                | x :: l' =>
                    match l' with
                    | [] => JSON_stringify x
                    | _ :: _ => JSON_stringify x +:+ "," +:+ items l'
                    end
                end) xs +:+ "]"
  | JObj props =>
      "{" +:+ (fix members (l : list (string * JSValue)) : string :=
                match l with
                | [] => ""
                | (k, x) :: l' =>
                    match l' with
                    | [] => quote k +:+ ":" +:+ JSON_stringify x
                    | _ :: _ => quote k +:+ ":" +:+ JSON_stringify x +:+ "," +:+ members l'
                    end
                end) props +:+ "}"
  end.


(** ** The outbound event vocabulary ([EventType] of [@ag-ui/core]) *)

Inductive Event : Type :=
| RUN_STARTED (threadId runId : string)
| RUN_FINISHED (threadId runId : string)
| RUN_ERROR (message : string)
| TEXT_MESSAGE_START (messageId role : string)
| TEXT_MESSAGE_CONTENT (messageId delta : string)
| TEXT_MESSAGE_END (messageId : string)
| TOOL_CALL_START (toolCallId toolCallName : string)
| TOOL_CALL_ARGS (toolCallId delta : string)
| TOOL_CALL_RESULT (toolCallId messageId content : string)
| TOOL_CALL_END (toolCallId : string).

Definition is_terminal (e : Event) : bool :=
  match e with
  | RUN_FINISHED _ _ | RUN_ERROR _ => true
  | _ => false
  end.

Definition is_run_started (e : Event) : bool :=
  match e with
  | RUN_STARTED _ _ => true
  | _ => false
  end.

(** assistant text: "text message started" and "text message content" *)
Definition is_text (e : Event) : bool :=
  match e with
  | TEXT_MESSAGE_START _ _ | TEXT_MESSAGE_CONTENT _ _ => true
  | _ => false
  end.

Definition is_text_start (e : Event) : bool :=
  match e with
  | TEXT_MESSAGE_START _ _ => true
  | _ => false
  end.

(** events between the envelope: neither "run started" nor terminal *)
Definition is_body (e : Event) : bool :=
  negb (is_run_started e) && negb (is_terminal e).

(** ** Client tool definitions ([Tool] of [@ag-ui/core]) *)

Record Tool : Type := mkTool {
  tool_name : string;
  tool_description : option string;
  tool_parameters : option JSValue;
}.

(** ** One run: the variables [handleAguiRequest] closes over

    [closed] and [messageStarted] are the [let] variables of the request;
    [chunks] and [ended] are the response object ([res.write] appends a chunk,
    [res.end] sets [ended]); [peer_gone n] tells whether [res.write] throws
    when [n] chunks have been written (after a throw the run is closed and
    writes no more, so this is all there is to tell).  [emitted] records every event handed
    to [writeEvent], in call order, the way the mock writer of the hook tests
    records them. *)

Record Run : Type := mkRun {
  threadId : string;
  runId : string;
  messageId : string;
  sessionKey : string;
  closed : bool;
  messageStarted : bool;
  emitted : list Event;
  chunks : list Event;
  ended : bool;
  peer_gone : nat → bool;
}.

Definition set_closed (b : bool) (r : Run) : Run :=
  mkRun (threadId r) (runId r) (messageId r) (sessionKey r) b
        (messageStarted r) (emitted r) (chunks r) (ended r) (peer_gone r).

Definition set_messageStarted (b : bool) (r : Run) : Run :=
  mkRun (threadId r) (runId r) (messageId r) (sessionKey r) (closed r)
        b (emitted r) (chunks r) (ended r) (peer_gone r).

Definition set_emitted (l : list Event) (r : Run) : Run :=
  mkRun (threadId r) (runId r) (messageId r) (sessionKey r) (closed r)
        (messageStarted r) l (chunks r) (ended r) (peer_gone r).

Definition set_chunks (l : list Event) (r : Run) : Run :=
  mkRun (threadId r) (runId r) (messageId r) (sessionKey r) (closed r)
        (messageStarted r) (emitted r) l (ended r) (peer_gone r).

Definition set_ended (b : bool) (r : Run) : Run :=
  mkRun (threadId r) (runId r) (messageId r) (sessionKey r) (closed r)
        (messageStarted r) (emitted r) (chunks r) b (peer_gone r).

(** [res.write(encoder.encode(event))]: throws when the peer is gone. *)
Definition res_write (e : Event) : M Run unit := λ r,
  if peer_gone r (length (chunks r))
  then (Throw "write after end", r)
  else (Ret tt, set_chunks (chunks r ++ [e]) r).

(** [res.end()] *)
Definition res_end : M Run unit := modify (set_ended true).

(** [writeEvent] (http-handler.ts, lines 249-259); the first line records
    the call in [emitted], the rest is the source. *)
Definition writeEvent (event : Event) : M Run unit :=
  modify (λ r, set_emitted (emitted r ++ [event]) r) ;;
  closed_now ← gets closed;
  if closed_now : bool then mret tt
  else try_catch (res_write event) (λ _, modify (set_closed true)).

(** ** The session state store (src/tool-store.ts)

    One finite map per module-level [Map].  A bound [EventWriter] is the
    [writeEvent] closure of a request, so the writer store holds the handle of
    that request's run. *)

Record Store : Type := mkStore {
  toolStore : gmap string (list Tool);
  writerStore : gmap string nat;
  messageIdStore : gmap string string;
  pendingStacks : gmap string (list string);
  clientToolNames : gmap string (gset string);
  clientToolCalledFlags : gmap string bool;
  toolFiredInRunFlags : gmap string bool;
}.

Definition empty_store : Store := mkStore ∅ ∅ ∅ ∅ ∅ ∅ ∅.

Definition set_toolStore (m : gmap string (list Tool)) (st : Store) : Store :=
  mkStore m (writerStore st) (messageIdStore st) (pendingStacks st)
          (clientToolNames st) (clientToolCalledFlags st) (toolFiredInRunFlags st).

Definition set_writerStore (m : gmap string nat) (st : Store) : Store :=
  mkStore (toolStore st) m (messageIdStore st) (pendingStacks st)
          (clientToolNames st) (clientToolCalledFlags st) (toolFiredInRunFlags st).

Definition set_messageIdStore (m : gmap string string) (st : Store) : Store :=
  mkStore (toolStore st) (writerStore st) m (pendingStacks st)
          (clientToolNames st) (clientToolCalledFlags st) (toolFiredInRunFlags st).

Definition set_pendingStacks (m : gmap string (list string)) (st : Store) : Store :=
  mkStore (toolStore st) (writerStore st) (messageIdStore st) m
          (clientToolNames st) (clientToolCalledFlags st) (toolFiredInRunFlags st).

Definition set_clientToolNames (m : gmap string (gset string)) (st : Store) : Store :=
  mkStore (toolStore st) (writerStore st) (messageIdStore st) (pendingStacks st)
          m (clientToolCalledFlags st) (toolFiredInRunFlags st).

Definition set_clientToolCalledFlags (m : gmap string bool) (st : Store) : Store :=
  mkStore (toolStore st) (writerStore st) (messageIdStore st) (pendingStacks st)
          (clientToolNames st) m (toolFiredInRunFlags st).

Definition set_toolFiredInRunFlags (m : gmap string bool) (st : Store) : Store :=
  mkStore (toolStore st) (writerStore st) (messageIdStore st) (pendingStacks st)
          (clientToolNames st) (clientToolCalledFlags st) m.

(** *** Client tools (for the plugin tool factory) *)

Definition stashTools (sessionKey : string) (tools : list Tool) (st : Store) : Store :=
  set_toolStore (<[sessionKey := tools]> (toolStore st)) st.

Definition popTools (sessionKey : string) (st : Store) : list Tool * Store :=
  let tools := default [] (toolStore st !! sessionKey) in
  (tools, set_toolStore (delete sessionKey (toolStore st)) st).

(** *** SSE event writer (for the hooks) *)

Definition setWriter (sessionKey : string) (writer : nat) (messageId : string)
    (st : Store) : Store :=
  set_messageIdStore (<[sessionKey := messageId]> (messageIdStore st))
    (set_writerStore (<[sessionKey := writer]> (writerStore st)) st).

(** [setWriter(sessionKey, writer)], the call with the third argument left
    out: [messageId] is [undefined], so the writer is bound and
    [getMessageId] returns [undefined] for the session afterwards, whatever
    was bound before.  The map of message ids is given no entry for the key:
    the store reads it with [get] only, which tells no difference. *)
Definition setWriter_without_id (sessionKey : string) (writer : nat) (st : Store) : Store :=
  set_messageIdStore (delete sessionKey (messageIdStore st))
    (set_writerStore (<[sessionKey := writer]> (writerStore st)) st).

Definition getWriter (sessionKey : string) (st : Store) : option nat :=
  writerStore st !! sessionKey.

Definition getMessageId (sessionKey : string) (st : Store) : option string :=
  messageIdStore st !! sessionKey.

Definition clearWriter (sessionKey : string) (st : Store) : Store :=
  set_messageIdStore (delete sessionKey (messageIdStore st))
    (set_writerStore (delete sessionKey (writerStore st)) st).

(** *** Pending toolCallId stack

    A JavaScript array used as a stack: [push] appends at the end and [pop]
    takes the last element. *)

Definition pushToolCallId (sessionKey toolCallId : string) (st : Store) : Store :=
  let stack := default [] (pendingStacks st !! sessionKey) in
  set_pendingStacks (<[sessionKey := stack ++ [toolCallId]]> (pendingStacks st)) st.

Definition popToolCallId (sessionKey : string) (st : Store) : option string * Store :=
  match pendingStacks st !! sessionKey with
  | None => (None, st)
  | Some stack =>
      let id := last stack in
      let stack' := removelast stack in
      (id, if Nat.eqb (length stack') 0
           then set_pendingStacks (delete sessionKey (pendingStacks st)) st
           else set_pendingStacks (<[sessionKey := stack']> (pendingStacks st)) st)
  end.

(** *** Client tool name tracking *)

Definition markClientToolNames (sessionKey : string) (names : list string)
    (st : Store) : Store :=
  set_clientToolNames (<[sessionKey := list_to_set names]> (clientToolNames st)) st.

Definition isClientTool (sessionKey toolName : string) (st : Store) : bool :=
  match clientToolNames st !! sessionKey with
  | Some names => bool_decide (toolName ∈ names)
  | None => false
  end.

Definition clearClientToolNames (sessionKey : string) (st : Store) : Store :=
  set_clientToolNames (delete sessionKey (clientToolNames st)) st.

(** *** Client-tool-called flag *)

Definition setClientToolCalled (sessionKey : string) (st : Store) : Store :=
  set_clientToolCalledFlags (<[sessionKey := true]> (clientToolCalledFlags st)) st.

Definition wasClientToolCalled (sessionKey : string) (st : Store) : bool :=
  default false (clientToolCalledFlags st !! sessionKey).

Definition clearClientToolCalled (sessionKey : string) (st : Store) : Store :=
  set_clientToolCalledFlags (delete sessionKey (clientToolCalledFlags st)) st.

(** *** Tool-fired-in-run flag *)

(** Modelled from the spec: [setToolFiredInRun], which index.ts imports from
    tool-store.ts but whose definition is not in the sources at hand.  The
    spec (4.1) describes it as one of "two independent per-session booleans"
    with set, query and clear; it is given the shape of the client-tool-called
    flag. *)
Definition setToolFiredInRun (sessionKey : string) (st : Store) : Store :=
  set_toolFiredInRunFlags (<[sessionKey := true]> (toolFiredInRunFlags st)) st.

(** Modelled from the spec: [wasToolFiredInRun], the query of the same flag
    (imported by the hook tests, definition not in the sources at hand);
    [false] for an unknown key, as the spec (4.1) requires of every read. *)
Definition wasToolFiredInRun (sessionKey : string) (st : Store) : bool :=
  default false (toolFiredInRunFlags st !! sessionKey).

(** Modelled from the spec: [clearToolFiredInRun], the clear of the same flag
    (imported by the hook tests, definition not in the sources at hand). *)
Definition clearToolFiredInRun (sessionKey : string) (st : Store) : Store :=
  set_toolFiredInRunFlags (delete sessionKey (toolFiredInRunFlags st)) st.

(** the pending stack of a session, empty when there is none *)
Definition pending (sessionKey : string) (st : Store) : list string :=
  default [] (pendingStacks st !! sessionKey).

(** ** The tool factory (src/client-tools.ts) *)

Record AgentTool : Type := mkAgentTool {
  at_name : string;
  at_label : string;
  at_description : option string;
  at_parameters : JSValue;
}.

Definition empty_object_schema : JSValue :=
  JObj [("type", JStr "object"); ("properties", JObj [])].

(** [t.parameters ?? { type: "object", properties: {} }]: the default stands
    in for [undefined] and for [null] *)
Definition parameters_or_default (parameters : option JSValue) : JSValue :=
  match parameters with
  | None | Some JNull => empty_object_schema
  | Some schema => schema
  end.

Definition clawgUiToolFactory (sessionKey : option string) (st : Store)
    : option (list AgentTool) * Store :=
  match sessionKey with
  | None => (None, st)
  | Some sk =>
      if negb (truthy sk) then (None, st)
      else
        let '(clientTools, st') := popTools sk st in
        if Nat.eqb (length clientTools) 0 then (None, st')
        else (Some (map (λ t, mkAgentTool (tool_name t) (tool_name t)
                                (tool_description t)
                                (parameters_or_default (tool_parameters t)))
                        clientTools), st')
  end.

(** ** The world: the store, the heap of runs and the source of UUIDs *)

Record World : Type := mkWorld {
  store : Store;
  runs : nat → Run;
  next_run : nat;
  uuid_src : nat → string;
  uuid_next : nat;
}.

Definition set_store (st : Store) (w : World) : World :=
  mkWorld st (runs w) (next_run w) (uuid_src w) (uuid_next w).

Definition set_runs (rs : nat → Run) (w : World) : World :=
  mkWorld (store w) rs (next_run w) (uuid_src w) (uuid_next w).

Definition set_next_run (n : nat) (w : World) : World :=
  mkWorld (store w) (runs w) n (uuid_src w) (uuid_next w).

Definition set_uuid_next (n : nat) (w : World) : World :=
  mkWorld (store w) (runs w) (next_run w) (uuid_src w) n.

Definition upd (h : nat) (r : Run) (rs : nat → Run) : nat → Run :=
  λ h', if Nat.eqb h' h then r else rs h'.

(** a store operation, run on the world *)
Definition in_store {A} (f : Store → A * Store) : M World A := λ w,
  (Ret (f (store w)).1, set_store (f (store w)).2 w).

Definition on_store (f : Store → Store) : M World unit := λ w,
  (Ret tt, set_store (f (store w)) w).

Definition ask_store {A} (f : Store → A) : M World A := λ w,
  (Ret (f (store w)), w).

(** code of the run [h], run on the world *)
Definition in_run {A} (h : nat) (m : M Run A) : M World A := λ w,
  let '(o, r') := m (runs w h) in (o, set_runs (upd h r' (runs w)) w).

(** [randomUUID()] *)
Definition randomUUID : M World string := λ w,
  (Ret (uuid_src w (uuid_next w)), set_uuid_next (S (uuid_next w)) w).

(** calling a bound [EventWriter] *)
Definition writer_call (writer : nat) (event : Event) : M World unit :=
  in_run writer (writeEvent event).

(** ** The tool-call lifecycle hooks (index.ts)

    The hooks are the handlers registered for [before_tool_call] and
    [tool_result_persist]; the hook tests import them as
    [handleBeforeToolCall] and [handleToolResultPersist].  [console.log]
    calls are left out: they change no state. *)

(** [event.params && Object.keys(event.params).length > 0] *)
Definition has_params (params : option (list (string * JSValue))) : bool :=
  match params with
  | Some (_ :: _) => true
  | _ => false
  end.

Definition handleBeforeToolCall (toolName : string)
    (params : option (list (string * JSValue))) (sessionKey : option string)
    : M World unit :=
  match sessionKey with
  | None => mret tt
  | Some sk =>
      if negb (truthy sk) then mret tt
      else
        writer ← ask_store (getWriter sk);
        match writer with
        | None => mret tt
        | Some writer =>
            uuid ← randomUUID;
            let toolCallId := "tool-" +:+ uuid in
            writer_call writer (TOOL_CALL_START toolCallId toolName) ;;
            on_store (setToolFiredInRun sk) ;;
            when_ (has_params params)
              (writer_call writer
                 (TOOL_CALL_ARGS toolCallId (JSON_stringify (JObj (default [] params))))) ;;
            isClient ← ask_store (isClientTool sk toolName);
            if isClient : bool
            then
              writer_call writer (TOOL_CALL_END toolCallId) ;;
              on_store (setClientToolCalled sk)
            else
              on_store (pushToolCallId sk toolCallId)
        end
  end.

Definition handleToolResultPersist (sessionKey : option string) : M World unit :=
  match sessionKey with
  | None => mret tt
  | Some sk =>
      if negb (truthy sk) then mret tt
      else
        writer ← ask_store (getWriter sk);
        toolCallId ← in_store (popToolCallId sk);
        messageId ← ask_store (getMessageId sk);
        match writer with
        | Some writer =>
            if truthy_opt toolCallId && truthy_opt messageId
            then
              writer_call writer
                (TOOL_CALL_RESULT (default "" toolCallId) (default "" messageId) "") ;;
              writer_call writer (TOOL_CALL_END (default "" toolCallId))
            else mret tt
        | None => mret tt
        end
  end.

(** ** The reply dispatcher of one run (http-handler.ts, lines 338-404)

    [h] is the handle of the run whose variables the methods close over. *)

Definition sendToolResult (h : nat) (text : option string) : M World bool :=
  r ← gets (λ w, runs w h);
  mret (negb (closed r)).

Definition sendBlockReply (h : nat) (payload_text : option string) : M World bool :=
  r ← gets (λ w, runs w h);
  called ← ask_store (wasClientToolCalled (sessionKey r));
  if closed r || called then mret false
  else
    let text := trim <$> payload_text in
    if negb (truthy_opt text) then mret false
    else
      when_ (negb (messageStarted r))
        (in_run h (modify (set_messageStarted true)) ;;
         writer_call h (TEXT_MESSAGE_START (messageId r) "assistant")) ;;
      writer_call h (TEXT_MESSAGE_CONTENT (messageId r) (default "" text)) ;;
      mret true.

Definition sendFinalReply (h : nat) (payload_text : option string) : M World bool :=
  r ← gets (λ w, runs w h);
  if closed r then mret false
  else
    called ← ask_store (wasClientToolCalled (sessionKey r));
    let text := if called : bool then Some "" else trim <$> payload_text in
    when_ (truthy_opt text)
      (when_ (negb (messageStarted r))
         (in_run h (modify (set_messageStarted true)) ;;
          writer_call h (TEXT_MESSAGE_START (messageId r) "assistant")) ;;
       writer_call h (TEXT_MESSAGE_CONTENT (messageId r) (default "" text))) ;;
    started ← gets (λ w, messageStarted (runs w h));
    when_ started (writer_call h (TEXT_MESSAGE_END (messageId r))) ;;
    writer_call h (RUN_FINISHED (threadId r) (runId r)) ;;
    in_run h (modify (set_closed true)) ;;
    in_run h res_end ;;
    mret true.

Definition waitForIdle (h : nat) : M World unit := mret tt.

(** [{ tool: 0, block: 0, final: 0 }] *)
Definition getQueuedCounts (h : nat) : M World (nat * nat * nat) := mret (0, 0, 0).

(** ** What the host pipeline and the peer do during a run

    The host pipeline calls the hooks, the tool factory and the dispatcher at
    times of its own choosing; the peer may disconnect at any await.  A run is
    given the sequence of these calls: every behaviour of the host is one such
    sequence followed by the dispatch promise resolving or rejecting. *)

Inductive EnvEvent : Type :=
| BeforeToolCall (toolName : string) (params : option (list (string * JSValue)))
                 (sessionKey : option string)
| ToolResultPersist (sessionKey : option string)
| ToolFactory (sessionKey : option string)
| ReqClose.

Inductive HostCall : Type :=
| Env (e : EnvEvent)
| SendToolResult (text : option string)
| SendBlockReply (text : option string)
| SendFinalReply (text : option string)
| WaitForIdle
| GetQueuedCounts.

Inductive DispatchResult : Type :=
| Resolves
| Rejects (err : string).

(** What happens around the run [h].  [ReqClose] is the "close" event of the
    request: the listener of lines 262-264 sets [closed]; the second listener
    aborts the signal handed to the host, which is the host's business. *)
Definition env_event (h : nat) (e : EnvEvent) : M World unit :=
  match e with
  | BeforeToolCall toolName params sk => handleBeforeToolCall toolName params sk
  | ToolResultPersist sk => handleToolResultPersist sk
  | ToolFactory sk => in_store (clawgUiToolFactory sk) ;; mret tt
  | ReqClose => in_run h (modify (set_closed true))
  end.

Definition host_call (h : nat) (c : HostCall) : M World unit :=
  match c with
  | Env e => env_event h e
  | SendToolResult text => sendToolResult h text ;; mret tt
  | SendBlockReply text => sendBlockReply h text ;; mret tt
  | SendFinalReply text => sendFinalReply h text ;; mret tt
  | WaitForIdle => waitForIdle h
  | GetQueuedCounts => getQueuedCounts h ;; mret tt
  end.

Fixpoint env_events (h : nat) (es : list EnvEvent) : M World unit :=
  match es with
  | [] => mret tt
  | e :: es' => env_event h e ;; env_events h es'
  end.

Fixpoint host_calls (h : nat) (cs : list HostCall) : M World unit :=
  match cs with
  | [] => mret tt
  | c :: cs' => host_call h c ;; host_calls h cs'
  end.

(** [await runtime.channel.reply.dispatchReplyFromConfig({...})]: the calls
    the host makes, then the promise resolves or rejects with [err] (the text
    [String(err)] gives). *)
Definition dispatchReplyFromConfig (h : nat) (script : list HostCall)
    (result : DispatchResult) : M World unit :=
  host_calls h script ;;
  match result with
  | Resolves => mret tt
  | Rejects err => throw err
  end.

(** ** The run orchestration of [handleAguiRequest] (http-handler.ts)

    The request has passed the method, authentication and message checks
    (lines 169-222) and the route is resolved: [sessionKey] is
    [route.sessionKey]. *)

Record RunAgentInput : Type := mkInput {
  input_threadId : option string;
  input_runId : option string;
  input_tools : list Tool;
}.

(** [x || fallback] on [string | undefined] *)
Definition or_else (x : option string) (fallback : M World string) : M World string :=
  if truthy_opt x then mret (default "" x) else fallback.

(** lines 245-247: [closed = false], the message id, [messageStarted =
    false], and a response nothing has been written to *)
Definition fresh_run (tid rid mid sk : string) (peer : nat → bool) : Run :=
  mkRun tid rid mid sk false false [] [] false peer.

(** the closure variables of a request get a place of their own *)
Definition new_run (r : Run) : M World nat := λ w,
  (Ret (next_run w), set_next_run (S (next_run w)) (set_runs (upd (next_run w) r (runs w)) w)).

(** lines 423-438: if the dispatcher's final reply didn't close the stream,
    close it now *)
Definition close_after_dispatch (h : nat) : M World unit :=
  r ← gets (λ w, runs w h);
  when_ (negb (closed r))
    (when_ (messageStarted r) (writer_call h (TEXT_MESSAGE_END (messageId r))) ;;
     writer_call h (RUN_FINISHED (threadId r) (runId r)) ;;
     in_run h (modify (set_closed true)) ;;
     in_run h res_end).

(** lines 439-447: the [catch] block *)
Definition on_dispatch_error (h : nat) (err : string) : M World unit :=
  r ← gets (λ w, runs w h);
  when_ (negb (closed r))
    (writer_call h (RUN_ERROR err) ;;
     in_run h (modify (set_closed true)) ;;
     in_run h res_end).

(** lines 448-452: the [finally] block *)
Definition cleanup (sessionKey : string) : M World unit :=
  on_store (clearWriter sessionKey) ;;
  on_store (clearClientToolCalled sessionKey) ;;
  on_store (clearClientToolNames sessionKey).

(** lines 406-452: the dispatch and all that follows it *)
Definition dispatch_and_close (h : nat) (script : list HostCall)
    (result : DispatchResult) : M World unit :=
  r ← gets (λ w, runs w h);
  try_finally
    (try_catch
       (dispatchReplyFromConfig h script result ;; close_after_dispatch h)
       (on_dispatch_error h))
    (cleanup (sessionKey r)).

(** lines 192-286: the run's variables, "run started", the stashed tools and
    the writer binding.  Line 286 is [setWriter(sessionKey, writeEvent)]: the
    handler passes no message id, so the store holds none for the session
    during the run; the run's own [messageId] is the variable of line 246. *)
Definition start_run (input : RunAgentInput) (sessionKey : string)
    (peer : nat → bool) : M World nat :=
  threadId ← or_else (input_threadId input)
                (u ← randomUUID; mret ("clawg-ui-" +:+ u));
  runId ← or_else (input_runId input)
             (u ← randomUUID; mret ("clawg-ui-run-" +:+ u));
  u ← randomUUID;
  let messageId := "msg-" +:+ u in
  h ← new_run (fresh_run threadId runId messageId sessionKey peer);
  writer_call h (RUN_STARTED threadId runId) ;;
  when_ (negb (Nat.eqb (length (input_tools input)) 0))
    (on_store (stashTools sessionKey (input_tools input)) ;;
     on_store (markClientToolNames sessionKey (map tool_name (input_tools input)))) ;;
  on_store (setWriter_without_id sessionKey h) ;;
  mret h.

(** The whole run: [pre] is what happens while the handler awaits
    [recordInboundSession] (the dispatcher does not exist yet), [script] and
    [result] are the host's dispatch. *)
Definition handleAguiRequest (input : RunAgentInput) (sessionKey : string)
    (peer : nat → bool) (pre : list EnvEvent) (script : list HostCall)
    (result : DispatchResult) : M World unit :=
  h ← start_run input sessionKey peer;
  env_events h pre ;;
  dispatch_and_close h script result.

(** the handle the next request's run gets *)
Definition run_handle (w : World) : nat := next_run w.

(** the captured output of run [h] *)
Definition output (h : nat) (w : World) : list Event := chunks (runs w h).

Definition dead_run : Run :=
  mkRun "" "" "" "" true false [] [] true (λ _, true).

Definition initial_world (uuids : nat → string) : World :=
  mkWorld empty_store (λ _, dead_run) 0 uuids 0.

(** a source of UUIDs for the concrete runs below: the n-th UUID is the
    decimal numeral of n *)
Definition uuids : nat → string := λ n, pretty n.

(** * Notions used by the statements *)

(** ** Triples for the monad

    [hoare P m Q E]: from a state in [P], [m] either returns [a] in a state
    in [Q a] or throws [e] in a state in [E e].  [no_throw] is the exceptional
    postcondition of code from which no exception escapes. *)

Definition hoare {S A} (P : S → Prop) (m : M S A)
    (Q : A → S → Prop) (E : string → S → Prop) : Prop :=
  ∀ s, P s →
    match m s with
    | (Ret a, s') => Q a s'
    | (Throw e, s') => E e s'
    end.

Definition no_throw {S} : string → S → Prop := λ _ _, False.

(** the run after [writeEvent e] *)
Definition wrote (e : Event) (r : Run) : Run := exec (writeEvent e) r.

(** the three ways a call of the writer can go *)
Inductive wrote_spec (e : Event) (r : Run) : Run → Prop :=
| wrote_when_closed :
    closed r = true →
    wrote_spec e r (set_emitted (emitted r ++ [e]) r)
| wrote_when_gone :
    closed r = false → peer_gone r (length (chunks r)) = true →
    wrote_spec e r (set_closed true (set_emitted (emitted r ++ [e]) r))
| wrote_when_ok :
    closed r = false → peer_gone r (length (chunks r)) = false →
    wrote_spec e r (set_chunks (chunks r ++ [e]) (set_emitted (emitted r ++ [e]) r)).

(** the world after run [h] is replaced by [f] of it *)
Definition with_run (h : nat) (f : Run → Run) (w : World) : World :=
  set_runs (upd h (f (runs w h)) (runs w)) w.

(** a peer that never goes away *)
Definition peer_stays (r : Run) : Prop := ∀ n, peer_gone r n = false.

(** a session key no map of the store has an entry for *)
Definition unbound (sessionKey : string) (st : Store) : Prop :=
  toolStore st !! sessionKey = None ∧
  writerStore st !! sessionKey = None ∧
  messageIdStore st !! sessionKey = None ∧
  pendingStacks st !! sessionKey = None ∧
  clientToolNames st !! sessionKey = None ∧
  clientToolCalledFlags st !! sessionKey = None ∧
  toolFiredInRunFlags st !! sessionKey = None.

(** tool-call events, the only events the hooks hand to a writer *)
Definition is_tool (e : Event) : bool :=
  match e with
  | TOOL_CALL_START _ _ | TOOL_CALL_ARGS _ _ | TOOL_CALL_RESULT _ _ _
  | TOOL_CALL_END _ => true
  | _ => false
  end.

(** a client-tool-called flag that is set stays set *)
Definition flag_mono (st st' : Store) : Prop :=
  ∀ sk, wasClientToolCalled sk st = true → wasClientToolCalled sk st' = true.

(** [req.on("close")] fires somewhere in the run *)
Definition has_close (pre : list EnvEvent) (script : list HostCall) : Prop :=
  In ReqClose pre ∨ In (Env ReqClose) script.

(** ** The shape of a run's output

    [stream_open]: "run started", then events that are neither "run started"
    nor terminal.  [stream_finished]: the same, then one terminal event.
    [stream_done]: nothing at all, or one of the two. *)

Definition stream_open (tid rid : string) (out : list Event) : Prop :=
  ∃ mid, out = RUN_STARTED tid rid :: mid ∧ Forall (λ e, is_body e = true) mid.

Definition stream_finished (tid rid : string) (out : list Event) : Prop :=
  ∃ mid t, out = RUN_STARTED tid rid :: mid ++ [t] ∧
           Forall (λ e, is_body e = true) mid ∧ is_terminal t = true.

Definition stream_done (tid rid : string) (out : list Event) : Prop :=
  out = [] ∨ stream_open tid rid out ∨ stream_finished tid rid out.

(** an open run has an open stream, a closed run a stream that is done *)
Definition protocol_inv (r : Run) : Prop :=
  if closed r
  then stream_done (threadId r) (runId r) (chunks r)
  else stream_open (threadId r) (runId r) (chunks r).

(** the same for a peer that stays: a closed run has a finished stream *)
Definition strict_inv (r : Run) : Prop :=
  peer_stays r ∧
  if closed r
  then stream_finished (threadId r) (runId r) (chunks r)
  else stream_open (threadId r) (runId r) (chunks r).

(** the output ends with a terminal event and holds no other *)
Definition ends_with_one_terminal (out : list Event) : Prop :=
  ∃ mid t, out = mid ++ [t] ∧ is_terminal t = true ∧
           Forall (λ e, is_terminal e = false) mid.

(** the number of terminal events of an output *)
Definition count_terminal (out : list Event) : nat :=
  length (List.filter is_terminal out).

(** every terminal event of the output is one [term_ok] allows *)
Definition terminals_among (term_ok : Event → bool) (out : list Event) : Prop :=
  Forall (λ e, is_terminal e = true → term_ok e = true) out.

(** "run error" is allowed only with the text the dispatch rejected with *)
Definition error_of (result : DispatchResult) (e : Event) : bool :=
  match e with
  | RUN_ERROR msg =>
      match result with
      | Rejects err => String.eqb msg err
      | Resolves => false
      end
  | _ => true
  end.

(** "run error" is not among the events the dispatcher writes *)
Definition not_run_error (e : Event) : bool :=
  match e with
  | RUN_ERROR _ => false
  | _ => true
  end.

(** the [messageStarted] variable tells whether a "text message started" has
    been handed to the writer in this run *)
Definition started_link (r : Run) : Prop :=
  messageStarted r = existsb is_text_start (emitted r).

(** the world in which the host makes its next call: the run has started,
    [pre] has happened during the first await and the host has made the calls
    [cs] of its dispatch *)
Definition during_dispatch (input : RunAgentInput) (sessionKey : string)
    (peer : nat → bool) (pre : list EnvEvent) (cs : list HostCall) (w : World) : World :=
  exec (h ← start_run input sessionKey peer;
        env_events h pre ;; host_calls h cs) w.

(** since the run had emitted [e0] and written [c0], no assistant text has
    been handed to the writer or written *)
Definition quiet_since (e0 c0 : list Event) (r : Run) : Prop :=
  ∃ l1 l2, emitted r = e0 ++ l1 ∧ chunks r = c0 ++ l2 ∧
           Forall (λ e, is_text e = false) l1 ∧ Forall (λ e, is_text e = false) l2.

(** the client-tool-called flag of the session of run [h] is set, and the run
    has been quiet since *)
Definition suppressed (h : nat) (sk : string) (e0 c0 : list Event) (w : World) : Prop :=
  wasClientToolCalled sk (store w) = true ∧
  sessionKey (runs w h) = sk ∧
  quiet_since e0 c0 (runs w h).

(** ** Concrete worlds *)

(** a store in which session ["s"] has a writer, a message id and one
    pending host-executed tool call *)
Definition hook_world : World :=
  set_store
    (pushToolCallId "s" "tool-1" (setWriter "s" 0 "msg-001" empty_store))
    (initial_world uuids).

(** a store in which session ["s"] has one pending host-executed tool call
    and no writer *)
Definition orphan_world : World :=
  set_store (pushToolCallId "s" "tool-1" empty_store) (initial_world uuids).

(** the scenario of the hook tests: session ["s"] has a writer and the client
    tool [get_weather] *)
Definition weather_world : World :=
  set_store
    (markClientToolNames "s" ["get_weather"] (setWriter "s" 0 "msg-001" empty_store))
    (initial_world uuids).

(** ** Concrete runs *)

(** the request of the handler tests: thread [t1], run [r1], no tools *)
Definition hello_input : RunAgentInput := mkInput (Some "t1") (Some "r1") [].

(** a peer that accepts every write *)
Definition stays : nat → bool := λ _, false.

(** a peer that is gone once [n] chunks have been written *)
Definition gone_after (n : nat) : nat → bool := λ k, Nat.leb n k.

Definition one_run (input : RunAgentInput) (peer : nat → bool)
    (pre : list EnvEvent) (script : list HostCall) (result : DispatchResult) : World :=
  exec (handleAguiRequest input "agui:test-session" peer pre script result)
       (initial_world uuids).

(** the host streams a block, the peer disconnects, the host sends the final
    reply *)
Definition disconnected_run : World :=
  one_run hello_input stays []
    [SendBlockReply (Some "Hello"); Env ReqClose; SendFinalReply (Some "bye")]
    Resolves.

(** the host streams a block, then its dispatch rejects *)
Definition failed_run : World :=
  one_run hello_input stays []
    [SendBlockReply (Some "Hello")]
    (Rejects "Error: agent failed").

(** the host streams a block and sends the final reply *)
Definition plain_run : World :=
  one_run hello_input stays []
    [SendBlockReply (Some "Hello from agent"); SendFinalReply None]
    Resolves.

(** the world of [hello_input] when the dispatch begins *)
Definition started_world : World :=
  during_dispatch hello_input "agui:test-session" stays [] [] (initial_world uuids).

(** the request of the suppression test: one client tool, [get_weather] *)
Definition weather_input : RunAgentInput :=
  mkInput (Some "t-ct") (Some "r-ct") [mkTool "get_weather" (Some "Get weather") None].

(** the dispatch has begun and the before-call hook has fired for the client
    tool *)
Definition client_tool_called_world : World :=
  during_dispatch weather_input "agui:test-session" stays []
    [Env (BeforeToolCall "get_weather" (Some [("city", JStr "Tokyo")])
            (Some "agui:test-session"))]
    (initial_world uuids).

(** a run with a client tool the host never asks the factory for, and a
    host-executed tool whose result is never persisted *)
Definition leaky_run : World :=
  one_run weather_input stays []
    [Env (BeforeToolCall "search_db" None (Some "agui:test-session"));
     SendFinalReply (Some "done")]
    Resolves.

(** * More of the code: the store as a whole, the hooks in sequence, the
      request checks in front of a run *)

(** ** The store, operation by operation *)

(** the operations tool-store.ts exports that change the store, and
    [setToolFiredInRun], which index.ts calls and which is modelled above *)
Inductive StoreOp : Type :=
| OpStashTools (sessionKey : string) (tools : list Tool)
| OpPopTools (sessionKey : string)
| OpSetWriter (sessionKey : string) (writer : nat) (messageId : string)
| OpClearWriter (sessionKey : string)
| OpPushToolCallId (sessionKey toolCallId : string)
| OpPopToolCallId (sessionKey : string)
| OpMarkClientToolNames (sessionKey : string) (names : list string)
| OpClearClientToolNames (sessionKey : string)
| OpSetClientToolCalled (sessionKey : string)
| OpClearClientToolCalled (sessionKey : string)
| OpSetToolFiredInRun (sessionKey : string).

Definition apply_op (op : StoreOp) (st : Store) : Store :=
  match op with
  | OpStashTools sk tools => stashTools sk tools st
  | OpPopTools sk => (popTools sk st).2
  | OpSetWriter sk writer mid => setWriter sk writer mid st
  | OpClearWriter sk => clearWriter sk st
  | OpPushToolCallId sk id => pushToolCallId sk id st
  | OpPopToolCallId sk => (popToolCallId sk st).2
  | OpMarkClientToolNames sk names => markClientToolNames sk names st
  | OpClearClientToolNames sk => clearClientToolNames sk st
  | OpSetClientToolCalled sk => setClientToolCalled sk st
  | OpClearClientToolCalled sk => clearClientToolCalled sk st
  | OpSetToolFiredInRun sk => setToolFiredInRun sk st
  end.

(** the session key an operation is addressed to *)
Definition op_key (op : StoreOp) : string :=
  match op with
  | OpStashTools sk _ | OpPopTools sk | OpSetWriter sk _ _ | OpClearWriter sk
  | OpPushToolCallId sk _ | OpPopToolCallId sk | OpMarkClientToolNames sk _
  | OpClearClientToolNames sk | OpSetClientToolCalled sk
  | OpClearClientToolCalled sk | OpSetToolFiredInRun sk => sk
  end.

Definition apply_ops (ops : list StoreOp) (st : Store) : Store :=
  foldl (λ st op, apply_op op st) st ops.

(** what the store holds for one session key *)
Definition session_view (sk : string) (st : Store) :=
  (toolStore st !! sk, writerStore st !! sk, messageIdStore st !! sk,
   pendingStacks st !! sk, clientToolNames st !! sk,
   clientToolCalledFlags st !! sk, toolFiredInRunFlags st !! sk).

(** [n] calls of [popToolCallId] in a row: what they return, and the store *)
Fixpoint pops (sk : string) (n : nat) (st : Store) : list (option string) * Store :=
  match n with
  | 0 => ([], st)
  | S n' =>
      let '(id, st1) := popToolCallId sk st in
      let '(ids, st2) := pops sk n' st1 in
      (id :: ids, st2)
  end.

(** [pushToolCallId] for each id of a list, in order *)
Definition pushes (sk : string) (ids : list string) (st : Store) : Store :=
  foldl (λ st id, pushToolCallId sk id st) st ids.

(** no session has an empty array as its pending stack *)
Definition no_empty_stack (st : Store) : Prop :=
  ∀ sk, pendingStacks st !! sk ≠ Some [].

(** a writer is bound for a session exactly when a message id is *)
Definition writer_with_message_id (st : Store) : Prop :=
  ∀ sk, is_Some (writerStore st !! sk) ↔ is_Some (messageIdStore st !! sk).

(** ** The hooks and the dispatcher, by the session they are fired for *)

(** the session key an event of the environment carries, when it has one the
    code acts on (a key that is absent or empty makes the hooks and the
    factory return at once) *)
Definition env_key (e : EnvEvent) : option string :=
  match e with
  | BeforeToolCall _ _ (Some sk) | ToolResultPersist (Some sk) | ToolFactory (Some sk) =>
      if truthy sk then Some sk else None
  | _ => None
  end.

Definition call_key (c : HostCall) : option string :=
  match c with
  | Env e => env_key e
  | _ => None
  end.

(** the session keys the environment acts on during a run *)
Definition touched_keys (pre : list EnvEvent) (script : list HostCall) : list string :=
  omap env_key pre ++ omap call_key script.

(** a pushed tool-call id is ["tool-"] followed by a UUID *)
Definition op_pushes_tool_id (op : StoreOp) : Prop :=
  match op with
  | OpPushToolCallId _ id => ∃ uuid, id = "tool-" +:+ uuid
  | _ => True
  end.

(** between [w] and [w'] nothing has changed but the variables of run [h] *)
Definition only_run_changed (h : nat) (w w' : World) : Prop :=
  store w' = store w ∧
  uuid_next w' = uuid_next w ∧
  uuid_src w' = uuid_src w ∧
  next_run w' = next_run w ∧
  ∀ h', h' ≠ h → runs w' h' = runs w h'.

(** every id on a pending stack is ["tool-"] followed by a UUID *)
Definition stacks_hold_tool_ids (st : Store) : Prop :=
  ∀ sk id, id ∈ pending sk st → ∃ uuid, id = "tool-" +:+ uuid.

(** the two invariants of the pending stacks together *)
Definition stacks_ok (st : Store) : Prop :=
  no_empty_stack st ∧ stacks_hold_tool_ids st.

(** the store of a run: operations of the store before the handler binds the
    run's writer, the binding, and operations after it *)
Definition run_store (sk : string) (h : nat) (before after : list StoreOp)
    (st : Store) : Store :=
  apply_ops after (setWriter_without_id sk h (apply_ops before st)).

(** ** The hooks in sequence *)

(** the "tool call arguments" event of the before-call hook, when it has one *)
Definition args_events (id : string) (params : option (list (string * JSValue)))
    : list Event :=
  if has_params params
  then [TOOL_CALL_ARGS id (JSON_stringify (JObj (default [] params)))]
  else [].

(** the id the before-call hook makes of the [k]-th UUID *)
Definition tool_call_id (src : nat → string) (k : nat) : string := "tool-" +:+ src k.

(** Hook calls of the host for one session in which every call of a tool
    the host executes has its result: the before-call hook, the calls the
    tool makes in turn, the after-result hook.  A call of a client tool is
    the before-call hook alone. *)
Inductive balanced (is_client : string → bool) (sk : string) : list EnvEvent → Prop :=
| balanced_nil : balanced is_client sk []
| balanced_host toolName params inner rest :
    is_client toolName = false →
    balanced is_client sk inner → balanced is_client sk rest →
    balanced is_client sk
      (BeforeToolCall toolName params (Some sk) :: inner
         ++ ToolResultPersist (Some sk) :: rest)
| balanced_client toolName params rest :
    is_client toolName = true →
    balanced is_client sk rest →
    balanced is_client sk (BeforeToolCall toolName params (Some sk) :: rest).

(** Tool-call events that nest: a call of a host tool is "started", its
    arguments if any, the events of the calls inside it, then "result" and
    "ended" with the id of its "started"; a call of a client tool is
    "started", its arguments if any, "ended".  The ids are made of the UUIDs
    [k], [k+1], ... in the order of the "started" events; [k'] is the first
    UUID not used. *)
Inductive nested (src : nat → string) (mid : string) : nat → list Event → nat → Prop :=
| nested_nil k : nested src mid k [] k
| nested_host k k1 k2 toolName params inner rest :
    nested src mid (S k) inner k1 → nested src mid k1 rest k2 →
    nested src mid k
      (TOOL_CALL_START (tool_call_id src k) toolName
         :: args_events (tool_call_id src k) params ++ inner
         ++ [TOOL_CALL_RESULT (tool_call_id src k) mid "";
             TOOL_CALL_END (tool_call_id src k)] ++ rest) k2
| nested_client k k2 toolName params rest :
    nested src mid (S k) rest k2 →
    nested src mid k
      (TOOL_CALL_START (tool_call_id src k) toolName
         :: args_events (tool_call_id src k) params
         ++ [TOOL_CALL_END (tool_call_id src k)] ++ rest) k2.

(** the tool-call ids of the "tool call started" events of a stream *)
Definition start_id (e : Event) : option string :=
  match e with
  | TOOL_CALL_START id _ => Some id
  | _ => None
  end.

Definition start_ids (l : list Event) : list string := omap start_id l.

(** ** What reaches the response *)

(** what has been written to the response is the beginning of what has been
    handed to the writer, and all of it while the run is open *)
Definition written_as_handed (r : Run) : Prop :=
  chunks r `prefix_of` emitted r ∧ (closed r = false → chunks r = emitted r).

(** the response has been ended exactly when a terminal event has been handed
    to the writer, and then the run is closed *)
Definition ended_on_terminal (r : Run) : Prop :=
  (ended r = true ↔ existsb is_terminal (emitted r) = true) ∧
  (ended r = true → closed r = true).

(** ** Where tool-call ids come from *)

(** the "tool call started" events handed to the writer of run [h] carry ids
    made of UUIDs that have been drawn, each drawn once *)
Definition ids_from_source (w : World) (h : nat) : Prop :=
  ∃ ks, start_ids (emitted (runs w h)) = tool_call_id (uuid_src w) <$> ks ∧
        NoDup ks ∧ Forall (λ k, k < uuid_next w) ks.

(** from [w] to [w'] UUIDs are only drawn, and the ids stay as above *)
Definition ids_step (w w' : World) : Prop :=
  uuid_src w' = uuid_src w ∧ uuid_next w ≤ uuid_next w' ∧
  ∀ h, ids_from_source w h → ids_from_source w' h.

(** run [h] alone has changed, and no "tool call started" was handed to it *)
Definition no_tool_started (h : nat) (w w' : World) : Prop :=
  only_run_changed h w w' ∧
  start_ids (emitted (runs w' h)) = start_ids (emitted (runs w h)).

(** ** Block replies in sequence *)

(** the text a reply payload stands for: [payload.text?.trim()], the empty
    string when there is none *)
Definition reply_text (payload_text : option string) : string :=
  default "" (trim <$> payload_text).

(** the texts of the block replies that are not blank *)
Definition block_deltas (texts : list (option string)) : list string :=
  List.filter truthy (reply_text <$> texts).

(** the events a sequence of block replies is streamed as *)
Definition block_events (mid : string) (started : bool) (deltas : list string)
    : list Event :=
  (if started || Nat.eqb (length deltas) 0
   then [] else [TEXT_MESSAGE_START mid "assistant"])
  ++ (TEXT_MESSAGE_CONTENT mid <$> deltas).

(** ** In front of a run: the bearer token (http-handler.ts, lines 62-68) *)

(** [toLowerCase] on the ASCII letters; the bytes of the other characters
    are kept.  The test below compares the first seven characters with
    ["bearer "], and no character outside ASCII has one of these seven as
    its lower case; so the seven are ASCII, and [slice 7] cuts the bytes
    where [raw.slice(7)] cuts the string. *)
Definition toLowerCase_char (c : Ascii.ascii) : Ascii.ascii :=
  let n := Ascii.nat_of_ascii c in
  if Nat.leb 65 n && Nat.leb n 90 then Ascii.ascii_of_nat (n + 32) else c.

Fixpoint toLowerCase (s : string) : string :=
  match s with
  | String c s' => String (toLowerCase_char c) (toLowerCase s')
  | EmptyString => EmptyString
  end.

Fixpoint startsWith (s searchString : string) : bool :=
  match searchString, s with
  | EmptyString, _ => true
  | String c p', String d s' => Ascii.eqb c d && startsWith s' p'
  | String _ _, EmptyString => false
  end.

(** [s.slice(n)] *)
Fixpoint slice (n : nat) (s : string) : string :=
  match n, s with
  | O, _ => s
  | S n', String _ s' => slice n' s'
  | S _, EmptyString => EmptyString
  end.

(** U+00A0, the no-break space *)
Definition nbsp : string :=
  String (Ascii.ascii_of_nat 194) (String (Ascii.ascii_of_nat 160) EmptyString).

(** a string that begins with no white space *)
Definition clean_start (s : string) : Prop := strip_space s = None.

(** [authorization] is [req.headers.authorization] *)
Definition getBearerToken (authorization : option string) : option string :=
  let raw := default "" (trim <$> authorization) in
  if negb (startsWith (toLowerCase raw) "bearer ") then None
  else
    let token := trim (slice 7 raw) in
    if truthy token then Some token else None.

(** ** The token check (http-handler.ts, lines 130-156) *)

(** What [authenticateRequest] reads besides the request: the [token] of
    [api.config.gateway?.auth] (any value, or [None] for [undefined], also
    when [gateway] or [auth] is missing) and the two environment variables. *)
Record AuthSources : Type := mkAuthSources {
  gateway_auth_token : option JSValue;
  OPENCLAW_GATEWAY_TOKEN : option string;
  CLAWDBOT_GATEWAY_TOKEN : option string;
}.

(** [a ?? b]: [b] when [a] is [undefined] or [null] *)
Definition nullish_or (a b : option JSValue) : option JSValue :=
  match a with
  | None | Some JNull => b
  | _ => a
  end.

Definition configuredToken (src : AuthSources) : option JSValue :=
  nullish_or (gateway_auth_token src)
    (nullish_or (JStr <$> OPENCLAW_GATEWAY_TOKEN src)
                (JStr <$> CLAWDBOT_GATEWAY_TOKEN src)).

(** [s.charCodeAt(i)] under a bitwise operator: [NaN], the value out of
    range, counts as 0 there.  The comparison of lines 147-155 is made on
    the bytes of the two strings: lengths and codes are those of the
    encodings, and two strings have the same length and the same code at
    every index exactly when they are the same string, in bytes as in code
    units. *)
Definition charCodeAt (s : string) (i : nat) : N :=
  match String.get i s with
  | Some c => Ascii.N_of_ascii c
  | None => 0%N
  end.

(** the loop of lines 151-154, from index [i] for [n] more rounds *)
Fixpoint compare_loop (token configured : string) (i n : nat) (mismatch : N) : N :=
  match n with
  | O => mismatch
  | S n' =>
      compare_loop token configured (S i) n'
        (N.lor mismatch (N.lxor (charCodeAt token i) (charCodeAt configured i)))
  end.

Definition authenticateRequest (authorization : option string) (src : AuthSources) : bool :=
  match getBearerToken authorization with
  | None => false
  | Some token =>
      if negb (truthy token) then false
      else
        match configuredToken src with
        | Some (JStr configured) =>
            if negb (truthy configured) then false
            else if negb (Nat.eqb (String.length token) (String.length configured))
            then false
            else N.eqb (compare_loop token configured 0 (String.length token) 0) 0
        | _ => false
        end
  end.

(** ** In front of a run: the prompt (http-handler.ts, lines 74-124, 196-222) *)

(** A message of the request as the code reads it: [role] is a string or
    absent, [content] is a string or something else ([None]). *)
Record Message : Type := mkMessage {
  msg_role : option string;
  msg_content : option string;
}.

Definition extractTextContent (msg : Message) : string :=
  default "" (msg_content msg).

Definition newline : string := String (Ascii.ascii_of_nat 10) EmptyString.

(** [parts.join(sep)] *)
Definition join (sep : string) (parts : list string) : string := String.concat sep parts.

(** one round of the loop of lines 93-111 on [systemParts], [parts] and
    [lastUserBody] *)
Definition body_step (acc : list string * list string * string) (msg : Message)
    : list string * list string * string :=
  let '(systemParts, parts, lastUserBody) := acc in
  let role := default "" (trim <$> msg_role msg) in
  let content := trim (extractTextContent msg) in
  if negb (truthy role) || negb (truthy content) then acc
  else if String.eqb role "system" then (systemParts ++ [content], parts, lastUserBody)
  else if String.eqb role "user"
       then (systemParts, parts ++ ["User: " +:+ content], content)
  else if String.eqb role "assistant"
       then (systemParts, parts ++ ["Assistant: " +:+ content], lastUserBody)
  else if String.eqb role "tool"
       then (systemParts, parts ++ ["Tool: " +:+ content], lastUserBody)
  else acc.

(** [m.role === "user"] *)
Definition is_user (m : Message) : bool :=
  match msg_role m with
  | Some role => String.eqb role "user"
  | None => false
  end.

(** the result is the pair of [body] and [systemPrompt] *)
Definition buildBodyFromMessages (messages : list Message) : string * option string :=
  let '(systemParts, parts, lastUserBody) := foldl body_step ([], [], "") messages in
  let userMessages := List.filter is_user messages in
  let body :=
    if Nat.eqb (length userMessages) 1 && Nat.eqb (length parts) 1
    then lastUserBody
    else join newline parts in
  (body,
   if Nat.ltb 0 (length systemParts)
   then Some (join (newline +:+ newline) systemParts)
   else None).

(** lines 201-222 of the handler: the two checks of the messages; the result
    is the message of the 400 response or the prompt *)
Definition check_messages (messages : list Message) : string + string :=
  if negb (existsb is_user messages)
  then inl "At least one user message is required in `messages`."
  else
    let messageBody := (buildBodyFromMessages messages).1 in
    if negb (truthy (trim messageBody))
    then inl "Could not extract a prompt from `messages`."
    else inr messageBody.

(** the line a message adds to [parts], when it adds one *)
Definition line_of (msg : Message) : option string :=
  let role := default "" (trim <$> msg_role msg) in
  let content := trim (extractTextContent msg) in
  if negb (truthy content) then None
  else if String.eqb role "user" then Some ("User: " +:+ content)
  else if String.eqb role "assistant" then Some ("Assistant: " +:+ content)
  else if String.eqb role "tool" then Some ("Tool: " +:+ content)
  else None.

(** the text a message sets [lastUserBody] to, when it sets it *)
Definition user_text_of (msg : Message) : option string :=
  let role := default "" (trim <$> msg_role msg) in
  let content := trim (extractTextContent msg) in
  if truthy content && String.eqb role "user" then Some content else None.

(** the text a message adds to [systemParts], when it adds one *)
Definition system_text_of (msg : Message) : option string :=
  let role := default "" (trim <$> msg_role msg) in
  let content := trim (extractTextContent msg) in
  if truthy content && String.eqb role "system" then Some content else None.

(** a message the body does not depend on: it adds no line and its role is
    not exactly ["user"] *)
Definition silent (msg : Message) : bool :=
  negb (is_user msg) && negb (bool_decide (is_Some (line_of msg))).

(** ** In front of a run: the request body (http-handler.ts, lines 38-60) *)

(** the events of the request stream *)
Inductive ReqEvent : Type :=
| Data (chunk : string)
| End
| Error (err : string).

Section ReadJsonBody.
(** [JSON.parse], [None] when it throws *)
Variable JSON_parse : string → option JSValue.
Variable maxBytes : nat.

(** The promise of [readJsonBody] after the events of the stream: [None]
    while it is pending, the rejection's message or the value once it is
    settled (what comes after cannot change it).  [chunks] and [size] are the
    variables of the closure. *)
Fixpoint readJsonBody_from (chunks : list string) (size : nat) (events : list ReqEvent)
    : option (string + JSValue) :=
  match events with
  | [] => None
  | Data chunk :: events' =>
      let size' := size + String.length chunk in
      if Nat.ltb maxBytes size' then Some (inl "Request body too large")
      else readJsonBody_from (chunks ++ [chunk]) size' events'
  | End :: _ =>
      match JSON_parse (String.concat "" chunks) with
      | Some v => Some (inr v)
      | None => Some (inl "Invalid JSON body")
      end
  | Error err :: _ => Some (inl err)
  end.

Definition readJsonBody (events : list ReqEvent) : option (string + JSValue) :=
  readJsonBody_from [] 0 events.
End ReadJsonBody.

(** ** The assistant's text message in a run's stream *)

Definition is_text_event (e : Event) : bool :=
  match e with
  | TEXT_MESSAGE_START _ _ | TEXT_MESSAGE_CONTENT _ _ | TEXT_MESSAGE_END _ => true
  | _ => false
  end.

Definition text_events (l : list Event) : list Event := List.filter is_text_event l.

(** one whole text message: started, one content event for each delta, ended *)
Definition text_message (mid : string) (deltas : list string) : list Event :=
  TEXT_MESSAGE_START mid "assistant" :: (TEXT_MESSAGE_CONTENT mid <$> deltas)
    ++ [TEXT_MESSAGE_END mid].

(** The text events handed to the writer of a run: none before the message
    has started; then "started" and content events with the run's message
    id; "ended" last, and only in a run that is closed. *)
Definition text_inv (r : Run) : Prop :=
  if messageStarted r
  then ∃ ds, Forall (λ d, truthy d = true) ds ∧
         (text_events (emitted r)
            = TEXT_MESSAGE_START (messageId r) "assistant"
                :: (TEXT_MESSAGE_CONTENT (messageId r) <$> ds)
          ∨ closed r = true ∧ text_events (emitted r) = text_message (messageId r) ds)
  else text_events (emitted r) = [].

(** ** The ids of a run *)

Record RunIds : Type := mkRunIds {
  ids_thread : string;
  ids_run : string;
  ids_message : string;
  ids_next_uuid : nat;
}.

(** Lines 192-194 and 246: the thread id and the run id of the request, or
    generated ones when the request has none (or empty ones), and the message
    id; [src] is the source of UUIDs and [k] the next one to be drawn. *)
Definition ids_of_request (input : RunAgentInput) (src : nat → string) (k : nat) : RunIds :=
  let gen_thread := negb (truthy_opt (input_threadId input)) in
  let k1 := if gen_thread then S k else k in
  let gen_run := negb (truthy_opt (input_runId input)) in
  let k2 := if gen_run then S k1 else k1 in
  mkRunIds
    (if gen_thread then "clawg-ui-" +:+ src k else default "" (input_threadId input))
    (if gen_run then "clawg-ui-run-" +:+ src k1 else default "" (input_runId input))
    ("msg-" +:+ src k2)
    (S k2).

(** "run started" and "run finished" carry the thread id and the run id *)
Definition envelope_ok (tid rid : string) (e : Event) : Prop :=
  match e with
  | RUN_STARTED t r | RUN_FINISHED t r => t = tid ∧ r = rid
  | _ => True
  end.

Definition envelope_inv (tid rid : string) (r : Run) : Prop :=
  threadId r = tid ∧ runId r = rid ∧ Forall (envelope_ok tid rid) (emitted r).
(** * Reasoning principles *)


Section Triples.
Context {S : Type}.
Implicit Types P : S → Prop.

Lemma hoare_ret {A} P (a : A) (Q : A → S → Prop) E :
  (∀ s, P s → Q a s) → hoare P (mret a) Q E.
Proof. intros H s Hs. cbn. auto. Qed.

Lemma hoare_bind {A B} P (m : M S A) (f : A → M S B) Q R E :
  hoare P m Q E → (∀ a, hoare (Q a) (f a) R E) → hoare P (m ≫= f) R E.
Proof.
  intros Hm Hf s Hs. specialize (Hm s Hs).
  unfold mbind, M_bind. destruct (m s) as [[a|e] s']; [|exact Hm].
  apply (Hf a s' Hm).
Qed.

Lemma hoare_conseq {A} P P' (m : M S A) (Q Q' : A → S → Prop) E E' :
  hoare P' m Q' E' →
  (∀ s, P s → P' s) → (∀ a s, Q' a s → Q a s) → (∀ e s, E' e s → E e s) →
  hoare P m Q E.
Proof.
  intros Hm HP HQ HE s Hs. specialize (Hm s (HP s Hs)).
  destruct (m s) as [[a|e] s']; eauto.
Qed.

Lemma hoare_gets {A} P (f : S → A) (Q : A → S → Prop) E :
  (∀ s, P s → Q (f s) s) → hoare P (gets f) Q E.
Proof. intros H s Hs. cbn. auto. Qed.

Lemma hoare_modify P (f : S → S) (Q : unit → S → Prop) E :
  (∀ s, P s → Q tt (f s)) → hoare P (modify f) Q E.
Proof. intros H s Hs. cbn. auto. Qed.

Lemma hoare_throw {A} P (e : string) (Q : A → S → Prop) (E : string → S → Prop) :
  (∀ s, P s → E e s) → hoare P (throw e) Q E.
Proof. intros H s Hs. cbn. auto. Qed.

Lemma hoare_when P (b : bool) (m : M S unit) (Q : unit → S → Prop) E :
  (b = true → hoare P m Q E) → (b = false → ∀ s, P s → Q tt s) →
  hoare P (when_ b m) Q E.
Proof.
  destruct b; cbn; intros Ht Hf; [auto|].
  intros s Hs. cbn. auto.
Qed.

Lemma hoare_try_catch {A} P (m : M S A) (k : string → M S A) Q E E' :
  hoare P m Q E' → (∀ e, hoare (E' e) (k e) Q E) →
  hoare P (try_catch m k) Q E.
Proof.
  intros Hm Hk s Hs. specialize (Hm s Hs). unfold try_catch.
  destruct (m s) as [[a|e] s']; [exact Hm|]. apply (Hk e s' Hm).
Qed.

Lemma hoare_try_finally {A} P (m : M S A) (fin : M S unit)
    (Q : A → S → Prop) (Q' : A → S → Prop) E E' :
  hoare P m Q' E' →
  (∀ a, hoare (Q' a) fin (λ _, Q a) no_throw) →
  (∀ e, hoare (E' e) fin (λ _, E e) no_throw) →
  hoare P (try_finally m fin) Q E.
Proof.
  intros Hm Hq He s Hs. specialize (Hm s Hs). unfold try_finally.
  destruct (m s) as [[a|e] s'].
  - specialize (Hq a s' Hm). destruct (fin s') as [[[]|e'] s'']; [exact Hq|destruct Hq].
  - specialize (He e s' Hm). destruct (fin s') as [[[]|e'] s'']; [exact He|destruct He].
Qed.

(** a triple with no exceptional exit gives the returned state *)
Lemma hoare_returns {A} P (m : M S A) (Q : A → S → Prop) s :
  hoare P m Q no_throw → P s → ∃ a, m s = (Ret a, exec m s) ∧ Q a (exec m s).
Proof.
  intros Hm Hs. specialize (Hm s Hs). unfold exec.
  destruct (m s) as [[a|e] s']; [|destruct Hm]. eauto.
Qed.
End Triples.

(** ** The writer *)


Lemma writeEvent_returns e r : writeEvent e r = (Ret tt, wrote e r).
Proof.
  unfold wrote, exec, writeEvent, mbind, M_bind, try_catch, res_write. cbn.
  destruct (closed r); cbn; [reflexivity|].
  destruct (peer_gone r (length (chunks r))); reflexivity.
Qed.

Lemma wrote_closed e r :
  closed r = true → wrote e r = set_emitted (emitted r ++ [e]) r.
Proof.
  intros H. unfold wrote, exec, writeEvent, mbind, M_bind. cbn. rewrite H. reflexivity.
Qed.

Lemma wrote_gone e r :
  closed r = false → peer_gone r (length (chunks r)) = true →
  wrote e r = set_closed true (set_emitted (emitted r ++ [e]) r).
Proof.
  intros H G. unfold wrote, exec, writeEvent, mbind, M_bind, try_catch, res_write.
  cbn. rewrite H. cbn. rewrite G. reflexivity.
Qed.

Lemma wrote_ok e r :
  closed r = false → peer_gone r (length (chunks r)) = false →
  wrote e r = set_chunks (chunks r ++ [e]) (set_emitted (emitted r ++ [e]) r).
Proof.
  intros H G. unfold wrote, exec, writeEvent, mbind, M_bind, try_catch, res_write.
  cbn. rewrite H. cbn. rewrite G. reflexivity.
Qed.


Lemma wrote_cases e r : wrote_spec e r (wrote e r).
Proof.
  destruct (closed r) eqn:C.
  - rewrite wrote_closed by done. by constructor.
  - destruct (peer_gone r (length (chunks r))) eqn:G.
    + rewrite wrote_gone by done. by constructor.
    + rewrite wrote_ok by done. by constructor.
Qed.

Lemma upd_same h r rs : upd h r rs h = r.
Proof. unfold upd. by rewrite Nat.eqb_refl. Qed.

Lemma upd_other h h' r rs : h' ≠ h → upd h r rs h' = rs h'.
Proof. intros H. unfold upd. by destruct (Nat.eqb_spec h' h). Qed.


Lemma writer_call_returns h e w :
  writer_call h e w = (Ret tt, with_run h (wrote e) w).
Proof. unfold writer_call, in_run. by rewrite writeEvent_returns. Qed.

Lemma in_run_modify h f w :
  in_run h (modify f) w = (Ret tt, with_run h f w).
Proof. reflexivity. Qed.

Lemma res_end_returns h w :
  in_run h res_end w = (Ret tt, with_run h (set_ended true) w).
Proof. reflexivity. Qed.

Lemma with_run_same h f w : runs (with_run h f w) h = f (runs w h).
Proof. cbn. apply upd_same. Qed.

Lemma with_run_other h h' f w : h' ≠ h → runs (with_run h f w) h' = runs w h'.
Proof. intros. cbn. by apply upd_other. Qed.

Lemma with_run_store h f w : store (with_run h f w) = store w.
Proof. reflexivity. Qed.

Lemma with_run_uuid_next h f w : uuid_next (with_run h f w) = uuid_next w.
Proof. reflexivity. Qed.

Lemma with_run_uuid_src h f w : uuid_src (with_run h f w) = uuid_src w.
Proof. reflexivity. Qed.

Lemma with_run_next_run h f w : next_run (with_run h f w) = next_run w.
Proof. reflexivity. Qed.

Lemma set_store_runs st w : runs (set_store st w) = runs w.
Proof. reflexivity. Qed.

(** ** [JSON.stringify] on the parameters of the hook tests *)

Example stringify_city :
  JSON_stringify (JObj [("city", JStr "Tokyo")])
  = "{" +:+ dquote +:+ "city" +:+ dquote +:+ ":" +:+ dquote +:+ "Tokyo" +:+ dquote +:+ "}".
Proof. reflexivity. Qed.

Example stringify_nested :
  JSON_stringify (JObj [("x", JNum (mkSafeInteger (-12) eq_refl));
                        ("ys", JArr [JBool true; JNull; JStr "a\b"])])
  = "{" +:+ dquote +:+ "x" +:+ dquote +:+ ":-12," +:+ dquote +:+ "ys" +:+ dquote
    +:+ ":[true,null," +:+ dquote +:+ "a\\b" +:+ dquote +:+ "]}".
Proof. reflexivity. Qed.

(** ** Running the monad one call at a time *)

Lemma bind_apply {S A B} (m : M S A) (f : A → M S B) s :
  (m ≫= f) s = match m s with
               | (Ret a, s') => f a s'
               | (Throw e, s') => (Throw e, s')
               end.
Proof. reflexivity. Qed.

Lemma ask_store_returns {A} (f : Store → A) w : ask_store f w = (Ret (f (store w)), w).
Proof. reflexivity. Qed.

Lemma on_store_returns (f : Store → Store) w :
  on_store f w = (Ret tt, set_store (f (store w)) w).
Proof. reflexivity. Qed.

Lemma in_store_returns {A} (f : Store → A * Store) w :
  in_store f w = (Ret (f (store w)).1, set_store (f (store w)).2 w).
Proof. reflexivity. Qed.

Lemma randomUUID_returns w :
  randomUUID w = (Ret (uuid_src w (uuid_next w)), set_uuid_next (S (uuid_next w)) w).
Proof. reflexivity. Qed.

Lemma gets_returns {S A} (f : S → A) s : gets f s = (Ret (f s), s).
Proof. reflexivity. Qed.

Lemma mret_returns {S A} (a : A) (s : S) : (mret a : M S A) s = (Ret a, s).
Proof. reflexivity. Qed.

Lemma when_true {S} (m : M S unit) : when_ true m = m.
Proof. reflexivity. Qed.

Lemma when_false {S} (m : M S unit) s : when_ false m s = (Ret tt, s).
Proof. reflexivity. Qed.

(** evaluate the next call of a sequence *)
Ltac run1 :=
  first
    [ rewrite writer_call_returns
    | rewrite ask_store_returns
    | rewrite on_store_returns
    | rewrite in_store_returns
    | rewrite randomUUID_returns
    | rewrite in_run_modify
    | rewrite res_end_returns
    | rewrite gets_returns
    | rewrite mret_returns
    | rewrite when_true
    | rewrite when_false
    | rewrite bind_apply ];
  cbv beta iota;
  rewrite ?with_run_store, ?with_run_uuid_next, ?with_run_uuid_src, ?with_run_next_run;
  cbn [store runs next_run uuid_src uuid_next
       set_store set_runs set_uuid_next set_next_run fst snd].

Ltac run := repeat run1.

(** ** Fields of a run after a call of the writer *)

Lemma wrote_emitted e r : emitted (wrote e r) = emitted r ++ [e].
Proof. by destruct (wrote_cases e r). Qed.

Lemma wrote_threadId e r : threadId (wrote e r) = threadId r.
Proof. by destruct (wrote_cases e r). Qed.

Lemma wrote_runId e r : runId (wrote e r) = runId r.
Proof. by destruct (wrote_cases e r). Qed.

Lemma wrote_messageId e r : messageId (wrote e r) = messageId r.
Proof. by destruct (wrote_cases e r). Qed.

Lemma wrote_sessionKey e r : sessionKey (wrote e r) = sessionKey r.
Proof. by destruct (wrote_cases e r). Qed.

Lemma wrote_messageStarted e r : messageStarted (wrote e r) = messageStarted r.
Proof. by destruct (wrote_cases e r). Qed.

Lemma wrote_ended e r : ended (wrote e r) = ended r.
Proof. by destruct (wrote_cases e r). Qed.

Lemma wrote_peer_gone e r : peer_gone (wrote e r) = peer_gone r.
Proof. by destruct (wrote_cases e r). Qed.

Lemma wrote_stays_closed e r : closed r = true → closed (wrote e r) = true.
Proof. intros H. by rewrite wrote_closed. Qed.

Lemma wrote_closed_chunks e r : closed r = true → chunks (wrote e r) = chunks r.
Proof. intros H. by rewrite wrote_closed. Qed.

Lemma wrote_open_chunks e r :
  closed r = false → peer_stays r → chunks (wrote e r) = chunks r ++ [e].
Proof. intros H G. by rewrite wrote_ok. Qed.

Lemma wrote_open_closed e r :
  closed r = false → peer_stays r → closed (wrote e r) = false.
Proof. intros H G. by rewrite wrote_ok. Qed.

Lemma wrote_peer_stays e r : peer_stays r → peer_stays (wrote e r).
Proof. unfold peer_stays. by rewrite wrote_peer_gone. Qed.


(** ** The store *)

Lemma pending_push sk id st :
  pending sk (pushToolCallId sk id st) = pending sk st ++ [id].
Proof. unfold pending, pushToolCallId. cbn. by rewrite lookup_insert_eq. Qed.

Lemma pending_push_ne sk sk' id st :
  sk' ≠ sk → pending sk' (pushToolCallId sk id st) = pending sk' st.
Proof. intros H. unfold pending, pushToolCallId. cbn. by rewrite lookup_insert_ne. Qed.

Lemma popToolCallId_id sk st : (popToolCallId sk st).1 = last (pending sk st).
Proof.
  unfold popToolCallId, pending. by destruct (pendingStacks st !! sk).
Qed.

Lemma popToolCallId_pending sk st :
  pending sk (popToolCallId sk st).2 = removelast (pending sk st).
Proof.
  unfold popToolCallId, pending.
  destruct (pendingStacks st !! sk) as [stack|] eqn:E; cbn; [|by rewrite E].
  destruct (Nat.eqb_spec (length (removelast stack)) 0) as [H0|H0]; cbn.
  - rewrite lookup_delete_eq. cbn. by destruct (removelast stack).
  - by rewrite lookup_insert_eq.
Qed.

Lemma popToolCallId_pending_ne sk sk' st :
  sk' ≠ sk → pending sk' (popToolCallId sk st).2 = pending sk' st.
Proof.
  intros H. unfold popToolCallId, pending.
  destruct (pendingStacks st !! sk) as [stack|] eqn:E; cbn; [|done].
  destruct (Nat.eqb (length (removelast stack)) 0); cbn.
  - by rewrite lookup_delete_ne.
  - by rewrite lookup_insert_ne.
Qed.


Lemma set_toolStore_id st : set_toolStore (toolStore st) st = st.
Proof. by destruct st. Qed.

(** * The session state store: defaults on unknown keys *)

(** C8: for a session key that no map has an entry for, every read of the
    store returns its default and leaves the store as it is: draining the
    tools gives the empty list, popping a pending tool-call id gives none,
    the client-tool query and both flag queries give false, the writer and
    message-id lookups give nothing; run on the world, each of these returns
    and none throws.  The same reads after the corresponding clear or drain
    give the defaults whatever the store held. *)
Theorem store_reads_default_on_unbound (sk : string) (st : Store) :
  unbound sk st →
  (popTools sk st = ([], st) ∧
   popToolCallId sk st = (None, st) ∧
   (∀ toolName, isClientTool sk toolName st = false) ∧
   wasClientToolCalled sk st = false ∧
   wasToolFiredInRun sk st = false ∧
   getWriter sk st = None ∧
   getMessageId sk st = None) ∧
  (∀ w, store w = st →
     in_store (popTools sk) w = (Ret [], set_store st w) ∧
     in_store (popToolCallId sk) w = (Ret None, set_store st w) ∧
     (∀ toolName, ask_store (isClientTool sk toolName) w = (Ret false, w)) ∧
     ask_store (wasClientToolCalled sk) w = (Ret false, w) ∧
     ask_store (wasToolFiredInRun sk) w = (Ret false, w) ∧
     ask_store (getWriter sk) w = (Ret None, w) ∧
     ask_store (getMessageId sk) w = (Ret None, w)) ∧
  (∀ st0 toolName,
     (popTools sk (popTools sk st0).2).1 = [] ∧
     getWriter sk (clearWriter sk st0) = None ∧
     getMessageId sk (clearWriter sk st0) = None ∧
     isClientTool sk toolName (clearClientToolNames sk st0) = false ∧
     wasClientToolCalled sk (clearClientToolCalled sk st0) = false ∧
     wasToolFiredInRun sk (clearToolFiredInRun sk st0) = false ∧
     (pending sk st0 = [] → (popToolCallId sk st0).1 = None)).
Proof.
  intros (Ht & Hw & Hm & Hp & Hn & Hc & Hf).
  assert (Hpure :
    popTools sk st = ([], st) ∧
    popToolCallId sk st = (None, st) ∧
    (∀ toolName, isClientTool sk toolName st = false) ∧
    wasClientToolCalled sk st = false ∧
    wasToolFiredInRun sk st = false ∧
    getWriter sk st = None ∧
    getMessageId sk st = None).
  { repeat split.
    - unfold popTools. rewrite Ht. cbn. f_equal.
      rewrite delete_id by done. apply set_toolStore_id.
    - unfold popToolCallId. by rewrite Hp.
    - intros toolName. unfold isClientTool. by rewrite Hn.
    - unfold wasClientToolCalled. by rewrite Hc.
    - unfold wasToolFiredInRun. by rewrite Hf.
    - done.
    - done. }
  split; [exact Hpure|]. split.
  - destruct Hpure as (H1 & H2 & H3 & H4 & H5 & H6 & H7).
    intros w <-. unfold in_store, ask_store.
    rewrite H1, H2, H4, H5, H6, H7. repeat split; try done.
    intros toolName. by rewrite H3.
  - intros st0 toolName. repeat split.
    + unfold popTools. cbn. by rewrite lookup_delete_eq.
    + unfold getWriter, clearWriter. cbn. by rewrite lookup_delete_eq.
    + unfold getMessageId, clearWriter. cbn. by rewrite lookup_delete_eq.
    + unfold isClientTool, clearClientToolNames. cbn. by rewrite lookup_delete_eq.
    + unfold wasClientToolCalled, clearClientToolCalled. cbn. by rewrite lookup_delete_eq.
    + unfold wasToolFiredInRun, clearToolFiredInRun. cbn. by rewrite lookup_delete_eq.
    + intros E. rewrite popToolCallId_id, E. done.
Qed.

Lemma unbound_empty sk : unbound sk empty_store.
Proof. repeat split; apply lookup_empty. Qed.

Lemma store_reads_default_on_unbound_witness :
  unbound "agui:test-session" empty_store ∧
  popTools "agui:test-session" empty_store = ([], empty_store).
Proof.
  assert (H : unbound "agui:test-session" empty_store)
    by (unfold unbound; repeat split; reflexivity).
  split; [exact H|].
  apply (store_reads_default_on_unbound "agui:test-session" empty_store H).
Defined.

(** * The after-result hook *)

(** the hook returns; what it pops and what it hands to the writer *)
Lemma handleToolResultPersist_returns w sk :
  truthy sk = true →
  handleToolResultPersist (Some sk) w =
    (Ret tt,
     let w1 := set_store (popToolCallId sk (store w)).2 w in
     match getWriter sk (store w), last (pending sk (store w)),
           getMessageId sk (store w) with
     | Some writer, Some id, Some mid =>
         if truthy id && truthy mid
         then with_run writer (wrote (TOOL_CALL_END id))
                (with_run writer (wrote (TOOL_CALL_RESULT id mid "")) w1)
         else w1
     | _, _, _ => w1
     end).
Proof.
  intros Ht. unfold handleToolResultPersist. rewrite Ht. cbn [negb].
  run.
  rewrite popToolCallId_id.
  assert (Hm : getMessageId sk (popToolCallId sk (store w)).2 = getMessageId sk (store w)).
  { unfold getMessageId, popToolCallId. destruct (pendingStacks (store w) !! sk); [|done].
    by destruct (Nat.eqb _ 0). }
  rewrite Hm.
  destruct (getWriter sk (store w)) as [writer|];
    [|by destruct (last (pending sk (store w))), (getMessageId sk (store w))].
  destruct (last (pending sk (store w))) as [id|];
    [|by destruct (getMessageId sk (store w))].
  destruct (getMessageId sk (store w)) as [mid|]; [|cbn; by rewrite andb_false_r].
  cbn [truthy_opt default].
  destruct (truthy id && truthy mid); [|done].
  by run.
Qed.

(** C3: the after-result hook, called with a session key, returns, pops the
    last pushed pending tool-call id of the session (the id a push put on top
    is the one the next pop takes, and the stack is as before the push), and,
    when the writer, the popped id and the message id are all there, hands the
    writer exactly "tool call result" (that id, the message id, empty content)
    and then "tool call ended" for the same id, touching no other run;
    otherwise no run is touched. *)
Theorem after_result_pops_and_emits (w : World) (sk : string) :
  truthy sk = true →
  let w' := exec (handleToolResultPersist (Some sk)) w in
  handleToolResultPersist (Some sk) w = (Ret tt, w') ∧
  pending sk (store w') = removelast (pending sk (store w)) ∧
  (∀ id st, (popToolCallId sk (pushToolCallId sk id st)).1 = Some id ∧
            pending sk (popToolCallId sk (pushToolCallId sk id st)).2 = pending sk st) ∧
  match getWriter sk (store w), last (pending sk (store w)),
        getMessageId sk (store w) with
  | Some writer, Some id, Some mid =>
      if truthy id && truthy mid
      then emitted (runs w' writer) =
             emitted (runs w writer) ++ [TOOL_CALL_RESULT id mid ""; TOOL_CALL_END id] ∧
           (∀ h, h ≠ writer → runs w' h = runs w h)
      else runs w' = runs w
  | _, _, _ => runs w' = runs w
  end.
Proof.
  intros Ht w'. subst w'. unfold exec.
  rewrite (handleToolResultPersist_returns w sk Ht). cbn [fst snd].
  split; [reflexivity|].
  split.
  { destruct (getWriter sk (store w)), (last (pending sk (store w))),
      (getMessageId sk (store w)); try destruct (truthy _ && truthy _);
      cbn; apply popToolCallId_pending. }
  split.
  { intros id st. rewrite popToolCallId_id, popToolCallId_pending, pending_push.
    by rewrite last_snoc, removelast_last. }
  destruct (getWriter sk (store w)) as [writer|]; [|done].
  destruct (last (pending sk (store w))) as [id|]; [|done].
  destruct (getMessageId sk (store w)) as [mid|]; [|done].
  destruct (truthy id && truthy mid); [|done].
  split.
  - rewrite !with_run_same, !wrote_emitted. cbn. by rewrite <- app_assoc.
  - intros h Hh. by rewrite !with_run_other.
Qed.

Lemma after_result_pops_and_emits_witness :
  truthy "s" = true ∧
  handleToolResultPersist (Some "s") hook_world =
    (Ret tt, exec (handleToolResultPersist (Some "s")) hook_world).
Proof.
  split; [reflexivity|].
  exact (proj1 (after_result_pops_and_emits hook_world "s" eq_refl)).
Defined.

(** C10: when the after-result hook runs for a session whose pending stack is
    not empty while no writer is bound (or no message id is stored), it hands
    no event to any writer, and still the last pushed id is gone from the
    stack: the stack before is the stack after plus that id, so the store has
    changed. *)
Theorem after_result_discards_without_writer (w : World) (sk : string) :
  truthy sk = true →
  pending sk (store w) ≠ [] →
  getWriter sk (store w) = None ∨ getMessageId sk (store w) = None →
  let w' := exec (handleToolResultPersist (Some sk)) w in
  handleToolResultPersist (Some sk) w = (Ret tt, w') ∧
  runs w' = runs w ∧
  (∃ id, last (pending sk (store w)) = Some id ∧
         pending sk (store w) = pending sk (store w') ++ [id]) ∧
  store w' ≠ store w.
Proof.
  intros Ht Hne Hmiss w'.
  assert (Hw' : w' = set_store (popToolCallId sk (store w)).2 w).
  { subst w'. unfold exec. rewrite (handleToolResultPersist_returns w sk Ht).
    cbn [snd]. destruct Hmiss as [-> | ->]; [done|].
    by destruct (getWriter sk (store w)), (last (pending sk (store w))). }
  assert (Hpop : ∃ id, last (pending sk (store w)) = Some id ∧
                       pending sk (store w) = pending sk (store w') ++ [id]).
  { rewrite Hw'. cbn [store set_store]. rewrite popToolCallId_pending.
    destruct (pending sk (store w)) as [|x l] using rev_ind; [done|].
    exists x. by rewrite last_snoc, removelast_last. }
  split.
  { subst w'. unfold exec.
    by destruct (handleToolResultPersist (Some sk) w) as [[[]|e] w2] eqn:E;
      [|rewrite (handleToolResultPersist_returns w sk Ht) in E]. }
  split; [by rewrite Hw'|].
  split; [exact Hpop|].
  destruct Hpop as (id & _ & Hp). intros Heq. rewrite Heq in Hp.
  apply (f_equal length) in Hp. rewrite length_app in Hp. cbn in Hp. lia.
Qed.

Lemma after_result_discards_without_writer_witness :
  truthy "s" = true ∧
  pending "s" (store orphan_world) ≠ [] ∧
  (getWriter "s" (store orphan_world) = None ∨
   getMessageId "s" (store orphan_world) = None) ∧
  runs (exec (handleToolResultPersist (Some "s")) orphan_world) = runs orphan_world.
Proof.
  assert (H1 : pending "s" (store orphan_world) ≠ []) by (vm_compute; discriminate).
  assert (H2 : getWriter "s" (store orphan_world) = None ∨
               getMessageId "s" (store orphan_world) = None)
    by (left; reflexivity).
  split; [reflexivity|]. split; [exact H1|]. split; [exact H2|].
  exact (proj1 (proj2 (after_result_discards_without_writer orphan_world "s" eq_refl H1 H2))).
Defined.

(** * The before-call hook *)

Lemma handleBeforeToolCall_returns w sk writer toolName params :
  truthy sk = true → getWriter sk (store w) = Some writer →
  handleBeforeToolCall toolName params (Some sk) w =
    (Ret tt,
     let id := "tool-" +:+ uuid_src w (uuid_next w) in
     let st1 := setToolFiredInRun sk (store w) in
     let w1 := set_store st1
                 (with_run writer (wrote (TOOL_CALL_START id toolName))
                    (set_uuid_next (S (uuid_next w)) w)) in
     let w2 := if has_params params
               then with_run writer
                      (wrote (TOOL_CALL_ARGS id (JSON_stringify (JObj (default [] params)))))
                      w1
               else w1 in
     if isClientTool sk toolName (store w)
     then set_store (setClientToolCalled sk st1)
            (with_run writer (wrote (TOOL_CALL_END id)) w2)
     else set_store (pushToolCallId sk id st1) w2).
Proof.
  intros Ht Hw. unfold handleBeforeToolCall. rewrite Ht. cbn [negb].
  run. rewrite Hw. run.
  destruct (has_params params); run;
    change (isClientTool sk toolName (setToolFiredInRun sk (store w)))
      with (isClientTool sk toolName (store w));
    destruct (isClientTool sk toolName (store w)); by run.
Qed.

Lemma flag_after_setToolFiredInRun sk st : wasToolFiredInRun sk (setToolFiredInRun sk st) = true.
Proof. unfold wasToolFiredInRun, setToolFiredInRun. cbn. by rewrite lookup_insert_eq. Qed.

Lemma flag_after_setClientToolCalled sk st :
  wasClientToolCalled sk (setClientToolCalled sk st) = true.
Proof. unfold wasClientToolCalled, setClientToolCalled. cbn. by rewrite lookup_insert_eq. Qed.

(** C5: the before-call hook, called with a session key that has a bound
    writer, returns, takes the next UUID for the identifier, hands the writer
    "tool call started" with that identifier and the tool name, and sets the
    session's tool-fired flag.  When the parameter object has at least one
    key it then hands the writer "tool call arguments" with the identifier
    and the serialized object; when the parameters are missing or the object
    has no key it hands over no arguments event.  Whatever else it hands
    over afterwards is at most the "tool call ended" of a client tool. *)
Theorem before_call_start_flag_args (w : World) (sk : string) (writer : nat)
    (toolName : string) (params : option (list (string * JSValue))) :
  truthy sk = true →
  getWriter sk (store w) = Some writer →
  let id := "tool-" +:+ uuid_src w (uuid_next w) in
  let w' := exec (handleBeforeToolCall toolName params (Some sk)) w in
  handleBeforeToolCall toolName params (Some sk) w = (Ret tt, w') ∧
  uuid_next w' = S (uuid_next w) ∧
  wasToolFiredInRun sk (store w') = true ∧
  emitted (runs w' writer) =
    emitted (runs w writer)
    ++ [TOOL_CALL_START id toolName]
    ++ match params with
       | Some (p :: ps) => [TOOL_CALL_ARGS id (JSON_stringify (JObj (p :: ps)))]
       | Some [] | None => []
       end
    ++ (if isClientTool sk toolName (store w) then [TOOL_CALL_END id] else []).
Proof.
  intros Ht Hw id w'. subst w'. unfold exec.
  rewrite (handleBeforeToolCall_returns w sk writer toolName params Ht Hw).
  cbn [fst snd]. fold id.
  split; [reflexivity|].
  destruct params as [[|p ps]|], (isClientTool sk toolName (store w));
    cbn [has_params negb default from_option id
         store runs uuid_next set_store with_run set_runs set_uuid_next];
    (split; [reflexivity|]); split;
    try (unfold wasToolFiredInRun, setToolFiredInRun, setClientToolCalled, pushToolCallId;
         cbn; by rewrite lookup_insert_eq);
    rewrite ?upd_same, ?wrote_emitted; cbn; by rewrite <- ?app_assoc.
Qed.

Lemma before_call_start_flag_args_witness :
  truthy "s" = true ∧
  getWriter "s" (store hook_world) = Some 0 ∧
  (let w' := exec (handleBeforeToolCall "search_db" (Some [("query", JStr "test")])
                     (Some "s")) hook_world in
   uuid_next w' = 1 ∧
   wasToolFiredInRun "s" (store w') = true ∧
   emitted (runs w' 0) =
     [TOOL_CALL_START "tool-0" "search_db";
      TOOL_CALL_ARGS "tool-0"
        ("{" +:+ dquote +:+ "query" +:+ dquote +:+ ":"
             +:+ dquote +:+ "test" +:+ dquote +:+ "}")]).
Proof.
  split; [reflexivity|]. split; [reflexivity|].
  exact (proj2
    (before_call_start_flag_args hook_world "s" 0 "search_db"
       (Some [("query", JStr "test")]) eq_refl eq_refl)).
Defined.

(** C4: when the before-call hook emits (session key given, writer bound),
    it returns, and: for a tool name in the session's client-tool-name set the last event it
    hands the writer is "tool call ended" for the identifier just generated,
    the session's client-tool-called flag is set, and the pending stacks are
    left as they were, so that identifier is not on any of them; for any
    other tool name the identifier is pushed on the session's pending stack,
    the events handed over are "tool call started" and the optional
    arguments only (no end event), and the client-tool-called flags are left
    as they were. *)
Theorem before_call_classifies (w : World) (sk : string) (writer : nat)
    (toolName : string) (params : option (list (string * JSValue))) :
  truthy sk = true →
  getWriter sk (store w) = Some writer →
  let id := "tool-" +:+ uuid_src w (uuid_next w) in
  let w' := exec (handleBeforeToolCall toolName params (Some sk)) w in
  let opening :=
    [TOOL_CALL_START id toolName]
    ++ (if has_params params
        then [TOOL_CALL_ARGS id (JSON_stringify (JObj (default [] params)))]
        else []) in
  handleBeforeToolCall toolName params (Some sk) w = (Ret tt, w') ∧
  if isClientTool sk toolName (store w)
  then emitted (runs w' writer) = emitted (runs w writer) ++ opening ++ [TOOL_CALL_END id] ∧
       wasClientToolCalled sk (store w') = true ∧
       pendingStacks (store w') = pendingStacks (store w)
  else emitted (runs w' writer) = emitted (runs w writer) ++ opening ∧
       pending sk (store w') = pending sk (store w) ++ [id] ∧
       clientToolCalledFlags (store w') = clientToolCalledFlags (store w).
Proof.
  intros Ht Hw id w' opening. subst w' opening. unfold exec.
  rewrite (handleBeforeToolCall_returns w sk writer toolName params Ht Hw).
  cbn [fst snd]. fold id. split; [reflexivity|].
  destruct (has_params params), (isClientTool sk toolName (store w));
    cbn [store runs uuid_next set_store with_run set_runs set_uuid_next];
    rewrite ?upd_same, ?wrote_emitted, <- ?app_assoc;
    (split; [reflexivity|]); split;
    first [ apply flag_after_setClientToolCalled
          | by rewrite pending_push
          | reflexivity ].
Qed.

Lemma before_call_classifies_witness :
  truthy "s" = true ∧
  getWriter "s" (store weather_world) = Some 0 ∧
  isClientTool "s" "get_weather" (store weather_world) = true ∧
  wasClientToolCalled "s"
    (store (exec (handleBeforeToolCall "get_weather" (Some [("city", JStr "Tokyo")])
                    (Some "s")) weather_world)) = true.
Proof.
  split; [reflexivity|]. split; [reflexivity|]. split; [reflexivity|].
  exact (proj1 (proj2 (proj2
    (before_call_classifies weather_world "s" 0 "get_weather"
       (Some [("city", JStr "Tokyo")]) eq_refl eq_refl)))).
Defined.

(** the scenario of the hook tests: three events sharing one identifier, and
    the client-tool-called flag set *)
Example get_weather_scenario :
  let w' := exec (handleBeforeToolCall "get_weather" (Some [("city", JStr "Tokyo")])
                    (Some "s")) weather_world in
  emitted (runs w' 0) =
    [TOOL_CALL_START "tool-0" "get_weather";
     TOOL_CALL_ARGS "tool-0" ("{" +:+ dquote +:+ "city" +:+ dquote +:+ ":"
                               +:+ dquote +:+ "Tokyo" +:+ dquote +:+ "}");
     TOOL_CALL_END "tool-0"] ∧
  wasClientToolCalled "s" (store w') = true.
Proof. vm_compute. split; reflexivity. Qed.



(** * The protocol of a run

    Whatever the host does, the events of run [h] are written by a handful of
    guarded steps: the hooks hand tool-call events to a writer and change the
    store without clearing a client-tool-called flag; a text message is
    started only on a run that has not started one, while that flag is not
    set; text content is written only on a started message, while the flag is
    not set; the message is ended only if started; a terminal event is
    followed at once by [closed = true] and [res.end()].  A property of the
    world kept by each of these steps is kept by every call of the host and
    by the dispatch as a whole. *)

Lemma flag_mono_refl st : flag_mono st st.
Proof. by intros sk. Qed.

Lemma flag_mono_same_flags st st' :
  clientToolCalledFlags st' = clientToolCalledFlags st → flag_mono st st'.
Proof. intros H sk. unfold wasClientToolCalled. by rewrite H. Qed.

Lemma flag_mono_setClientToolCalled sk st : flag_mono st (setClientToolCalled sk st).
Proof.
  intros sk' H. unfold wasClientToolCalled, setClientToolCalled in *. cbn.
  destruct (decide (sk = sk')) as [->|Hne].
  - by rewrite lookup_insert_eq.
  - by rewrite lookup_insert_ne.
Qed.

Lemma popToolCallId_flags sk st :
  clientToolCalledFlags (popToolCallId sk st).2 = clientToolCalledFlags st.
Proof.
  unfold popToolCallId. destruct (pendingStacks st !! sk); [|done].
  by destruct (Nat.eqb _ 0).
Qed.

Lemma clawgUiToolFactory_flags sk st :
  clientToolCalledFlags (clawgUiToolFactory sk st).2 = clientToolCalledFlags st.
Proof.
  unfold clawgUiToolFactory. destruct sk as [sk|]; [|done].
  destruct (truthy sk); [|done]. cbn.
  by destruct (Nat.eqb _ 0).
Qed.

Section Protocol.
Variable h : nat.
Variable I : World → Prop.

Hypothesis I_store : ∀ w st, I w → flag_mono (store w) st → I (set_store st w).
Hypothesis I_uuid : ∀ w n, I w → I (set_uuid_next n w).
Hypothesis I_tool : ∀ w h' e, is_tool e = true → I w → I (with_run h' (wrote e) w).
Hypothesis I_text_start : ∀ w mid role,
  I w →
  wasClientToolCalled (sessionKey (runs w h)) (store w) = false →
  messageStarted (runs w h) = false →
  I (with_run h (wrote (TEXT_MESSAGE_START mid role))
       (with_run h (set_messageStarted true) w)).
Hypothesis I_text_content : ∀ w mid delta,
  I w →
  wasClientToolCalled (sessionKey (runs w h)) (store w) = false →
  messageStarted (runs w h) = true →
  I (with_run h (wrote (TEXT_MESSAGE_CONTENT mid delta)) w).
Hypothesis I_text_end : ∀ w mid,
  I w → messageStarted (runs w h) = true →
  I (with_run h (wrote (TEXT_MESSAGE_END mid)) w).
(** [term_ok] tells which terminal events may be written *)
Variable term_ok : Event → bool.
Hypothesis term_ok_finished : ∀ tid rid, term_ok (RUN_FINISHED tid rid) = true.
Hypothesis I_finish : ∀ w t,
  is_terminal t = true → term_ok t = true → I w →
  I (with_run h (set_ended true)
       (with_run h (set_closed true) (with_run h (wrote t) w))).

Lemma before_tool_call_keeps toolName params sk :
  hoare I (handleBeforeToolCall toolName params sk) (λ _, I) no_throw.
Proof.
  intros w HI. destruct sk as [sk|]; [|exact HI].
  destruct (truthy sk) eqn:Ht.
  2:{ unfold handleBeforeToolCall. rewrite Ht. exact HI. }
  destruct (getWriter sk (store w)) as [writer|] eqn:Hw.
  2:{ unfold handleBeforeToolCall. rewrite Ht. cbn [negb].
      run. rewrite Hw. exact HI. }
  rewrite (handleBeforeToolCall_returns w sk writer toolName params Ht Hw).
  cbv zeta.
  assert (H1 : I (set_store (setToolFiredInRun sk (store w))
                    (with_run writer
                       (wrote (TOOL_CALL_START ("tool-" +:+ uuid_src w (uuid_next w)) toolName))
                       (set_uuid_next (S (uuid_next w)) w)))).
  { apply I_store; [apply I_tool; [done|by apply I_uuid]|].
    by apply flag_mono_same_flags. }
  set (w1 := set_store _ _) in *.
  assert (H2 : I (if has_params params
                  then with_run writer
                         (wrote (TOOL_CALL_ARGS ("tool-" +:+ uuid_src w (uuid_next w))
                                   (JSON_stringify (JObj (default [] params))))) w1
                  else w1)).
  { destruct (has_params params); [by apply I_tool|done]. }
  set (w2 := if has_params params then _ else _) in *.
  assert (Hst : store w2 = setToolFiredInRun sk (store w)).
  { subst w2 w1. by destruct (has_params params). }
  destruct (isClientTool sk toolName (store w)).
  - apply I_store; [by apply I_tool|]. rewrite with_run_store, Hst.
    apply flag_mono_setClientToolCalled.
  - apply I_store; [done|]. rewrite Hst. by apply flag_mono_same_flags.
Qed.

Lemma tool_result_persist_keeps sk :
  hoare I (handleToolResultPersist sk) (λ _, I) no_throw.
Proof.
  intros w HI. destruct sk as [sk|]; [|exact HI].
  destruct (truthy sk) eqn:Ht.
  2:{ unfold handleToolResultPersist. rewrite Ht. exact HI. }
  rewrite (handleToolResultPersist_returns w sk Ht). cbv zeta.
  assert (H1 : I (set_store (popToolCallId sk (store w)).2 w)).
  { apply I_store; [done|]. apply flag_mono_same_flags, popToolCallId_flags. }
  destruct (getWriter sk (store w)) as [writer|]; [|done].
  destruct (last (pending sk (store w))) as [id|]; [|done].
  destruct (getMessageId sk (store w)) as [mid|]; [|done].
  destruct (truthy id && truthy mid); [|done].
  apply I_tool; [reflexivity|]. apply I_tool; [reflexivity|]. exact H1.
Qed.

Lemma tool_factory_keeps sk :
  hoare I (in_store (clawgUiToolFactory sk) ;; mret tt) (λ _, I) no_throw.
Proof.
  intros w HI. run.
  apply I_store; [done|]. apply flag_mono_same_flags, clawgUiToolFactory_flags.
Qed.

Lemma send_tool_result_keeps text :
  hoare I (sendToolResult h text ;; mret tt) (λ _, I) no_throw.
Proof. intros w HI. exact HI. Qed.

Lemma send_block_reply_keeps text :
  hoare I (sendBlockReply h text ;; mret tt) (λ _, I) no_throw.
Proof.
  intros w HI. unfold sendBlockReply. run.
  destruct (closed (runs w h)) eqn:Hc; cbn [orb]; [by run|].
  destruct (wasClientToolCalled (sessionKey (runs w h)) (store w)) eqn:Hf; [by run|].
  destruct (truthy_opt (trim <$> text)); cbn [negb]; [|by run].
  destruct (messageStarted (runs w h)) eqn:Hs; cbn [negb]; run.
  - by apply I_text_content.
  - apply I_text_content.
    + by apply I_text_start.
    + by rewrite !with_run_store, !with_run_same, wrote_sessionKey.
    + by rewrite !with_run_same, wrote_messageStarted.
Qed.

Lemma send_final_reply_keeps text :
  hoare I (sendFinalReply h text ;; mret tt) (λ _, I) no_throw.
Proof.
  intros w HI. unfold sendFinalReply. run.
  destruct (closed (runs w h)) eqn:Hc; [by run|]. run.
  destruct (wasClientToolCalled (sessionKey (runs w h)) (store w)) eqn:Hf.
  { cbn [truthy_opt truthy String.eqb negb]. run.
    destruct (messageStarted (runs w h)) eqn:Hs; run.
    - apply I_finish; [done|done|]. by apply I_text_end.
    - by apply I_finish. }
  destruct (truthy_opt (trim <$> text)); run.
  - destruct (messageStarted (runs w h)) eqn:Hs; cbn [negb]; run;
      rewrite !with_run_same, ?wrote_messageStarted, ?with_run_same; cbn [messageStarted set_messageStarted];
      rewrite ?Hs; run.
    + apply I_finish; [done|done|]. apply I_text_end.
      * by apply I_text_content.
      * by rewrite with_run_same, wrote_messageStarted.
    + apply I_finish; [done|done|]. apply I_text_end.
      * apply I_text_content.
        -- by apply I_text_start.
        -- by rewrite !with_run_store, !with_run_same, wrote_sessionKey.
        -- by rewrite !with_run_same, wrote_messageStarted.
      * by rewrite !with_run_same, !wrote_messageStarted.
  - destruct (messageStarted (runs w h)) eqn:Hs; run.
    + apply I_finish; [done|done|]. by apply I_text_end.
    + by apply I_finish.
Qed.

(** [closes] tells whether [req.on("close")] may fire *)
Variable closes : bool.
Hypothesis I_close :
  closes = true → ∀ w, I w → I (with_run h (set_closed true) w).

Lemma env_event_keeps e :
  (closes = false → e ≠ ReqClose) →
  hoare I (env_event h e) (λ _, I) no_throw.
Proof.
  intros Hcl. destruct e as [toolName params sk|sk|sk|]; cbn [env_event].
  - apply before_tool_call_keeps.
  - apply tool_result_persist_keeps.
  - apply tool_factory_keeps.
  - intros w HI. rewrite in_run_modify.
    destruct closes; [by apply I_close|]. by destruct Hcl.
Qed.

Lemma env_events_keep es :
  (closes = false → ¬ In ReqClose es) →
  hoare I (env_events h es) (λ _, I) no_throw.
Proof.
  induction es as [|e es IH]; intros Hcl; cbn [env_events].
  - by apply hoare_ret.
  - eapply hoare_bind.
    + apply env_event_keeps. intros Hc He. apply (Hcl Hc). by left.
    + intros ?. apply IH. intros Hc Hin. apply (Hcl Hc). by right.
Qed.

Lemma host_call_keeps c :
  (closes = false → c ≠ Env ReqClose) →
  hoare I (host_call h c) (λ _, I) no_throw.
Proof.
  intros Hcl. destruct c as [e|text|text|text| |]; cbn [host_call].
  - apply env_event_keeps. intros Hc He. apply (Hcl Hc). by rewrite He.
  - apply send_tool_result_keeps.
  - apply send_block_reply_keeps.
  - apply send_final_reply_keeps.
  - by apply hoare_ret.
  - intros w HI. exact HI.
Qed.

Lemma host_calls_keep cs :
  (closes = false → ¬ In (Env ReqClose) cs) →
  hoare I (host_calls h cs) (λ _, I) no_throw.
Proof.
  induction cs as [|c cs IH]; intros Hcl; cbn [host_calls].
  - by apply hoare_ret.
  - eapply hoare_bind.
    + apply host_call_keeps. intros Hc He. apply (Hcl Hc). by left.
    + intros ?. apply IH. intros Hc Hin. apply (Hcl Hc). by right.
Qed.

Lemma dispatch_keeps script result :
  (closes = false → ¬ In (Env ReqClose) script) →
  hoare I (dispatchReplyFromConfig h script result) (λ _, I)
    (λ e w, I w ∧ result = Rejects e).
Proof.
  intros Hcl. unfold dispatchReplyFromConfig. eapply hoare_bind.
  - eapply hoare_conseq; [by apply host_calls_keep|done|done|].
    intros e w [].
  - intros ?. destruct result as [|err].
    + by apply hoare_ret.
    + by apply hoare_throw.
Qed.

Lemma close_after_dispatch_keeps :
  hoare I (close_after_dispatch h)
    (λ _ w, I w ∧ closed (runs w h) = true) no_throw.
Proof.
  intros w HI. unfold close_after_dispatch. run.
  destruct (closed (runs w h)) eqn:Hc; cbn [negb]; run; [done|].
  destruct (messageStarted (runs w h)) eqn:Hs; run.
  - split; [apply I_finish; [done|done|]; by apply I_text_end|].
    by rewrite !with_run_same.
  - split; [by apply I_finish|]. by rewrite !with_run_same.
Qed.

Lemma on_dispatch_error_keeps err :
  term_ok (RUN_ERROR err) = true →
  hoare I (on_dispatch_error h err)
    (λ _ w, I w ∧ closed (runs w h) = true) no_throw.
Proof.
  intros Hok w HI. unfold on_dispatch_error. run.
  destruct (closed (runs w h)) eqn:Hc; cbn [negb]; run; [done|].
  split; [by apply I_finish|]. by rewrite !with_run_same.
Qed.

(** the dispatch and all that follows it returns; the run is closed, and
    the property holds of the world up to the store the cleanup changed *)
Lemma dispatch_and_close_keeps script result :
  (closes = false → ¬ In (Env ReqClose) script) →
  (∀ err, result = Rejects err → term_ok (RUN_ERROR err) = true) →
  hoare I (dispatch_and_close h script result)
    (λ _ w, (∃ st0, I (set_store st0 w)) ∧ closed (runs w h) = true) no_throw.
Proof.
  intros Hcl Herr. unfold dispatch_and_close.
  eapply hoare_bind with (Q := λ _, I); [by apply hoare_gets|].
  intros r.
  eapply hoare_try_finally with
    (Q' := λ _ w, I w ∧ closed (runs w h) = true) (E' := no_throw).
  - eapply hoare_try_catch with (E' := λ e w, I w ∧ result = Rejects e).
    + eapply hoare_bind; [by apply dispatch_keeps|].
      intros ?. eapply hoare_conseq; [apply close_after_dispatch_keeps|done|done|].
      intros e w [].
    + (* the handler runs on the error the dispatch rejected with *)
      intros e w [HI Hres].
      exact (on_dispatch_error_keeps e (Herr e Hres) w HI).
  - intros _ w [HI Hc]. unfold cleanup. run.
    split; [|exact Hc].
    exists (store w). by destruct w.
  - intros e w [].
Qed.

(** the calls up to some point of the dispatch *)
Lemma calls_keep pre cs :
  (closes = false → ¬ has_close pre cs) →
  hoare I (env_events h pre ;; host_calls h cs) (λ _, I) no_throw.
Proof.
  intros Hcl. eapply hoare_bind.
  - apply env_events_keep. intros Hc Hin. apply (Hcl Hc). by left.
  - intros ?. apply host_calls_keep. intros Hc Hin. apply (Hcl Hc). by right.
Qed.

(** what happens between the writer binding and the end of the run *)
Lemma rest_of_run_keeps pre script result :
  (closes = false → ¬ has_close pre script) →
  (∀ err, result = Rejects err → term_ok (RUN_ERROR err) = true) →
  hoare I (env_events h pre ;; dispatch_and_close h script result)
    (λ _ w, (∃ st0, I (set_store st0 w)) ∧ closed (runs w h) = true) no_throw.
Proof.
  intros Hcl Herr. eapply hoare_bind.
  - apply env_events_keep. intros Hc Hin. apply (Hcl Hc). by left.
  - intros ?. apply dispatch_and_close_keeps; [|done].
    intros Hc Hin. apply (Hcl Hc). by right.
Qed.
End Protocol.

(** ** The start of a run *)

Lemma new_run_returns r w :
  new_run r w =
    (Ret (next_run w), set_next_run (S (next_run w)) (set_runs (upd (next_run w) r (runs w)) w)).
Proof. reflexivity. Qed.

Lemma start_run_returns input sk peer w :
  ∃ tid rid mid w1,
    start_run input sk peer w = (Ret (run_handle w), w1) ∧
    runs w1 (run_handle w) = wrote (RUN_STARTED tid rid) (fresh_run tid rid mid sk peer) ∧
    (∀ h', h' ≠ run_handle w → runs w1 h' = runs w h') ∧
    getWriter sk (store w1) = Some (run_handle w) ∧
    getMessageId sk (store w1) = None.
Proof.
  unfold start_run, run_handle, or_else.
  destruct (truthy_opt (input_threadId input)), (truthy_opt (input_runId input));
    run; rewrite new_run_returns; run.
  all: destruct (Nat.eqb (length (input_tools input)) 0); cbn [negb]; run.
  all: do 4 eexists; (split; [reflexivity|]); cbn [runs store set_store].
  all: split; [rewrite with_run_same; cbn [runs set_next_run set_runs]; by rewrite upd_same|].
  all: split;
    [intros h' Hh'; rewrite with_run_other by done;
     cbn [runs set_next_run set_runs]; by rewrite upd_other|].
  all: unfold getWriter, getMessageId, setWriter_without_id; cbn;
    by rewrite lookup_insert_eq, lookup_delete_eq.
Qed.

(** ** Properties of one run's variables

    The same, for a property [P] of the variables of run [h] alone. *)

Lemma with_run_runs h h' f w :
  runs (with_run h' f w) h = if Nat.eqb h h' then f (runs w h) else runs w h.
Proof.
  cbn. unfold upd. destruct (Nat.eqb_spec h h') as [->|]; reflexivity.
Qed.

Section RunProtocol.
Variable h : nat.
Variable P : Run → Prop.

Hypothesis P_tool : ∀ r e, is_tool e = true → P r → P (wrote e r).
Hypothesis P_text_start : ∀ r mid role,
  P r → messageStarted r = false →
  P (wrote (TEXT_MESSAGE_START mid role) (set_messageStarted true r)).
Hypothesis P_text_content : ∀ r mid delta,
  P r → messageStarted r = true → P (wrote (TEXT_MESSAGE_CONTENT mid delta) r).
Hypothesis P_text_end : ∀ r mid,
  P r → messageStarted r = true → P (wrote (TEXT_MESSAGE_END mid) r).
Variable term_ok : Event → bool.
Hypothesis term_ok_finished : ∀ tid rid, term_ok (RUN_FINISHED tid rid) = true.
Hypothesis P_finish : ∀ r t,
  is_terminal t = true → term_ok t = true → P r →
  P (set_ended true (set_closed true (wrote t r))).
Variable closes : bool.
Hypothesis P_close : closes = true → ∀ r, P r → P (set_closed true r).

Lemma run_rest_keeps pre script result :
  (closes = false → ¬ has_close pre script) →
  (∀ err, result = Rejects err → term_ok (RUN_ERROR err) = true) →
  hoare (λ w, P (runs w h))
    (env_events h pre ;; dispatch_and_close h script result)
    (λ _ w, P (runs w h) ∧ closed (runs w h) = true) no_throw.
Proof.
  intros Hcl Herr.
  eapply hoare_conseq;
    [apply (rest_of_run_keeps h (λ w, P (runs w h))) with (term_ok := term_ok) (closes := closes)
    |done| |done]; try done.
  - intros w h' e He HP. rewrite with_run_runs. destruct (Nat.eqb h h'); auto.
  - intros w mid role HP _ Hs. rewrite !with_run_same. auto.
  - intros w mid delta HP _ Hs. rewrite !with_run_same. auto.
  - intros w mid HP Hs. rewrite !with_run_same. auto.
  - intros w t Ht Hok HP. rewrite !with_run_same. auto.
  - intros Hc w HP. rewrite !with_run_same. auto.
  - intros _ w [[st0 HP] Hc]. done.
Qed.

Lemma run_calls_keep pre cs :
  (closes = false → ¬ has_close pre cs) →
  hoare (λ w, P (runs w h)) (env_events h pre ;; host_calls h cs)
    (λ _ w, P (runs w h)) no_throw.
Proof.
  intros Hcl.
  apply (calls_keep h (λ w, P (runs w h))) with (term_ok := term_ok) (closes := closes);
    try done.
  - intros w h' e He HP. rewrite with_run_runs. destruct (Nat.eqb h h'); auto.
  - intros w mid role HP _ Hs. rewrite !with_run_same. auto.
  - intros w mid delta HP _ Hs. rewrite !with_run_same. auto.
  - intros w mid HP Hs. rewrite !with_run_same. auto.
  - intros w t Ht Hok HP. rewrite !with_run_same. auto.
  - intros Hc w HP. rewrite !with_run_same. auto.
Qed.

(** the property holds wherever the host makes a call *)
Lemma during_dispatch_keeps input sk peer pre cs w :
  h = run_handle w →
  (∀ tid rid mid, P (wrote (RUN_STARTED tid rid) (fresh_run tid rid mid sk peer))) →
  (closes = false → ¬ has_close pre cs) →
  P (runs (during_dispatch input sk peer pre cs w) h).
Proof.
  intros Hh Hstart Hcl. unfold during_dispatch, exec. rewrite bind_apply.
  destruct (start_run_returns input sk peer w) as (tid & rid & mid & w1 & -> & Hr & _).
  rewrite <- Hh in *.
  destruct (hoare_returns _ _ _ w1 (run_calls_keep pre cs Hcl)) as ([] & -> & HP).
  { rewrite Hr. apply Hstart. }
  done.
Qed.

(** the whole run returns, closed, with the property *)
Lemma handler_keeps input sk peer pre script result w :
  h = run_handle w →
  (∀ tid rid mid, P (wrote (RUN_STARTED tid rid) (fresh_run tid rid mid sk peer))) →
  (closes = false → ¬ has_close pre script) →
  (∀ err, result = Rejects err → term_ok (RUN_ERROR err) = true) →
  let w' := exec (handleAguiRequest input sk peer pre script result) w in
  handleAguiRequest input sk peer pre script result w = (Ret tt, w') ∧
  P (runs w' h) ∧ closed (runs w' h) = true.
Proof.
  intros Hh Hstart Hcl Herr w'. subst w'. unfold exec, handleAguiRequest.
  rewrite bind_apply.
  destruct (start_run_returns input sk peer w) as (tid & rid & mid & w1 & -> & Hr & _).
  rewrite <- Hh in *.
  destruct (hoare_returns _ _ _ w1 (run_rest_keeps pre script result Hcl Herr))
    as ([] & -> & HP & Hc).
  { rewrite Hr. apply Hstart. }
  done.
Qed.
End RunProtocol.


(** ** Every call of the host returns *)

Lemma host_call_returns h c w : host_call h c w = (Ret tt, exec (host_call h c) w).
Proof.
  assert (H : hoare (λ _, True) (host_call h c) (λ _ _, True) no_throw).
  { by apply (host_call_keeps h (λ _, True)) with (term_ok := λ _ : Event, true)
                                                 (closes := true). }
  by destruct (hoare_returns _ _ _ w H Logic.I) as ([] & -> & _).
Qed.

Lemma env_event_returns h e w : env_event h e w = (Ret tt, exec (env_event h e) w).
Proof. apply (host_call_returns h (Env e) w). Qed.

Lemma host_calls_cons h c cs w :
  host_calls h (c :: cs) w = host_calls h cs (exec (host_call h c) w).
Proof. cbn [host_calls]. by rewrite bind_apply, host_call_returns. Qed.

Lemma host_calls_returns h cs w : host_calls h cs w = (Ret tt, exec (host_calls h cs) w).
Proof.
  revert w. induction cs as [|c cs IH]; intros w; [done|].
  unfold exec. rewrite host_calls_cons. apply IH.
Qed.

Lemma env_events_returns h es w : env_events h es w = (Ret tt, exec (env_events h es) w).
Proof.
  revert w. induction es as [|e es IH]; intros w; [done|].
  unfold exec. cbn [env_events]. rewrite bind_apply, env_event_returns. apply IH.
Qed.

Lemma host_calls_app h cs1 cs2 w :
  host_calls h (cs1 ++ cs2) w = host_calls h cs2 (exec (host_calls h cs1) w).
Proof.
  revert w. induction cs1 as [|c cs1 IH]; intros w; [done|].
  cbn [app]. rewrite host_calls_cons, IH. unfold exec. by rewrite host_calls_cons.
Qed.

(** the session key of a run is the one it started with *)
Lemma sessionKey_kept h cs w :
  sessionKey (runs (exec (host_calls h cs) w) h) = sessionKey (runs w h).
Proof.
  assert (H : hoare (λ w0, sessionKey (runs w0 h) = sessionKey (runs w h))
                (host_calls h cs)
                (λ _ w0, sessionKey (runs w0 h) = sessionKey (runs w h)) no_throw).
  { apply (host_calls_keep h (λ w0, sessionKey (runs w0 h) = sessionKey (runs w h)))
      with (term_ok := λ _ : Event, true) (closes := true); try done.
    - intros w0 h' e He H. rewrite with_run_runs. destruct (Nat.eqb h h'); [|done].
      by rewrite wrote_sessionKey.
    - intros w0 mid role H _ _. by rewrite !with_run_same, wrote_sessionKey.
    - intros w0 mid delta H _ _. by rewrite !with_run_same, wrote_sessionKey.
    - intros w0 mid H _. by rewrite !with_run_same, wrote_sessionKey.
    - intros w0 t _ _ H. rewrite !with_run_same. cbn. by rewrite wrote_sessionKey.
    - intros _ w0 H. by rewrite with_run_same. }
  by destruct (hoare_returns _ _ _ w H eq_refl) as ([] & _ & Hk).
Qed.

(** the rest of a run, from the point where the host has made the calls
    [cs1] of its dispatch *)
Lemma dispatch_and_close_app h cs1 cs2 result w :
  dispatch_and_close h (cs1 ++ cs2) result w =
  dispatch_and_close h cs2 result (exec (host_calls h cs1) w).
Proof.
  unfold dispatch_and_close. rewrite !bind_apply, !gets_returns. cbv beta iota.
  rewrite sessionKey_kept.
  unfold try_finally, try_catch, dispatchReplyFromConfig.
  by rewrite !bind_apply, host_calls_app.
Qed.

Lemma handler_from_point input sk peer pre cs1 cs2 result w :
  handleAguiRequest input sk peer pre (cs1 ++ cs2) result w =
  dispatch_and_close (run_handle w) cs2 result (during_dispatch input sk peer pre cs1 w).
Proof.
  unfold during_dispatch, exec, handleAguiRequest. rewrite !bind_apply.
  destruct (start_run_returns input sk peer w) as (tid & rid & mid & w1 & -> & _).
  rewrite !bind_apply, env_events_returns, host_calls_returns. cbn [snd].
  apply dispatch_and_close_app.
Qed.

(** * The envelope of a run *)

Lemma is_tool_body e : is_tool e = true → is_body e = true.
Proof. by destruct e. Qed.

Lemma stream_open_snoc tid rid out e :
  is_body e = true → stream_open tid rid out → stream_open tid rid (out ++ [e]).
Proof.
  intros He (mid & -> & Hmid). exists (mid ++ [e]). split; [done|].
  apply Forall_app. split; [done|]. by constructor.
Qed.

Lemma stream_open_finish tid rid out t :
  is_terminal t = true → stream_open tid rid out → stream_finished tid rid (out ++ [t]).
Proof. intros Ht (mid & -> & Hmid). by exists mid, t. Qed.

Lemma protocol_inv_wrote e r :
  is_body e = true → protocol_inv r → protocol_inv (wrote e r).
Proof.
  intros He. unfold protocol_inv.
  destruct (wrote_cases e r) as [Hc|Hc Hg|Hc Hg]; cbn; rewrite Hc; [done| |].
  - intros H. right. by left.
  - by apply stream_open_snoc.
Qed.

Lemma protocol_inv_finish t r :
  is_terminal t = true → protocol_inv r →
  protocol_inv (set_ended true (set_closed true (wrote t r))).
Proof.
  intros Ht. unfold protocol_inv.
  destruct (wrote_cases t r) as [Hc|Hc Hg|Hc Hg]; cbn; rewrite Hc; [done| |].
  - intros H. right. by left.
  - intros H. right. right. by apply stream_open_finish.
Qed.

Lemma protocol_inv_close r : protocol_inv r → protocol_inv (set_closed true r).
Proof.
  unfold protocol_inv. cbn. destruct (closed r); [done|]. intros H. right. by left.
Qed.

Lemma protocol_inv_start tid rid mid sk peer :
  protocol_inv (wrote (RUN_STARTED tid rid) (fresh_run tid rid mid sk peer)).
Proof.
  unfold protocol_inv.
  destruct (wrote_cases (RUN_STARTED tid rid) (fresh_run tid rid mid sk peer))
    as [Hc|Hc Hg|Hc Hg]; cbn; [done|by left|].
  exists []. by split.
Qed.

Lemma protocol_inv_done r :
  protocol_inv r → stream_done (threadId r) (runId r) (chunks r).
Proof. unfold protocol_inv. destruct (closed r); [done|]. intros H. right. by left. Qed.

Lemma strict_inv_wrote e r :
  is_body e = true → strict_inv r → strict_inv (wrote e r).
Proof.
  intros He [Hp H]. split; [by apply wrote_peer_stays|]. revert H.
  destruct (wrote_cases e r) as [Hc|Hc Hg|Hc Hg]; cbn; rewrite Hc; [done| |].
  - by rewrite Hp in Hg.
  - by apply stream_open_snoc.
Qed.

Lemma strict_inv_finish t r :
  is_terminal t = true → strict_inv r →
  strict_inv (set_ended true (set_closed true (wrote t r))).
Proof.
  intros Ht [Hp H]. split; [cbn; by apply wrote_peer_stays|]. revert H.
  destruct (wrote_cases t r) as [Hc|Hc Hg|Hc Hg]; cbn; rewrite Hc; [done| |].
  - by rewrite Hp in Hg.
  - by apply stream_open_finish.
Qed.

Lemma strict_inv_start tid rid mid sk peer :
  (∀ n, peer n = false) →
  strict_inv (wrote (RUN_STARTED tid rid) (fresh_run tid rid mid sk peer)).
Proof.
  intros Hp. split; [by apply wrote_peer_stays|].
  destruct (wrote_cases (RUN_STARTED tid rid) (fresh_run tid rid mid sk peer))
    as [Hc|Hc Hg|Hc Hg]; cbn; [done| |].
  - cbn in Hg. by rewrite Hp in Hg.
  - exists []. by split.
Qed.

Lemma body_not_terminal mid :
  Forall (λ e, is_body e = true) mid → List.filter is_terminal mid = [].
Proof.
  induction 1 as [|e mid He _ IH]; [done|]. cbn.
  unfold is_body in He. apply andb_true_iff in He as [_ He].
  apply negb_true_iff in He. by rewrite He.
Qed.

Lemma body_lookup mid i e :
  Forall (λ e, is_body e = true) mid → mid !! i = Some e →
  is_terminal e = false ∧ is_run_started e = false.
Proof.
  intros Hall Hi. rewrite Forall_lookup in Hall. specialize (Hall i e Hi).
  unfold is_body in Hall. apply andb_true_iff in Hall as [H1 H2].
  by apply negb_true_iff in H1, H2.
Qed.

Lemma stream_open_shape tid rid out :
  stream_open tid rid out →
  head out = Some (RUN_STARTED tid rid) ∧
  count_terminal out = 0 ∧
  (∀ i e, out !! i = Some e → is_run_started e = true → i = 0).
Proof.
  intros (mid & -> & Hmid). split; [done|]. split.
  - unfold count_terminal. cbn. by rewrite body_not_terminal.
  - intros [|i] e Hi He; [done|].
    change (mid !! i = Some e) in Hi.
    destruct (body_lookup mid i e Hmid Hi) as [_ H]. congruence.
Qed.

Lemma stream_finished_shape tid rid out :
  stream_finished tid rid out →
  head out = Some (RUN_STARTED tid rid) ∧
  ends_with_one_terminal out ∧
  count_terminal out = 1 ∧
  (∀ i e, out !! i = Some e → is_terminal e = true → S i = length out) ∧
  (∀ i e, out !! i = Some e → is_run_started e = true → i = 0).
Proof.
  intros (mid & t & -> & Hmid & Ht).
  split; [done|]. split; [|split; [|split]].
  - exists (RUN_STARTED tid rid :: mid), t. split; [done|]. split; [done|].
    constructor; [done|]. eapply Forall_impl; [exact Hmid|].
    intros e He. unfold is_body in He. apply andb_true_iff in He as [_ He].
    by apply negb_true_iff in He.
  - unfold count_terminal. cbn. rewrite List.filter_app, body_not_terminal by done.
    cbn. by rewrite Ht.
  - intros [|i] e Hi He; [cbn in Hi; by simplify_eq|].
    change ((mid ++ [t]) !! i = Some e) in Hi.
    cbn. rewrite length_app. cbn.
    destruct (decide (i < length mid)) as [Hlt|Hge].
    + rewrite lookup_app_l in Hi by done.
      destruct (body_lookup mid i e Hmid Hi) as [H _]. congruence.
    + rewrite lookup_app_r in Hi by lia.
      destruct (i - length mid) as [|k] eqn:Ek; [lia|]. done.
  - intros [|i] e Hi He; [done|].
    change ((mid ++ [t]) !! i = Some e) in Hi.
    destruct (decide (i < length mid)) as [Hlt|Hge].
    + rewrite lookup_app_l in Hi by done.
      destruct (body_lookup mid i e Hmid Hi) as [_ H]. congruence.
    + rewrite lookup_app_r in Hi by lia.
      destruct (i - length mid) as [|k] eqn:Ek; [|done].
      cbn in Hi. simplify_eq. destruct e; done.
Qed.

Lemma stream_done_shape tid rid out :
  stream_done tid rid out →
  (∀ e, head out = Some e → e = RUN_STARTED tid rid) ∧
  (∀ i e, out !! i = Some e → is_run_started e = true → i = 0) ∧
  count_terminal out ≤ 1 ∧
  (∀ i e, out !! i = Some e → is_terminal e = true → S i = length out).
Proof.
  intros [->|[Ho|Hf]].
  - repeat split; try done. unfold count_terminal. cbn. lia.
  - destruct (stream_open_shape _ _ _ Ho) as (Hh & Hc & Hs).
    split; [intros e He; congruence|]. split; [done|]. split; [lia|].
    intros i e Hi He. destruct Ho as (mid & -> & Hmid).
    destruct i as [|i]; [cbn in Hi; by simplify_eq|].
    change (mid !! i = Some e) in Hi.
    destruct (body_lookup mid i e Hmid Hi) as [H _]. congruence.
  - destruct (stream_finished_shape _ _ _ Hf) as (Hh & _ & Hc & Ht & Hs).
    split; [intros e He; congruence|]. split; [done|]. split; [lia|done].
Qed.

Lemma terminals_wrote ok e r :
  (is_terminal e = true → ok e = true) →
  terminals_among ok (chunks r) → terminals_among ok (chunks (wrote e r)).
Proof.
  intros He H. destruct (wrote_cases e r); cbn; [done|done|].
  apply Forall_app. split; [done|]. by constructor.
Qed.

Lemma error_of_finished result tid rid : error_of result (RUN_FINISHED tid rid) = true.
Proof. reflexivity. Qed.

Lemma error_of_error result err :
  result = Rejects err → error_of result (RUN_ERROR err) = true.
Proof. intros ->. cbn. apply String.eqb_refl. Qed.

(** what every run keeps: the shape of the stream, and "run error" only for
    the error the dispatch rejected with *)
Lemma envelope_kept input sk peer pre script result w :
  let h := run_handle w in
  let w' := exec (handleAguiRequest input sk peer pre script result) w in
  handleAguiRequest input sk peer pre script result w = (Ret tt, w') ∧
  (protocol_inv (runs w' h) ∧ terminals_among (error_of result) (chunks (runs w' h))) ∧
  closed (runs w' h) = true.
Proof.
  apply (handler_keeps (run_handle w)
           (λ r, protocol_inv r ∧ terminals_among (error_of result) (chunks r)))
    with (term_ok := error_of result) (closes := true); try done.
  - intros r e He [H1 H2]. split.
    + apply protocol_inv_wrote; [by apply is_tool_body|done].
    + apply terminals_wrote; [by destruct e|done].
  - intros r mid role [H1 H2] _. split.
    + by apply protocol_inv_wrote.
    + by apply terminals_wrote.
  - intros r mid delta [H1 H2] _. split.
    + by apply protocol_inv_wrote.
    + by apply terminals_wrote.
  - intros r mid [H1 H2] _. split.
    + by apply protocol_inv_wrote.
    + by apply terminals_wrote.
  - intros r t Ht Hok [H1 H2]. split.
    + by apply protocol_inv_finish.
    + cbn. by apply terminals_wrote.
  - intros _ r [H1 H2]. split; [by apply protocol_inv_close|done].
  - intros tid rid mid. split; [apply protocol_inv_start|].
    apply terminals_wrote; [done|]. constructor.
  - intros err. apply error_of_error.
Qed.

(** the same for a peer that stays and a request that is not closed: the
    stream is finished *)
Lemma envelope_finished input sk peer pre script result w :
  (∀ n, peer n = false) → ¬ has_close pre script →
  let h := run_handle w in
  let w' := exec (handleAguiRequest input sk peer pre script result) w in
  stream_finished (threadId (runs w' h)) (runId (runs w' h)) (output h w').
Proof.
  intros Hpeer Hcl h w'.
  destruct (handler_keeps (run_handle w) strict_inv)
    with (term_ok := λ _ : Event, true) (closes := false)
         (input := input) (sk := sk) (peer := peer) (pre := pre)
         (script := script) (result := result) (w := w)
    as (_ & [_ Hinv] & Hc); try done.
  - intros r e He H. apply strict_inv_wrote; [by apply is_tool_body|done].
  - intros r mid role H _. by apply strict_inv_wrote.
  - intros r mid delta H _. by apply strict_inv_wrote.
  - intros r mid H _. by apply strict_inv_wrote.
  - intros r t Ht _ H. by apply strict_inv_finish.
  - intros tid rid mid. by apply strict_inv_start.
  - fold h w' in Hinv, Hc. by rewrite Hc in Hinv.
Qed.

Example plain_run_output :
  output 0 plain_run =
    [RUN_STARTED "t1" "r1"; TEXT_MESSAGE_START "msg-0" "assistant";
     TEXT_MESSAGE_CONTENT "msg-0" "Hello from agent"; TEXT_MESSAGE_END "msg-0";
     RUN_FINISHED "t1" "r1"].
Proof. vm_compute. reflexivity. Qed.

(** C1 as stated fails when the peer disconnects during the dispatch: the
    output of the run is "run started" and the text streamed so far, with no
    terminal event at its end. *)
Lemma run_without_terminal_event :
  output 0 disconnected_run =
    [RUN_STARTED "t1" "r1"; TEXT_MESSAGE_START "msg-0" "assistant";
     TEXT_MESSAGE_CONTENT "msg-0" "Hello"] ∧
  ¬ ends_with_one_terminal (output 0 disconnected_run).
Proof.
  assert (H : output 0 disconnected_run =
    [RUN_STARTED "t1" "r1"; TEXT_MESSAGE_START "msg-0" "assistant";
     TEXT_MESSAGE_CONTENT "msg-0" "Hello"]) by (vm_compute; reflexivity).
  split; [exact H|].
  intros (mid & t & Heq & Ht & _). rewrite H in Heq.
  apply (f_equal last) in Heq. rewrite last_snoc in Heq. cbn in Heq.
  inversion Heq; subst. discriminate.
Qed.

(** * The final reply *)

Lemma set_messageStarted_peer_stays b r : peer_stays r → peer_stays (set_messageStarted b r).
Proof. done. Qed.

Lemma existsb_snoc {A} (f : A → bool) l x : existsb f (l ++ [x]) = existsb f l || f x.
Proof. rewrite existsb_app. cbn. by rewrite orb_false_r. Qed.

Create HintDb run_open.
Lemma set_messageStarted_closed b r : closed r = false → closed (set_messageStarted b r) = false.
Proof. done. Qed.

#[local] Hint Resolve wrote_peer_stays wrote_open_closed set_messageStarted_peer_stays
  set_messageStarted_closed : run_open.

(** fields of the run after the calls of [sendFinalReply] *)
Ltac final_fields :=
  rewrite ?with_run_same;
  cbn [closed ended emitted chunks messageStarted set_closed set_ended set_messageStarted];
  rewrite ?wrote_emitted;
  cbn [closed ended emitted chunks messageStarted set_closed set_ended set_messageStarted].

(** C6: a final reply on a run that is not closed returns true and hands the
    writer, in this order: the residual text (the trimmed text of the reply,
    or nothing once a client tool was called) as one "text message content",
    after a "text message started" if none was emitted before in this run;
    then one "text message ended" if and only if a "text message started" has
    been emitted in this run (now or before); then one "run finished".  The
    run is then closed and the response ended; with a peer that stays, the
    same events are the ones added to the output.  The store is untouched. *)
Theorem final_reply_on_open_stream (w : World) (h : nat) (payload : option string) :
  let r := runs w h in
  closed r = false →
  messageStarted r = existsb is_text_start (emitted r) →
  let text := if wasClientToolCalled (sessionKey r) (store w)
              then EmptyString else default EmptyString (trim <$> payload) in
  let text_part :=
    if truthy text
    then (if existsb is_text_start (emitted r) then []
          else [TEXT_MESSAGE_START (messageId r) "assistant"])
         ++ [TEXT_MESSAGE_CONTENT (messageId r) text]
    else [] in
  let end_part :=
    if existsb is_text_start (emitted r ++ text_part)
    then [TEXT_MESSAGE_END (messageId r)] else [] in
  let events := text_part ++ end_part ++ [RUN_FINISHED (threadId r) (runId r)] in
  let w' := exec (sendFinalReply h payload) w in
  sendFinalReply h payload w = (Ret true, w') ∧
  emitted (runs w' h) = emitted r ++ events ∧
  (peer_stays r → chunks (runs w' h) = chunks r ++ events) ∧
  closed (runs w' h) = true ∧
  ended (runs w' h) = true ∧
  store w' = store w.
Proof.
  intros r Hc Hlink text text_part end_part events w'.
  subst w' events end_part text_part text. unfold exec, sendFinalReply.
  run. fold r. rewrite Hc. run.
  assert (Htr : truthy_opt (if wasClientToolCalled (sessionKey r) (store w)
                            then Some EmptyString else trim <$> payload)
                = truthy (if wasClientToolCalled (sessionKey r) (store w)
                          then EmptyString else default EmptyString (trim <$> payload))).
  { destruct (wasClientToolCalled _ _); [done|]. by destruct payload. }
  assert (Hdef : default EmptyString (if wasClientToolCalled (sessionKey r) (store w)
                            then Some EmptyString else trim <$> payload)
                = (if wasClientToolCalled (sessionKey r) (store w)
                   then EmptyString else default EmptyString (trim <$> payload))).
  { by destruct (wasClientToolCalled _ _). }
  rewrite Htr, Hdef.
  set (text := if wasClientToolCalled _ _ then _ else _).
  destruct (truthy text) eqn:Ht; run;
    [destruct (messageStarted r) eqn:Hs; cbn [negb]; run|];
    final_fields; fold r;
    rewrite ?wrote_messageStarted; cbn [messageStarted set_messageStarted];
    [| |destruct (messageStarted r) eqn:Hs]; rewrite ?Hs; run;
    cbn [app]; rewrite ?app_nil_r, ?existsb_app, <- ?Hlink;
    cbn [existsb is_text_start orb app];
    (split; [done|]); final_fields; fold r;
    (split; [by rewrite <- ?app_assoc|]);
    (split; [|done]);
    intros Hp;
    rewrite !wrote_open_chunks; auto with run_open;
    by rewrite <- ?app_assoc.
Qed.

Lemma final_reply_on_open_stream_witness :
  closed (runs started_world 0) = false ∧
  messageStarted (runs started_world 0)
    = existsb is_text_start (emitted (runs started_world 0)) ∧
  closed (runs (exec (sendFinalReply 0 (Some "done")) started_world) 0) = true.
Proof.
  split; [reflexivity|]. split; [reflexivity|].
  destruct (final_reply_on_open_stream started_world 0 (Some "done") eq_refl eq_refl)
    as (_ & _ & _ & H & _).
  exact H.
Defined.

Example final_reply_output :
  output 0 (exec (sendFinalReply 0 (Some " done ")) started_world) =
    [RUN_STARTED "t1" "r1"; TEXT_MESSAGE_START "msg-0" "assistant";
     TEXT_MESSAGE_CONTENT "msg-0" "done"; TEXT_MESSAGE_END "msg-0";
     RUN_FINISHED "t1" "r1"].
Proof. vm_compute. reflexivity. Qed.

(** ** The started flag and the events handed over *)

Lemma started_link_wrote e r :
  is_text_start e = false → started_link r → started_link (wrote e r).
Proof.
  unfold started_link. intros He H.
  by rewrite wrote_messageStarted, wrote_emitted, existsb_snoc, He, orb_false_r.
Qed.

Lemma started_link_start mid role r :
  started_link (wrote (TEXT_MESSAGE_START mid role) (set_messageStarted true r)).
Proof.
  unfold started_link.
  rewrite wrote_messageStarted, wrote_emitted, existsb_snoc. cbn. by rewrite orb_true_r.
Qed.

(** wherever the host makes a call in a run, the link holds of the run *)
Lemma started_link_during_dispatch input sk peer pre cs w :
  started_link (runs (during_dispatch input sk peer pre cs w) (run_handle w)).
Proof.
  apply (during_dispatch_keeps (run_handle w) started_link)
    with (term_ok := λ _ : Event, true) (closes := true); try done.
  - intros r e He H. apply started_link_wrote; [by destruct e|done].
  - intros r mid role _ _. apply started_link_start.
  - intros r mid delta H _. by apply started_link_wrote.
  - intros r mid H _. by apply started_link_wrote.
  - intros r t Ht _ H. unfold started_link in *. cbn.
    rewrite wrote_messageStarted, wrote_emitted, existsb_snoc.
    destruct t; try done; cbn; by rewrite orb_false_r.
  - intros tid rid mid. by apply started_link_wrote.
Qed.

(** * Write failures *)

(** once closed, the run stays closed and its output is what it was *)
Lemma frozen_kept h c0 pre script result :
  hoare (λ w, closed (runs w h) = true ∧ chunks (runs w h) = c0)
    (env_events h pre ;; dispatch_and_close h script result)
    (λ _ w, closed (runs w h) = true ∧ chunks (runs w h) = c0) no_throw.
Proof.
  eapply hoare_conseq;
    [apply (run_rest_keeps h (λ r, closed r = true ∧ chunks r = c0))
       with (term_ok := λ _ : Event, true) (closes := true)
    |done| |done]; try done.
  - intros r e _ [Hc <-]. by rewrite wrote_closed.
  - intros r mid role [Hc <-] _. by rewrite wrote_closed.
  - intros r mid delta [Hc <-] _. by rewrite wrote_closed.
  - intros r mid [Hc <-] _. by rewrite wrote_closed.
  - intros r t _ _ [Hc <-]. by rewrite wrote_closed.
  - by intros _ r [Hc <-].
  - by intros a w [H _].
Qed.

(** the output never grows past the point where the peer is gone *)
Lemma bounded_wrote n e r :
  peer_gone r n = true ∧ length (chunks r) ≤ n →
  peer_gone (wrote e r) n = true ∧ length (chunks (wrote e r)) ≤ n.
Proof.
  intros [Hg Hl]. rewrite wrote_peer_gone. split; [done|].
  destruct (wrote_cases e r) as [Hc|Hc Hg'|Hc Hg']; cbn; [done|done|].
  rewrite length_app. cbn.
  assert (length (chunks r) ≠ n) by congruence. lia.
Qed.

Lemma bounded_kept input sk peer pre script result w n :
  peer n = true →
  let w' := exec (handleAguiRequest input sk peer pre script result) w in
  handleAguiRequest input sk peer pre script result w = (Ret tt, w') ∧
  length (output (run_handle w) w') ≤ n.
Proof.
  intros Hn w'.
  destruct (handler_keeps (run_handle w)
              (λ r, peer_gone r n = true ∧ length (chunks r) ≤ n))
    with (term_ok := λ _ : Event, true) (closes := true)
         (input := input) (sk := sk) (peer := peer) (pre := pre)
         (script := script) (result := result) (w := w)
    as (Hret & [_ Hl] & _); try done.
  - intros r e _ H. by apply bounded_wrote.
  - intros r mid role H _. by apply bounded_wrote.
  - intros r mid delta H _. by apply bounded_wrote.
  - intros r mid H _. by apply bounded_wrote.
  - intros r t _ _ H. by apply (bounded_wrote n t r).
  - intros tid rid mid. apply bounded_wrote. cbn. split; [done|lia].
Qed.

(** C9: a call of the writer always returns; when the write throws, the
    exception is caught, the run is closed and the output is as before; on a
    closed run every further call of the writer returns and leaves the output
    and the closed flag as they are, and so does the whole rest of the run,
    whatever the host, the hooks and the handler still do; and a run whose
    peer is gone once [n] chunks are written returns without an exception,
    with at most those [n] chunks in its output. *)
Theorem write_failure_closes_stream :
  (∀ e r, writeEvent e r = (Ret tt, wrote e r)) ∧
  (∀ e r, closed r = false → peer_gone r (length (chunks r)) = true →
          closed (wrote e r) = true ∧ chunks (wrote e r) = chunks r) ∧
  (∀ e r, closed r = true →
          closed (wrote e r) = true ∧ chunks (wrote e r) = chunks r) ∧
  (∀ h pre script result w,
     closed (runs w h) = true →
     let rest := env_events h pre ;; dispatch_and_close h script result in
     rest w = (Ret tt, exec rest w) ∧
     closed (runs (exec rest w) h) = true ∧
     output h (exec rest w) = output h w) ∧
  (∀ input sk peer pre script result w n,
     peer n = true →
     let w' := exec (handleAguiRequest input sk peer pre script result) w in
     handleAguiRequest input sk peer pre script result w = (Ret tt, w') ∧
     length (output (run_handle w) w') ≤ n).
Proof.
  split; [apply writeEvent_returns|].
  split; [intros e r Hc Hg; by rewrite wrote_gone|].
  split; [intros e r Hc; by rewrite wrote_closed|].
  split.
  - intros h pre script result w Hc rest.
    destruct (hoare_returns _ _ _ w
                (frozen_kept h (chunks (runs w h)) pre script result))
      as ([] & Hret & Hc' & Hch); [done|].
    done.
  - intros input sk peer pre script result w n Hn.
    by apply bounded_kept.
Qed.

Lemma write_failure_closes_stream_witness :
  gone_after 2 2 = true ∧
  length (output 0 (one_run hello_input (gone_after 2) []
                      [SendBlockReply (Some "Hello"); SendBlockReply (Some "again");
                       SendFinalReply (Some "bye")] Resolves)) ≤ 2.
Proof.
  split; [reflexivity|].
  destruct write_failure_closes_stream as (_ & _ & _ & _ & H).
  exact (proj2 (H hello_input "agui:test-session" (gone_after 2) []
                  [SendBlockReply (Some "Hello"); SendBlockReply (Some "again");
                   SendFinalReply (Some "bye")] Resolves
                  (initial_world uuids) 2 eq_refl)).
Defined.

Example write_failure_output :
  output 0 (one_run hello_input (gone_after 2) []
              [SendBlockReply (Some "Hello"); SendBlockReply (Some "again");
               SendFinalReply (Some "bye")] Resolves) =
    [RUN_STARTED "t1" "r1"; TEXT_MESSAGE_START "msg-0" "assistant"].
Proof. vm_compute. reflexivity. Qed.

(** * Text suppression after a client tool call *)

Lemma quiet_wrote e0 c0 e r :
  is_text e = false → quiet_since e0 c0 r → quiet_since e0 c0 (wrote e r).
Proof.
  intros He (l1 & l2 & H1 & H2 & F1 & F2).
  assert (F1' : Forall (λ e, is_text e = false) (l1 ++ [e])).
  { apply Forall_app. split; [done|]. by constructor. }
  destruct (wrote_cases e r) as [Hc|Hc Hg|Hc Hg]; unfold quiet_since; cbn.
  - exists (l1 ++ [e]), l2. rewrite H1, H2, app_assoc. done.
  - exists (l1 ++ [e]), l2. rewrite H1, H2, app_assoc. done.
  - exists (l1 ++ [e]), (l2 ++ [e]). rewrite H1, H2, !app_assoc.
    repeat split; try done. apply Forall_app. split; [done|]. by constructor.
Qed.

Lemma quiet_refl r : quiet_since (emitted r) (chunks r) r.
Proof. exists [], []. by rewrite !app_nil_r. Qed.

Section Suppressed.
Variables (h : nat) (sk : string) (e0 c0 : list Event).

Local Abbreviation I := (suppressed h sk e0 c0).

Lemma suppressed_store w st : I w → flag_mono (store w) st → I (set_store st w).
Proof. intros (Hf & Hk & Hq) Hm. split; [by apply Hm|done]. Qed.

Lemma suppressed_wrote w h' e :
  is_text e = false → I w → I (with_run h' (wrote e) w).
Proof.
  intros He (Hf & Hk & Hq). split; [done|].
  rewrite with_run_runs. destruct (Nat.eqb h h'); [|done].
  split; [by rewrite wrote_sessionKey|]. by apply quiet_wrote.
Qed.

Lemma suppressed_rest pre script result :
  hoare I (env_events h pre ;; dispatch_and_close h script result)
    (λ _ w, quiet_since e0 c0 (runs w h)) no_throw.
Proof.
  eapply hoare_conseq;
    [apply (rest_of_run_keeps h I) with (term_ok := λ _ : Event, true) (closes := true)
    |done| |done]; try done.
  - apply suppressed_store.
  - intros w h' e He. apply suppressed_wrote. by destruct e.
  - intros w mid role (Hf & Hk & _) Hn. rewrite Hk in Hn. congruence.
  - intros w mid delta (Hf & Hk & _) Hn. rewrite Hk in Hn. congruence.
  - intros w mid HI _. by apply suppressed_wrote.
  - intros w t Ht _ HI.
    assert (H : I (with_run h (wrote t) w)) by (apply suppressed_wrote; [by destruct t|done]).
    destruct H as (Hf & Hk & Hq). split; [done|].
    rewrite !with_run_same. rewrite with_run_same in Hk, Hq. done.
  - intros _ w (Hf & Hk & Hq). split; [done|]. by rewrite with_run_same.
  - intros a w [[st0 (_ & _ & Hq)] _]. exact Hq.
Qed.

Lemma suppressed_calls pre cs :
  hoare I (env_events h pre ;; host_calls h cs) (λ _, I) no_throw.
Proof.
  apply (calls_keep h I) with (term_ok := λ _ : Event, true) (closes := true);
    try done.
  - apply suppressed_store.
  - intros w h' e He. apply suppressed_wrote. by destruct e.
  - intros w mid role (Hf & Hk & _) Hn. rewrite Hk in Hn. congruence.
  - intros w mid delta (Hf & Hk & _) Hn. rewrite Hk in Hn. congruence.
  - intros w mid HI _. by apply suppressed_wrote.
  - intros w t Ht _ HI.
    assert (H : I (with_run h (wrote t) w)) by (apply suppressed_wrote; [by destruct t|done]).
    destruct H as (Hf & Hk & Hq). split; [done|].
    rewrite !with_run_same. rewrite with_run_same in Hk, Hq. done.
  - intros _ w (Hf & Hk & Hq). split; [done|]. by rewrite with_run_same.
Qed.
End Suppressed.

(** from a world in which the flag of the session of run [h] is set *)
Lemma quiet_after_flag (h : nat) (w : World) :
  wasClientToolCalled (sessionKey (runs w h)) (store w) = true →
  (∀ pre cs,
     let w2 := exec (env_events h pre ;; host_calls h cs) w in
     wasClientToolCalled (sessionKey (runs w2 h)) (store w2) = true) ∧
  (∀ text, sendBlockReply h text w = (Ret false, w)) ∧
  (∀ text, sendFinalReply h text w = sendFinalReply h (Some EmptyString) w) ∧
  (∀ pre script result,
     let rest := env_events h pre ;; dispatch_and_close h script result in
     rest w = (Ret tt, exec rest w) ∧
     quiet_since (emitted (runs w h)) (chunks (runs w h)) (runs (exec rest w) h)).
Proof.
  intros Hf.
  assert (HI : suppressed h (sessionKey (runs w h)) (emitted (runs w h))
                 (chunks (runs w h)) w).
  { split; [done|]. split; [done|]. apply quiet_refl. }
  split.
  { intros pre cs w2.
    destruct (hoare_returns _ _ _ w (suppressed_calls h _ _ _ pre cs) HI)
      as ([] & _ & (Hf2 & Hk2 & _)).
    fold w2 in Hf2, Hk2. by rewrite Hk2. }
  split.
  { intros text. unfold sendBlockReply. run. rewrite Hf, orb_true_r. by run. }
  split.
  { intros text. unfold sendFinalReply. run.
    destruct (closed (runs w h)); [done|]. run. by rewrite Hf. }
  intros pre script result rest.
  destruct (hoare_returns _ _ _ w (suppressed_rest h _ _ _ pre script result) HI)
    as ([] & Hret & Hq).
  split; [exact Hret|]. exact Hq.
Qed.

Lemma sessionKey_during_dispatch input sk peer pre cs w :
  sessionKey (runs (during_dispatch input sk peer pre cs w) (run_handle w)) = sk.
Proof.
  apply (during_dispatch_keeps (run_handle w) (λ r, sessionKey r = sk))
    with (term_ok := λ _ : Event, true) (closes := true); try done.
  - intros r e _ H. by rewrite wrote_sessionKey.
  - intros r mid role H _. by rewrite wrote_sessionKey.
  - intros r mid delta H _. by rewrite wrote_sessionKey.
  - intros r mid H _. by rewrite wrote_sessionKey.
  - intros r t _ _ H. cbn. by rewrite wrote_sessionKey.
  - intros tid rid mid. by rewrite wrote_sessionKey.
Qed.

(** C2: take any run, and any point of its dispatch (the host has made the
    calls [cs1], the calls [cs2] are still to come) at which the
    client-tool-called flag of the run's session is set.  From there on the
    flag stays set through whatever calls follow, a block reply returns false
    and changes nothing, a final reply does what it does for the empty text,
    and the run returns having handed to the writer, and written, no "text
    message started" and no "text message content" after that point. *)
Theorem no_text_after_client_tool (input : RunAgentInput) (sk : string)
    (peer : nat → bool) (pre : list EnvEvent) (cs1 cs2 : list HostCall)
    (result : DispatchResult) (w0 : World) :
  let h := run_handle w0 in
  let w := during_dispatch input sk peer pre cs1 w0 in
  let w' := exec (handleAguiRequest input sk peer pre (cs1 ++ cs2) result) w0 in
  wasClientToolCalled sk (store w) = true →
  handleAguiRequest input sk peer pre (cs1 ++ cs2) result w0 = (Ret tt, w') ∧
  (∃ l1 l2,
     emitted (runs w' h) = emitted (runs w h) ++ l1 ∧
     output h w' = output h w ++ l2 ∧
     Forall (λ e, is_text e = false) l1 ∧
     Forall (λ e, is_text e = false) l2) ∧
  (∀ cs, wasClientToolCalled sk (store (exec (host_calls h cs) w)) = true) ∧
  (∀ text, sendBlockReply h text w = (Ret false, w)) ∧
  (∀ text, sendFinalReply h text w = sendFinalReply h (Some EmptyString) w).
Proof.
  intros h w w' Hf.
  assert (Hk : sessionKey (runs w h) = sk) by apply sessionKey_during_dispatch.
  rewrite <- Hk in Hf.
  destruct (quiet_after_flag h w Hf) as (Hflag & Hblock & Hfinal & Hrest).
  assert (Hsplit : handleAguiRequest input sk peer pre (cs1 ++ cs2) result w0
                   = dispatch_and_close h cs2 result w)
    by apply handler_from_point.
  destruct (Hrest [] cs2 result) as [Hret Hq].
  change ((env_events h [] ;; dispatch_and_close h cs2 result) w)
    with (dispatch_and_close h cs2 result w) in Hret.
  change (exec (env_events h [] ;; dispatch_and_close h cs2 result) w)
    with (exec (dispatch_and_close h cs2 result) w) in Hret, Hq.
  assert (Hw' : w' = exec (dispatch_and_close h cs2 result) w).
  { subst w'. unfold exec. by rewrite Hsplit. }
  split; [by rewrite Hsplit, Hw'|].
  split; [by rewrite Hw'|].
  split; [|done].
  intros cs. specialize (Hflag [] cs). cbn zeta in Hflag.
  change (exec (env_events h [] ;; host_calls h cs) w)
    with (exec (host_calls h cs) w) in Hflag.
  by rewrite sessionKey_kept, Hk in Hflag.
Qed.

Lemma no_text_after_client_tool_witness :
  wasClientToolCalled "agui:test-session" (store client_tool_called_world) = true ∧
  sendBlockReply 0 (Some "unwanted text") client_tool_called_world
    = (Ret false, client_tool_called_world).
Proof.
  split; [reflexivity|].
  destruct (no_text_after_client_tool weather_input "agui:test-session" stays []
              [Env (BeforeToolCall "get_weather" (Some [("city", JStr "Tokyo")])
                      (Some "agui:test-session"))]
              [SendBlockReply (Some "unwanted text"); SendFinalReply (Some "also unwanted")]
              Resolves (initial_world uuids) eq_refl)
    as (_ & _ & _ & H & _).
  exact (H (Some "unwanted text")).
Defined.

(** the suppression test of the handler: no text event, and the run still
    finishes *)
Example suppressed_run_output :
  output 0 (one_run weather_input stays []
              [Env (BeforeToolCall "get_weather" (Some [("city", JStr "Tokyo")])
                      (Some "agui:test-session"));
               SendBlockReply (Some "unwanted text");
               SendFinalReply (Some "also unwanted")] Resolves) =
    [RUN_STARTED "t-ct" "r-ct";
     TOOL_CALL_START "tool-1" "get_weather";
     TOOL_CALL_ARGS "tool-1" ("{" +:+ dquote +:+ "city" +:+ dquote +:+ ":"
                               +:+ dquote +:+ "Tokyo" +:+ dquote +:+ "}");
     TOOL_CALL_END "tool-1";
     RUN_FINISHED "t-ct" "r-ct"].
Proof. vm_compute. reflexivity. Qed.

(** * The cleanup *)

Lemma cleanup_returns sk w :
  cleanup sk w =
    (Ret tt,
     set_store (clearClientToolNames sk (clearClientToolCalled sk (clearWriter sk (store w)))) w).
Proof. unfold cleanup. by run. Qed.

(** the run ends with the cleanup for its session key *)
Lemma handler_ends_with_cleanup input sk peer pre script result w :
  ∃ w0, exec (handleAguiRequest input sk peer pre script result) w = exec (cleanup sk) w0.
Proof.
  unfold exec at 1. unfold handleAguiRequest. rewrite bind_apply.
  destruct (start_run_returns input sk peer w) as (tid & rid & mid & w1 & -> & Hr & _).
  set (h := run_handle w) in *.
  assert (HH : hoare (λ w0, sessionKey (runs w0 h) = sk) (env_events h pre)
                 (λ _ w0, sessionKey (runs w0 h) = sk) no_throw).
  { apply (env_events_keep h (λ w0, sessionKey (runs w0 h) = sk)) with (closes := true);
      try done.
    - intros w0 h' e He H. rewrite with_run_runs. destruct (Nat.eqb h h'); [|done].
      by rewrite wrote_sessionKey.
    - intros _ w0 H. by rewrite with_run_same. }
  rewrite bind_apply.
  destruct (hoare_returns _ _ _ w1 HH) as ([] & -> & Hk).
  { by rewrite Hr, wrote_sessionKey. }
  unfold dispatch_and_close. run. rewrite Hk. unfold try_finally.
  destruct (try_catch _ _ _) as [o w0]. exists w0.
  unfold exec. by rewrite cleanup_returns.
Qed.

(** C7, as the code has it: every run returns, however it ends, and the
    cleanup has then removed, for the run's session key, the writer binding,
    the message id, the client-tool-called flag and the client-tool-name set;
    the cleanup leaves the stashed tools and the pending stacks as they
    are. *)
Theorem cleanup_after_run (input : RunAgentInput) (sk : string) (peer : nat → bool)
    (pre : list EnvEvent) (script : list HostCall) (result : DispatchResult)
    (w : World) :
  let w' := exec (handleAguiRequest input sk peer pre script result) w in
  handleAguiRequest input sk peer pre script result w = (Ret tt, w') ∧
  getWriter sk (store w') = None ∧
  getMessageId sk (store w') = None ∧
  clientToolCalledFlags (store w') !! sk = None ∧
  wasClientToolCalled sk (store w') = false ∧
  clientToolNames (store w') !! sk = None ∧
  (∀ toolName, isClientTool sk toolName (store w') = false) ∧
  (∀ w0, toolStore (store (exec (cleanup sk) w0)) = toolStore (store w0) ∧
         pendingStacks (store (exec (cleanup sk) w0)) = pendingStacks (store w0)).
Proof.
  intros w'.
  split; [apply (envelope_kept input sk peer pre script result w)|].
  destruct (handler_ends_with_cleanup input sk peer pre script result w) as [w0 Hw0].
  fold w' in Hw0. rewrite Hw0. unfold exec. rewrite cleanup_returns. cbn [snd store set_store].
  unfold getWriter, getMessageId, wasClientToolCalled, isClientTool,
    clearClientToolNames, clearClientToolCalled, clearWriter. cbn.
  rewrite !lookup_delete_eq. repeat split; try done.
  all: by rewrite cleanup_returns.
Qed.

(** C7 as stated fails: after a run whose client tools the host never asked
    the factory for, and in which a host-executed tool call was started but
    its result never persisted, the store still holds the stashed tool list
    and the pending tool-call id of the session. *)
Lemma state_left_after_run :
  toolStore (store leaky_run) !! "agui:test-session"
    = Some [mkTool "get_weather" (Some "Get weather") None] ∧
  pending "agui:test-session" (store leaky_run) = ["tool-1"] ∧
  ¬ unbound "agui:test-session" (store leaky_run).
Proof.
  assert (H : toolStore (store leaky_run) !! "agui:test-session"
              = Some [mkTool "get_weather" (Some "Get weather") None])
    by (vm_compute; reflexivity).
  split; [exact H|]. split; [vm_compute; reflexivity|].
  intros (Ht & _). rewrite H in Ht. discriminate.
Qed.

(** * Runs of the handler tests *)

(** an empty final reply and no block reply: "run started", "run finished" *)
Example empty_run_output :
  output 0 (one_run hello_input stays [] [SendFinalReply (Some EmptyString)] Resolves)
  = [RUN_STARTED "t1" "r1"; RUN_FINISHED "t1" "r1"].
Proof. vm_compute. reflexivity. Qed.

(** the dispatch returns without a final reply: the handler closes the run *)
Example abandoned_run_output :
  output 0 (one_run hello_input stays [] [SendBlockReply (Some "partial")] Resolves)
  = [RUN_STARTED "t1" "r1"; TEXT_MESSAGE_START "msg-0" "assistant";
     TEXT_MESSAGE_CONTENT "msg-0" "partial"; TEXT_MESSAGE_END "msg-0";
     RUN_FINISHED "t1" "r1"].
Proof. vm_compute. reflexivity. Qed.

(** the dispatch rejects: "run error" ends the stream *)
Example failed_run_output :
  output 0 (one_run hello_input stays [] [] (Rejects "Error: agent failed"))
  = [RUN_STARTED "t1" "r1"; RUN_ERROR "Error: agent failed"].
Proof. vm_compute. reflexivity. Qed.

(** a host-executed tool in a run of this handler: started and arguments from
    the before-call hook; the after-result hook finds no message id for the
    session and adds nothing *)
Example host_tool_run_output :
  output 0 (one_run hello_input stays []
              [Env (BeforeToolCall "search_db" (Some [("query", JStr "test")])
                      (Some "agui:test-session"));
               Env (ToolResultPersist (Some "agui:test-session"));
               SendFinalReply (Some "done")] Resolves)
  = [RUN_STARTED "t1" "r1";
     TOOL_CALL_START "tool-1" "search_db";
     TOOL_CALL_ARGS "tool-1" ("{" +:+ dquote +:+ "query" +:+ dquote +:+ ":"
                               +:+ dquote +:+ "test" +:+ dquote +:+ "}");
     TEXT_MESSAGE_START "msg-0" "assistant";
     TEXT_MESSAGE_CONTENT "msg-0" "done";
     TEXT_MESSAGE_END "msg-0";
     RUN_FINISHED "t1" "r1"].
Proof. vm_compute. reflexivity. Qed.

(** * The store as a whole *)

(** X1: what is stashed for a session is what the next drain returns, the
    drain leaves the store as a drain without the stash would, a second stash
    replaces the first, and a second drain returns nothing. *)
Theorem stash_drain_round_trip (sk : string) (tools tools0 : list Tool) (st : Store) :
  popTools sk (stashTools sk tools st) = (tools, (popTools sk st).2) ∧
  stashTools sk tools (stashTools sk tools0 st) = stashTools sk tools st ∧
  (popTools sk (popTools sk (stashTools sk tools st)).2).1 = [].
Proof.
  unfold popTools, stashTools. cbn. rewrite lookup_insert_eq. cbn.
  rewrite delete_insert_eq, insert_insert_eq, lookup_delete_eq. done.
Qed.

(** X2: binding a writer binds its message id with it; a second binding for
    the same session replaces both (nothing is queued); clearing removes both,
    whatever was bound. *)
Theorem writer_binding (sk : string) (h1 h2 : nat) (m1 m2 : string) (st : Store) :
  getWriter sk (setWriter sk h1 m1 st) = Some h1 ∧
  getMessageId sk (setWriter sk h1 m1 st) = Some m1 ∧
  setWriter sk h2 m2 (setWriter sk h1 m1 st) = setWriter sk h2 m2 st ∧
  clearWriter sk (setWriter sk h1 m1 st) = clearWriter sk st ∧
  getWriter sk (clearWriter sk st) = None ∧
  getMessageId sk (clearWriter sk st) = None.
Proof.
  unfold getWriter, getMessageId, setWriter, clearWriter. cbn.
  rewrite !lookup_insert_eq, !insert_insert_eq, !delete_insert_eq, !lookup_delete_eq.
  done.
Qed.

Lemma pending_pushes sk ids st : pending sk (pushes sk ids st) = pending sk st ++ ids.
Proof.
  unfold pushes. revert st. induction ids as [|id ids IH]; intros st; cbn.
  - by rewrite app_nil_r.
  - rewrite IH, pending_push. by rewrite <- app_assoc.
Qed.

Lemma pop_leaves_no_empty_stack sk st :
  pendingStacks (popToolCallId sk st).2 !! sk ≠ Some [].
Proof.
  unfold popToolCallId. destruct (pendingStacks st !! sk) as [stack|] eqn:E; cbn.
  - destruct (Nat.eqb_spec (length (removelast stack)) 0) as [H0|H0]; cbn.
    + by rewrite lookup_delete_eq.
    + rewrite lookup_insert_eq. intros [= H]. by rewrite H in H0.
  - by rewrite E.
Qed.

Lemma pops_no_empty_stack sk n st :
  0 < n → pendingStacks (pops sk n st).2 !! sk ≠ Some [].
Proof.
  revert st. induction n as [|n IH]; intros st Hn; [lia|].
  cbn [pops]. destruct (popToolCallId sk st) as [id st1] eqn:E1.
  destruct (pops sk n st1) as [ids st2] eqn:E2. cbn [snd].
  destruct n as [|n'].
  - cbn in E2. injection E2 as <- <-.
    replace st1 with (popToolCallId sk st).2 by by rewrite E1.
    apply pop_leaves_no_empty_stack.
  - replace st2 with (pops sk (S n') st1).2 by by rewrite E2.
    apply IH. lia.
Qed.

Lemma pops_pending sk n st :
  pending sk (pops sk n st).2 = take (length (pending sk st) - n) (pending sk st).
Proof.
  revert st. induction n as [|n IH]; intros st.
  - cbn. by rewrite Nat.sub_0_r, firstn_all.
  - cbn [pops]. destruct (popToolCallId sk st) as [id st1] eqn:E1.
    destruct (pops sk n st1) as [ids st2] eqn:E2. cbn [snd].
    replace st2 with (pops sk n st1).2 by by rewrite E2.
    replace st1 with (popToolCallId sk st).2 by by rewrite E1.
    rewrite IH, popToolCallId_pending.
    destruct (pending sk st) as [|x l _] using rev_ind; [done|].
    rewrite removelast_last, length_app. cbn.
    replace (length l + 1 - S n) with (length l - n) by lia.
    by rewrite take_app_le by lia.
Qed.

Lemma pops_ids sk n st :
  (pops sk n st).1 =
    map Some (take n (rev (pending sk st)))
    ++ replicate (n - length (pending sk st)) None.
Proof.
  revert st. induction n as [|n IH]; intros st; [done|].
  cbn [pops]. destruct (popToolCallId sk st) as [id st1] eqn:E1.
  destruct (pops sk n st1) as [ids st2] eqn:E2. cbn [fst].
  replace ids with (pops sk n st1).1 by by rewrite E2.
  replace id with (popToolCallId sk st).1 by by rewrite E1.
  replace st1 with (popToolCallId sk st).2 by by rewrite E1.
  rewrite IH, popToolCallId_id, popToolCallId_pending.
  destruct (pending sk st) as [|x l _] using rev_ind.
  - cbn. rewrite !take_nil. cbn. by rewrite Nat.sub_0_r.
  - rewrite last_snoc, removelast_last, rev_app_distr, length_app. cbn.
    by replace (S n - (length l + 1)) with (n - length l) by lia.
Qed.

(** X3: the pending stack is last-in-first-out over any number of calls:
    after pushing the ids of a list, as many pops return them in reverse
    order and leave the stack as it was before the pushes; popping more often
    than was pushed returns nothing for the surplus; and when the stack was
    empty before, the session's entry is gone from the map afterwards. *)
Theorem pending_stack_lifo (sk : string) (ids : list string) (st : Store) :
  (pops sk (length ids) (pushes sk ids st)).1 = map Some (rev ids) ∧
  pending sk (pops sk (length ids) (pushes sk ids st)).2 = pending sk st ∧
  (∀ k, pending sk st = [] →
        (pops sk (length ids + k) (pushes sk ids st)).1
        = map Some (rev ids) ++ replicate k None) ∧
  (pending sk st = [] → ids ≠ [] →
   pendingStacks (pops sk (length ids) (pushes sk ids st)).2 !! sk = None).
Proof.
  split; [|split; [|split]].
  - rewrite pops_ids, pending_pushes, rev_app_distr.
    rewrite take_app_length' by (by rewrite length_rev).
    rewrite length_app.
    replace (length ids - (length (pending sk st) + length ids)) with 0 by lia.
    cbn. by rewrite app_nil_r.
  - rewrite pops_pending, pending_pushes, length_app.
    replace (length (pending sk st) + length ids - length ids)
      with (length (pending sk st)) by lia.
    by rewrite take_app_length.
  - intros k Hp. rewrite pops_ids, pending_pushes, Hp. cbn [app].
    rewrite take_ge by (rewrite length_rev; lia).
    by replace (length ids + k - length ids) with k by lia.
  - intros Hp Hne.
    assert (Hn : 0 < length ids) by (destruct ids; [done|cbn; lia]).
    pose proof (pops_no_empty_stack sk (length ids) (pushes sk ids st) Hn) as Hs.
    assert (He : pending sk (pops sk (length ids) (pushes sk ids st)).2 = []).
    { rewrite pops_pending, pending_pushes, Hp. cbn.
      by rewrite Nat.sub_diag. }
    unfold pending in He.
    destruct (pendingStacks _ !! sk) as [l|]; [|done]. cbn in He. by subst.
Qed.

Lemma pending_stack_lifo_witness :
  pending "s" empty_store = [] ∧ ["tool-a"; "tool-b"] ≠ [] ∧
  pendingStacks (pops "s" 2 (pushes "s" ["tool-a"; "tool-b"] empty_store)).2 !! "s" = None.
Proof.
  split; [reflexivity|]. split; [discriminate|].
  apply (pending_stack_lifo "s" ["tool-a"; "tool-b"] empty_store); [reflexivity|discriminate].
Defined.

(** X4: after the client tool names of a session are marked, a tool is a
    client tool of the session exactly when its name is in the list (order
    and repetitions do not matter); a second marking replaces the first
    rather than adding to it; clearing makes every query false.  Marking or
    clearing the names of one session changes the answer for no other
    session. *)
Theorem client_tool_names (sk sk' toolName : string) (names names0 : list string)
    (st : Store) :
  isClientTool sk toolName (markClientToolNames sk names st) = bool_decide (toolName ∈ names) ∧
  markClientToolNames sk names (markClientToolNames sk names0 st)
    = markClientToolNames sk names st ∧
  (toolName ∉ names →
   isClientTool sk toolName (markClientToolNames sk names (markClientToolNames sk names0 st))
   = false) ∧
  isClientTool sk toolName (clearClientToolNames sk (markClientToolNames sk names st)) = false ∧
  (sk' ≠ sk →
   isClientTool sk' toolName (markClientToolNames sk names st) = isClientTool sk' toolName st ∧
   isClientTool sk' toolName (clearClientToolNames sk st) = isClientTool sk' toolName st).
Proof.
  assert (H1 : isClientTool sk toolName (markClientToolNames sk names st)
               = bool_decide (toolName ∈ names)).
  { unfold isClientTool, markClientToolNames. cbn. rewrite lookup_insert_eq.
    apply bool_decide_ext. by rewrite elem_of_list_to_set. }
  assert (H2 : markClientToolNames sk names (markClientToolNames sk names0 st)
               = markClientToolNames sk names st).
  { unfold markClientToolNames. cbn. by rewrite insert_insert_eq. }
  split; [done|]. split; [done|]. split; [|split].
  - intros Hn. rewrite H2, H1. by apply bool_decide_eq_false.
  - unfold isClientTool, clearClientToolNames. cbn. by rewrite lookup_delete_eq.
  - intros Hne. unfold isClientTool, markClientToolNames, clearClientToolNames. cbn.
    by rewrite lookup_insert_ne, lookup_delete_ne.
Qed.

Lemma client_tool_names_witness :
  ("search_db" ∉ ["get_weather"]) ∧
  "t" ≠ "s" ∧
  isClientTool "s" "search_db"
    (markClientToolNames "s" ["get_weather"] (markClientToolNames "s" ["search_db"] empty_store))
  = false ∧
  isClientTool "t" "search_db"
    (markClientToolNames "s" ["get_weather"] (markClientToolNames "t" ["search_db"] empty_store))
  = true.
Proof.
  assert (H : "search_db" ∉ ["get_weather"]) by (intros Hin%list_elem_of_In; cbn in Hin; destruct Hin as [Hin|Hin];
        [discriminate|destruct Hin]).
  assert (Hne : "t" ≠ "s") by discriminate.
  split; [exact H|]. split; [exact Hne|]. split.
  - exact (proj1 (proj2 (proj2
      (client_tool_names "s" "t" "search_db" ["get_weather"] ["search_db"] empty_store))) H).
  - exact (eq_trans
      (proj1 (proj2 (proj2 (proj2 (proj2
        (client_tool_names "s" "t" "search_db" ["get_weather"] []
           (markClientToolNames "t" ["search_db"] empty_store))))) Hne))
      eq_refl).
Defined.

Lemma session_view_other_op (op : StoreOp) (sk' : string) (st : Store) :
  sk' ≠ op_key op →
  session_view sk' (apply_op op st) = session_view sk' st.
Proof.
  intros Hne. unfold session_view.
  destruct op as [sk tools|sk|sk writer mid|sk|sk id|sk|sk names|sk|sk|sk|sk];
    cbn [op_key] in Hne; cbn [apply_op];
    unfold stashTools, popTools, setWriter, clearWriter, pushToolCallId,
      markClientToolNames, clearClientToolNames, setClientToolCalled,
      clearClientToolCalled, setToolFiredInRun;
    cbn;
    rewrite ?lookup_insert_ne, ?lookup_delete_ne by done; try done.
  unfold popToolCallId. destruct (pendingStacks st !! sk); [|done].
  destruct (Nat.eqb _ 0); cbn;
    by rewrite ?lookup_insert_ne, ?lookup_delete_ne by done.
Qed.

Lemma store_op_touches_one_session_aux (ops : list StoreOp) (sk' : string) (st : Store) :
  Forall (λ op, sk' ≠ op_key op) ops →
  session_view sk' (apply_ops ops st) = session_view sk' st.
Proof.
  unfold apply_ops. revert st. induction ops as [|op ops IH]; intros st Hall; [done|].
  apply Forall_cons in Hall as [Hop Hall]. cbn. rewrite IH by done.
  by apply session_view_other_op.
Qed.

(** X5: every operation of the store is addressed to one session key: what
    the store holds for any other key (stashed tools, writer, message id,
    pending stack, client tool names, both flags) is the same before and
    after, for one operation and for any sequence of them. *)
Theorem store_op_touches_one_session (ops : list StoreOp) (sk' : string) (st : Store) :
  Forall (λ op, sk' ≠ op_key op) ops →
  session_view sk' (apply_ops ops st) = session_view sk' st.
Proof. apply store_op_touches_one_session_aux. Qed.

Lemma store_op_touches_one_session_witness :
  Forall (λ op, "other" ≠ op_key op) [OpPushToolCallId "s" "tool-a"; OpPopToolCallId "s"] ∧
  session_view "other"
    (apply_ops [OpPushToolCallId "s" "tool-a"; OpPopToolCallId "s"] empty_store)
  = session_view "other" empty_store.
Proof.
  assert (H : Forall (λ op, "other" ≠ op_key op)
                [OpPushToolCallId "s" "tool-a"; OpPopToolCallId "s"])
    by (repeat constructor; discriminate).
  split; [exact H|].
  exact (store_op_touches_one_session
           [OpPushToolCallId "s" "tool-a"; OpPopToolCallId "s"] "other" empty_store H).
Defined.

Lemma no_empty_stack_op op st : no_empty_stack st → no_empty_stack (apply_op op st).
Proof.
  intros H. destruct op as [sk tools|sk|sk writer mid|sk|sk id|sk|sk names|sk|sk|sk|sk];
    cbn [apply_op]; try exact H.
  - intros sk'. unfold pushToolCallId. cbn.
    destruct (decide (sk = sk')) as [->|Hne].
    + rewrite lookup_insert_eq. intros [= E]. by destruct (default [] _).
    + rewrite lookup_insert_ne by done. apply H.
  - intros sk'. destruct (decide (sk = sk')) as [->|Hne].
    + apply pop_leaves_no_empty_stack.
    + assert (E : session_view sk' (apply_op (OpPopToolCallId sk) st) = session_view sk' st)
        by (apply session_view_other_op; cbn; congruence).
      unfold session_view in E. cbn [apply_op] in E.
      injection E as _ _ _ E _ _ _. rewrite E. apply H.
Qed.




Lemma empty_store_invariants : no_empty_stack empty_store ∧ writer_with_message_id empty_store.
Proof.
  split.
  - intros sk. cbn. by rewrite lookup_empty.
  - intros sk. cbn. by rewrite !lookup_empty.
Qed.


(** * The hooks and the store *)

Lemma apply_ops_app ops1 ops2 st :
  apply_ops (ops1 ++ ops2) st = apply_ops ops2 (apply_ops ops1 st).
Proof. unfold apply_ops. apply foldl_app. Qed.

(** what the before-call hook does to the store, as operations of the store *)
Lemma before_tool_call_ops toolName params sk w :
  ∃ ops,
    store (exec (handleBeforeToolCall toolName params sk) w) = apply_ops ops (store w) ∧
    Forall (λ op, Some (op_key op) = env_key (BeforeToolCall toolName params sk)) ops ∧
    Forall op_pushes_tool_id ops.
Proof.
  destruct sk as [sk|]; [|by exists []].
  destruct (truthy sk) eqn:Ht.
  2:{ exists []. unfold exec, handleBeforeToolCall. by rewrite Ht. }
  destruct (getWriter sk (store w)) as [writer|] eqn:Hw.
  2:{ exists []. unfold exec, handleBeforeToolCall. rewrite Ht. cbn [negb].
      run. by rewrite Hw. }
  unfold exec. rewrite (handleBeforeToolCall_returns w sk writer toolName params Ht Hw).
  cbn [snd env_key]. rewrite Ht. cbv zeta.
  destruct (isClientTool sk toolName (store w)).
  - exists [OpSetToolFiredInRun sk; OpSetClientToolCalled sk].
    split; [done|]. split; by repeat constructor.
  - exists [OpSetToolFiredInRun sk;
            OpPushToolCallId sk ("tool-" +:+ uuid_src w (uuid_next w))].
    split; [done|]. split; repeat constructor. by eexists.
Qed.

Lemma tool_result_persist_ops sk w :
  ∃ ops,
    store (exec (handleToolResultPersist sk) w) = apply_ops ops (store w) ∧
    Forall (λ op, Some (op_key op) = env_key (ToolResultPersist sk)) ops ∧
    Forall op_pushes_tool_id ops.
Proof.
  destruct sk as [sk|]; [|by exists []].
  destruct (truthy sk) eqn:Ht.
  2:{ exists []. unfold exec, handleToolResultPersist. by rewrite Ht. }
  unfold exec. rewrite (handleToolResultPersist_returns w sk Ht).
  cbn [snd env_key]. rewrite Ht. cbv zeta.
  exists [OpPopToolCallId sk].
  split; [|split; by repeat constructor].
  destruct (getWriter sk (store w)), (last (pending sk (store w))),
    (getMessageId sk (store w)); try done.
  by destruct (truthy _ && truthy _).
Qed.

Lemma tool_factory_ops sk w :
  ∃ ops,
    store (exec (in_store (clawgUiToolFactory sk) ;; mret tt) w) = apply_ops ops (store w) ∧
    Forall (λ op, Some (op_key op) = env_key (ToolFactory sk)) ops ∧
    Forall op_pushes_tool_id ops.
Proof.
  unfold exec. run. cbn [snd store set_store].
  destruct sk as [sk|]; [|by exists []].
  cbn [clawgUiToolFactory env_key].
  destruct (truthy sk) eqn:Ht; cbn [negb]; [|by exists []].
  exists [OpPopTools sk]. split; [|split; by repeat constructor].
  cbn. by destruct (Nat.eqb _ 0).
Qed.

Lemma env_event_ops h e w :
  ∃ ops,
    store (exec (env_event h e) w) = apply_ops ops (store w) ∧
    Forall (λ op, Some (op_key op) = env_key e) ops ∧
    Forall op_pushes_tool_id ops.
Proof.
  destruct e as [toolName params sk|sk|sk|]; cbn [env_event].
  - apply before_tool_call_ops.
  - apply tool_result_persist_ops.
  - apply tool_factory_ops.
  - by exists [].
Qed.

(** * The dispatcher and the rest of the world *)

Lemma exec_then_ret {S A} (m : M S A) (s : S) : exec (m ;; mret tt) s = exec m s.
Proof. unfold exec. rewrite bind_apply. by destruct (m s) as [[a|e] s']. Qed.

Lemma only_run_changed_refl h w : only_run_changed h w w.
Proof. by repeat split. Qed.

Lemma only_run_changed_with_run h f w w0 :
  only_run_changed h w w0 → only_run_changed h w (with_run h f w0).
Proof.
  intros (H1 & H2 & H3 & H4 & H5). repeat split; try done.
  intros h' Hh. rewrite with_run_other by done. by apply H5.
Qed.

#[local] Hint Resolve only_run_changed_with_run : run_open.

Lemma dispatcher_frame (h : nat) (w : World) (text : option string) (err : string) :
  only_run_changed h w (exec (sendBlockReply h text) w) ∧
  only_run_changed h w (exec (sendFinalReply h text) w) ∧
  sendToolResult h text w = (Ret (negb (closed (runs w h))), w) ∧
  only_run_changed h w (exec (close_after_dispatch h) w) ∧
  only_run_changed h w (exec (on_dispatch_error h err) w).
Proof.
  assert (Hfin : ∀ w0 t, is_terminal t = true → (λ _ : Event, true) t = true →
            only_run_changed h w w0 →
            only_run_changed h w
              (with_run h (set_ended true)
                 (with_run h (set_closed true) (with_run h (wrote t) w0))))
    by (intros; auto with run_open).
  split; [|split; [|split; [|split]]].
  - rewrite <- exec_then_ret.
    destruct (hoare_returns _ _ _ w
                (send_block_reply_keeps h (only_run_changed h w)
                   ltac:(intros; auto with run_open) ltac:(intros; auto with run_open) text)
                (only_run_changed_refl h w)) as ([] & _ & H).
    exact H.
  - rewrite <- exec_then_ret.
    destruct (hoare_returns _ _ _ w
                (send_final_reply_keeps h (only_run_changed h w)
                   ltac:(intros; auto with run_open) ltac:(intros; auto with run_open)
                   ltac:(intros; auto with run_open) (λ _, true) ltac:(done) Hfin text)
                (only_run_changed_refl h w)) as ([] & _ & H).
    exact H.
  - reflexivity.
  - destruct (hoare_returns _ _ _ w
                (close_after_dispatch_keeps h (only_run_changed h w)
                   ltac:(intros; auto with run_open) (λ _, true) ltac:(done) Hfin)
                (only_run_changed_refl h w)) as ([] & _ & H & _).
    exact H.
  - destruct (hoare_returns _ _ _ w
                (on_dispatch_error_keeps h (only_run_changed h w) (λ _, true) Hfin err eq_refl)
                (only_run_changed_refl h w)) as ([] & _ & H & _).
    exact H.
Qed.

(** X7: the methods of a run's dispatcher, the close after the dispatch and
    the error path change nothing but the variables of their own run: the
    store, the source of UUIDs and every other run are as before.  The
    tool-result notification changes nothing at all and reports whether the
    run is still open. *)
Theorem dispatcher_touches_own_run (h : nat) (w : World) (text : option string)
    (err : string) :
  only_run_changed h w (exec (sendBlockReply h text) w) ∧
  only_run_changed h w (exec (sendFinalReply h text) w) ∧
  sendToolResult h text w = (Ret (negb (closed (runs w h))), w) ∧
  only_run_changed h w (exec (close_after_dispatch h) w) ∧
  only_run_changed h w (exec (on_dispatch_error h err) w).
Proof. apply dispatcher_frame. Qed.

(** * The store during a run *)

Lemma close_after_dispatch_returns h w :
  close_after_dispatch h w = (Ret tt, exec (close_after_dispatch h) w).
Proof.
  destruct (hoare_returns _ _ _ w
              (close_after_dispatch_keeps h (λ _, True) ltac:(done) (λ _, true)
                 ltac:(done) ltac:(done)) Logic.I) as ([] & H & _).
  exact H.
Qed.

Lemma on_dispatch_error_returns h err w :
  on_dispatch_error h err w = (Ret tt, exec (on_dispatch_error h err) w).
Proof.
  destruct (hoare_returns _ _ _ w
              (on_dispatch_error_keeps h (λ _, True) (λ _, true) ltac:(done) err eq_refl)
              Logic.I) as ([] & H & _).
  exact H.
Qed.

Lemma exec_host_calls_cons h c cs w :
  exec (host_calls h (c :: cs)) w = exec (host_calls h cs) (exec (host_call h c) w).
Proof. unfold exec at 1 2. by rewrite host_calls_cons. Qed.

Lemma exec_env_events_cons h e es w :
  exec (env_events h (e :: es)) w = exec (env_events h es) (exec (env_event h e) w).
Proof.
  unfold exec at 1 2. cbn [env_events]. by rewrite bind_apply, env_event_returns.
Qed.

Lemma host_call_ops h c w :
  ∃ ops,
    store (exec (host_call h c) w) = apply_ops ops (store w) ∧
    Forall (λ op, Some (op_key op) = call_key c) ops ∧
    Forall op_pushes_tool_id ops.
Proof.
  destruct c as [e|text|text|text| |]; cbn [host_call call_key].
  - apply env_event_ops.
  - by exists [].
  - exists []. rewrite exec_then_ret.
    by destruct (dispatcher_frame h w text EmptyString) as ((-> & _) & _).
  - exists []. rewrite exec_then_ret.
    by destruct (dispatcher_frame h w text EmptyString) as (_ & (-> & _) & _).
  - by exists [].
  - by exists [].
Qed.

Lemma host_calls_ops h cs w :
  ∃ ops,
    store (exec (host_calls h cs) w) = apply_ops ops (store w) ∧
    Forall (λ op, op_key op ∈ omap call_key cs) ops ∧
    Forall op_pushes_tool_id ops.
Proof.
  revert w. induction cs as [|c cs IH]; intros w; [by exists []|].
  rewrite exec_host_calls_cons.
  destruct (host_call_ops h c w) as (ops1 & E1 & K1 & T1).
  destruct (IH (exec (host_call h c) w)) as (ops2 & E2 & K2 & T2).
  exists (ops1 ++ ops2). rewrite E2, E1, apply_ops_app.
  split; [done|]. split; [|by apply Forall_app].
  apply Forall_app. split.
  - eapply Forall_impl; [exact K1|]. intros op Hop. cbn [omap list_omap].
    rewrite <- Hop. by left.
  - eapply Forall_impl; [exact K2|]. intros op Hop. cbn [omap list_omap].
    destruct (call_key c); [by right|done].
Qed.

Lemma env_events_ops h es w :
  ∃ ops,
    store (exec (env_events h es) w) = apply_ops ops (store w) ∧
    Forall (λ op, op_key op ∈ omap env_key es) ops ∧
    Forall op_pushes_tool_id ops.
Proof.
  revert w. induction es as [|e es IH]; intros w; [by exists []|].
  rewrite exec_env_events_cons.
  destruct (env_event_ops h e w) as (ops1 & E1 & K1 & T1).
  destruct (IH (exec (env_event h e) w)) as (ops2 & E2 & K2 & T2).
  exists (ops1 ++ ops2). rewrite E2, E1, apply_ops_app.
  split; [done|]. split; [|by apply Forall_app].
  apply Forall_app. split.
  - eapply Forall_impl; [exact K1|]. intros op Hop. cbn [omap list_omap].
    rewrite <- Hop. by left.
  - eapply Forall_impl; [exact K2|]. intros op Hop. cbn [omap list_omap].
    destruct (env_key e); [by right|done].
Qed.

Lemma start_run_ops input sk peer w :
  ∃ ops,
    store (exec (start_run input sk peer) w)
      = setWriter_without_id sk (run_handle w) (apply_ops ops (store w)) ∧
    Forall (λ op, op_key op = sk) ops ∧
    Forall op_pushes_tool_id ops.
Proof.
  unfold exec, start_run, or_else, run_handle.
  destruct (truthy_opt (input_threadId input)), (truthy_opt (input_runId input));
    run; rewrite new_run_returns; run.
  all: destruct (Nat.eqb (length (input_tools input)) 0); cbn [negb]; run.
  all: cbn [snd store set_store].
  all: first
    [ by exists []
    | by eexists [OpStashTools sk _; OpMarkClientToolNames sk _];
         repeat split; repeat constructor ].
Qed.

(** the end of a run, step by step *)
Lemma exec_dispatch_and_close h script result w :
  exec (dispatch_and_close h script result) w =
  exec (cleanup (sessionKey (runs w h)))
    (match result with
     | Resolves => exec (close_after_dispatch h) (exec (host_calls h script) w)
     | Rejects err => exec (on_dispatch_error h err) (exec (host_calls h script) w)
     end).
Proof.
  unfold exec at 1. unfold dispatch_and_close. rewrite bind_apply, gets_returns.
  cbv beta iota. unfold try_finally, try_catch, dispatchReplyFromConfig.
  rewrite !bind_apply, host_calls_returns.
  destruct result as [|err].
  - rewrite mret_returns, close_after_dispatch_returns.
    set (W := exec (close_after_dispatch h) _). unfold exec.
    by destruct (cleanup _ W) as [[[]|e] s''].
  - unfold throw. rewrite on_dispatch_error_returns.
    set (W := exec (on_dispatch_error h err) _). unfold exec.
    by destruct (cleanup _ W) as [[[]|e] s''].
Qed.

Lemma dispatch_and_close_ops h script result w :
  ∃ ops,
    store (exec (dispatch_and_close h script result) w) = apply_ops ops (store w) ∧
    Forall (λ op, op_key op ∈ sessionKey (runs w h) :: omap call_key script) ops ∧
    Forall op_pushes_tool_id ops.
Proof.
  rewrite exec_dispatch_and_close.
  destruct (host_calls_ops h script w) as (ops & E & K & T).
  set (k := sessionKey (runs w h)).
  exists (ops ++ [OpClearWriter k; OpClearClientToolCalled k; OpClearClientToolNames k]).
  split; [|split].
  - unfold exec at 1. rewrite cleanup_returns. cbn [snd store set_store].
    rewrite apply_ops_app, <- E. cbn.
    destruct result as [|err].
    + by destruct (dispatcher_frame h (exec (host_calls h script) w) None EmptyString)
        as (_ & _ & _ & (-> & _) & _).
    + by destruct (dispatcher_frame h (exec (host_calls h script) w) None err)
        as (_ & _ & _ & _ & (-> & _)).
  - apply Forall_app. split.
    + eapply Forall_impl; [exact K|]. intros op Hop. by right.
    + repeat constructor.
  - apply Forall_app. split; [done|]. by repeat constructor.
Qed.

Lemma during_dispatch_ops input sk peer pre cs w :
  ∃ before after,
    store (during_dispatch input sk peer pre cs w)
      = run_store sk (run_handle w) before after (store w) ∧
    Forall (λ op, op_key op ∈ sk :: touched_keys pre cs) (before ++ after) ∧
    Forall op_pushes_tool_id (before ++ after).
Proof.
  assert (E : during_dispatch input sk peer pre cs w
              = exec (host_calls (run_handle w) cs)
                  (exec (env_events (run_handle w) pre)
                     (exec (start_run input sk peer) w))).
  { unfold during_dispatch. unfold exec at 1 4. rewrite bind_apply.
    destruct (start_run_returns input sk peer w) as (tid & rid & mid & w1 & -> & _).
    cbn [snd]. unfold exec at 1. by rewrite bind_apply, env_events_returns. }
  rewrite E.
  destruct (start_run_ops input sk peer w) as (ops0 & E0 & K0 & T0).
  destruct (env_events_ops (run_handle w) pre (exec (start_run input sk peer) w))
    as (ops1 & E1 & K1 & T1).
  destruct (host_calls_ops (run_handle w) cs
              (exec (env_events (run_handle w) pre) (exec (start_run input sk peer) w)))
    as (ops2 & E2 & K2 & T2).
  exists ops0, (ops1 ++ ops2). unfold run_store. rewrite E2, E1, E0, !apply_ops_app.
  split; [done|]. split; [|by repeat (apply Forall_app; split)].
  unfold touched_keys. repeat (apply Forall_app; split).
  - eapply Forall_impl; [exact K0|]. intros op ->. by left.
  - eapply Forall_impl; [exact K1|]. intros op Hop. right. apply elem_of_app. by left.
  - eapply Forall_impl; [exact K2|]. intros op Hop. right. apply elem_of_app. by right.
Qed.

(** the store after a run, as operations of the store on the store before *)
Lemma run_ops input sk peer pre script result w :
  ∃ before after,
    store (exec (handleAguiRequest input sk peer pre script result) w)
      = run_store sk (run_handle w) before after (store w) ∧
    Forall (λ op, op_key op ∈ sk :: touched_keys pre script) (before ++ after) ∧
    Forall op_pushes_tool_id (before ++ after).
Proof.
  assert (E : exec (handleAguiRequest input sk peer pre script result) w
              = exec (dispatch_and_close (run_handle w) script result)
                  (during_dispatch input sk peer pre [] w)).
  { unfold exec at 1 2.
    change script with ([] ++ script) at 1.
    by rewrite (handler_from_point input sk peer pre [] script result w). }
  rewrite E.
  destruct (during_dispatch_ops input sk peer pre [] w) as (ops0 & ops1 & E1 & K1 & T1).
  destruct (dispatch_and_close_ops (run_handle w) script result
              (during_dispatch input sk peer pre [] w)) as (ops2 & E2 & K2 & T2).
  rewrite sessionKey_during_dispatch in K2.
  exists ops0, (ops1 ++ ops2). rewrite E2, E1. unfold run_store. rewrite apply_ops_app.
  split; [done|]. rewrite !app_assoc. split; [|by apply Forall_app].
  unfold touched_keys in *. cbn [omap list_omap] in K1. rewrite app_nil_r in K1.
  apply Forall_app. split.
  - eapply Forall_impl; [exact K1|]. intros op Hop.
    apply elem_of_cons in Hop as [->|Hop]; [by left|].
    right. apply elem_of_app. by left.
  - eapply Forall_impl; [exact K2|]. intros op Hop.
    apply elem_of_cons in Hop as [->|Hop]; [by left|].
    right. apply elem_of_app. by right.
Qed.

Lemma session_view_run_store sk h before after st sk' :
  sk' ≠ sk → Forall (λ op, sk' ≠ op_key op) (before ++ after) →
  session_view sk' (run_store sk h before after st) = session_view sk' st.
Proof.
  intros Hne [Hb Ha]%Forall_app. unfold run_store.
  rewrite store_op_touches_one_session_aux by done.
  rewrite <- (store_op_touches_one_session_aux before sk' st) by done.
  unfold session_view, setWriter_without_id. cbn.
  by rewrite lookup_insert_ne, lookup_delete_ne by done.
Qed.

(** X8: a run, with all the hooks and factory calls that fire during it,
    changes the store only through the store's own operations, addressed to
    the run's session key or to a key one of those calls carries: for every
    other session key the store holds after the run what it held before. *)
Theorem run_touches_its_sessions (input : RunAgentInput) (sk : string)
    (peer : nat → bool) (pre : list EnvEvent) (script : list HostCall)
    (result : DispatchResult) (w : World) (sk' : string) :
  sk' ∉ sk :: touched_keys pre script →
  session_view sk' (store (exec (handleAguiRequest input sk peer pre script result) w))
  = session_view sk' (store w).
Proof.
  intros Hsk'.
  destruct (run_ops input sk peer pre script result w) as (before & after & -> & K & _).
  apply session_view_run_store.
  - intros ->. apply Hsk'. by left.
  - eapply Forall_impl; [exact K|]. intros op Hop ->. done.
Qed.

Lemma run_touches_its_sessions_witness :
  ("other" ∉ "agui:test-session"
     :: touched_keys [] [Env (BeforeToolCall "search_db" None (Some "agui:test-session"));
                         SendFinalReply (Some "done")]) ∧
  session_view "other" (store leaky_run) = session_view "other" (store (initial_world uuids)).
Proof.
  assert (H : "other" ∉ "agui:test-session"
     :: touched_keys [] [Env (BeforeToolCall "search_db" None (Some "agui:test-session"));
                         SendFinalReply (Some "done")]).
  { intros Hin%list_elem_of_In. cbn in Hin.
    destruct Hin as [Hin|[Hin|Hin]]; [discriminate|discriminate|destruct Hin]. }
  split; [exact H|].
  exact (run_touches_its_sessions weather_input "agui:test-session" stays []
           [Env (BeforeToolCall "search_db" None (Some "agui:test-session"));
            SendFinalReply (Some "done")] Resolves (initial_world uuids) "other" H).
Defined.

Lemma pending_other_op op sk' st :
  sk' ≠ op_key op → pending sk' (apply_op op st) = pending sk' st.
Proof.
  intros Hne. pose proof (session_view_other_op op sk' st Hne) as E.
  unfold session_view in E. injection E as _ _ _ E _ _ _. unfold pending. by rewrite E.
Qed.

Lemma tool_ids_op op st :
  op_pushes_tool_id op → stacks_hold_tool_ids st → stacks_hold_tool_ids (apply_op op st).
Proof.
  intros Hop H sk' id Hin.
  destruct (decide (sk' = op_key op)) as [->|Hne].
  2:{ rewrite pending_other_op in Hin by done. by apply (H sk'). }
  destruct op as [sk tools|sk|sk writer mid|sk|sk id0|sk|sk names|sk|sk|sk|sk];
    cbn [apply_op op_key] in *; try by apply (H sk).
  - rewrite pending_push in Hin. apply elem_of_app in Hin as [Hin|Hin].
    + by apply (H sk).
    + apply list_elem_of_singleton in Hin as ->. exact Hop.
  - rewrite popToolCallId_pending in Hin. apply (H sk).
    destruct (pending sk st) as [|x l _] using rev_ind; [done|].
    rewrite removelast_last in Hin. apply elem_of_app. by left.
Qed.

Lemma stacks_ok_ops ops st :
  Forall op_pushes_tool_id ops → stacks_ok st → stacks_ok (apply_ops ops st).
Proof.
  unfold apply_ops. revert st. induction ops as [|op ops IH]; intros st Hall Hok; [done|].
  apply Forall_cons in Hall as [Hop Hall]. destruct Hok as (H1 & H3).
  cbn. apply IH; [done|].
  split; [by apply no_empty_stack_op|by apply tool_ids_op].
Qed.

Lemma stacks_ok_run_store sk h before after st :
  Forall op_pushes_tool_id (before ++ after) → stacks_ok st →
  stacks_ok (run_store sk h before after st).
Proof.
  intros [Hb Ha]%Forall_app Hok. unfold run_store.
  apply stacks_ok_ops; [done|].
  apply (stacks_ok_ops before) in Hok; [|done]. exact Hok.
Qed.

Lemma tool_id_truthy uuid : truthy ("tool-" +:+ uuid) = true.
Proof. reflexivity. Qed.

(** X9: from a store in which no pending stack is an empty array and every
    pending id is "tool-" and a UUID, both hold again wherever the host makes
    a call during a run and after the run.  So there the id the after-result
    hook pops is never the empty string. *)
Theorem run_keeps_stacks_ok (input : RunAgentInput) (sk : string)
    (peer : nat → bool) (pre : list EnvEvent) (cs script : list HostCall)
    (result : DispatchResult) (w : World) :
  stacks_ok (store w) →
  stacks_ok (store (during_dispatch input sk peer pre cs w)) ∧
  stacks_ok (store (exec (handleAguiRequest input sk peer pre script result) w)) ∧
  (∀ sk' id, last (pending sk' (store (during_dispatch input sk peer pre cs w))) = Some id →
             truthy id = true).
Proof.
  intros Hok.
  destruct (during_dispatch_ops input sk peer pre cs w) as (b1 & a1 & E1 & _ & T1).
  destruct (run_ops input sk peer pre script result w) as (b2 & a2 & E2 & _ & T2).
  assert (H1 : stacks_ok (store (during_dispatch input sk peer pre cs w)))
    by (rewrite E1; by apply stacks_ok_run_store).
  split; [exact H1|]. split; [rewrite E2; by apply stacks_ok_run_store|].
  destruct H1 as (_ & Hids).
  intros sk' id Hlast.
  destruct (Hids sk' id) as [uuid ->]; [|apply tool_id_truthy].
  destruct (pending sk' _) as [|x l _] using rev_ind; [done|].
  rewrite last_snoc in Hlast. injection Hlast as ->.
  apply elem_of_app. right. by apply list_elem_of_singleton.
Qed.

Lemma empty_stacks_ok : stacks_ok empty_store.
Proof.
  split; [intros sk; cbn; by rewrite lookup_empty|].
  intros sk id. unfold pending. cbn. rewrite lookup_empty. cbn. by intros ?%elem_of_nil.
Qed.

Lemma run_keeps_stacks_ok_witness :
  stacks_ok (store (initial_world uuids)) ∧
  stacks_ok (store leaky_run) ∧
  pending "agui:test-session" (store leaky_run) = ["tool-1"].
Proof.
  assert (H : stacks_ok (store (initial_world uuids))) by exact empty_stacks_ok.
  split; [exact H|].
  split; [|vm_compute; reflexivity].
  exact (proj1 (proj2 (run_keeps_stacks_ok weather_input "agui:test-session" stays [] []
           [Env (BeforeToolCall "search_db" None (Some "agui:test-session"));
            SendFinalReply (Some "done")] Resolves (initial_world uuids) H))).
Defined.

(** * The hooks in sequence *)

Lemma emitted_with_run_wrote h e w :
  emitted (runs (with_run h (wrote e) w) h) = emitted (runs w h) ++ [e].
Proof. by rewrite with_run_same, wrote_emitted. Qed.

(** the world after the before-call hook has passed its guards *)
Lemma before_hook_world sk writer toolName params w :
  truthy sk = true → getWriter sk (store w) = Some writer →
  let w' := exec (handleBeforeToolCall toolName params (Some sk)) w in
  let id := tool_call_id (uuid_src w) (uuid_next w) in
  uuid_next w' = S (uuid_next w) ∧ uuid_src w' = uuid_src w ∧
  next_run w' = next_run w ∧
  (∀ h', h' ≠ writer → runs w' h' = runs w h') ∧
  emitted (runs w' writer) =
    emitted (runs w writer) ++ TOOL_CALL_START id toolName :: args_events id params
      ++ (if isClientTool sk toolName (store w) then [TOOL_CALL_END id] else []) ∧
  store w' =
    (if isClientTool sk toolName (store w)
     then setClientToolCalled sk (setToolFiredInRun sk (store w))
     else pushToolCallId sk id (setToolFiredInRun sk (store w))).
Proof.
  intros Ht Hw w' id. subst w'. unfold exec.
  rewrite (handleBeforeToolCall_returns w sk writer toolName params Ht Hw).
  cbn [snd]. cbv zeta. fold id. unfold args_events.
  destruct (has_params params), (isClientTool sk toolName (store w)).
  all: repeat split.
  all: try (intros h' Hh').
  all: repeat first [ progress cbn [store runs next_run uuid_src uuid_next set_store set_uuid_next]
                    | rewrite with_run_uuid_next | rewrite with_run_uuid_src
                    | rewrite with_run_next_run | rewrite with_run_other by done
                    | rewrite emitted_with_run_wrote ].
  all: rewrite <- ?app_assoc; try done.
Qed.

(** the world after the after-result hook has passed its guard *)
Lemma after_hook_world sk w :
  truthy sk = true →
  let w' := exec (handleToolResultPersist (Some sk)) w in
  uuid_next w' = uuid_next w ∧ uuid_src w' = uuid_src w ∧
  next_run w' = next_run w ∧
  store w' = (popToolCallId sk (store w)).2 ∧
  match getWriter sk (store w), last (pending sk (store w)), getMessageId sk (store w) with
  | Some writer, Some id, Some mid =>
      if truthy id && truthy mid
      then emitted (runs w' writer) =
             emitted (runs w writer) ++ [TOOL_CALL_RESULT id mid ""; TOOL_CALL_END id] ∧
           ∀ h', h' ≠ writer → runs w' h' = runs w h'
      else runs w' = runs w
  | _, _, _ => runs w' = runs w
  end.
Proof.
  intros Ht w'. subst w'. unfold exec.
  rewrite (handleToolResultPersist_returns w sk Ht). cbn [snd]. cbv zeta.
  destruct (getWriter sk (store w)) as [writer|],
    (last (pending sk (store w))) as [id|],
    (getMessageId sk (store w)) as [mid|]; try done.
  destruct (truthy id && truthy mid); [|done].
  repeat split.
  all: try (intros h' Hh').
  all: repeat first [ progress cbn [store runs next_run uuid_src uuid_next set_store set_uuid_next]
                    | rewrite with_run_uuid_next | rewrite with_run_uuid_src
                    | rewrite with_run_next_run | rewrite with_run_other by done
                    | rewrite with_run_store
                    | rewrite emitted_with_run_wrote ].
  all: rewrite <- ?app_assoc; try done.
Qed.

(** X10: the before-call hook leaves everything as it was (no event, no
    change of the store, no UUID drawn) exactly when the session key is
    absent or empty or no writer is bound for the session; otherwise it
    draws exactly one UUID.  The after-result hook called without a session
    key, or with an empty one, leaves everything as it was. *)
Theorem hook_guards (toolName : string) (params : option (list (string * JSValue)))
    (sessionKey : option string) (w : World) :
  let acts := ∃ sk writer, sessionKey = Some sk ∧ truthy sk = true ∧
                           getWriter sk (store w) = Some writer in
  (exec (handleBeforeToolCall toolName params sessionKey) w = w ↔ ¬ acts) ∧
  (acts → uuid_next (exec (handleBeforeToolCall toolName params sessionKey) w)
          = S (uuid_next w)) ∧
  (truthy_opt sessionKey = false → exec (handleToolResultPersist sessionKey) w = w).
Proof.
  intros acts.
  assert (Hacts : acts → uuid_next (exec (handleBeforeToolCall toolName params sessionKey) w)
                         = S (uuid_next w)).
  { intros (sk & writer & -> & Ht & Hw).
    by destruct (before_hook_world sk writer toolName params w Ht Hw) as (H & _). }
  split; [|split; [exact Hacts|]].
  - split.
    + intros Heq Ha. apply Hacts in Ha. rewrite Heq in Ha. lia.
    + intros Hn. destruct sessionKey as [sk|]; [|done].
      unfold exec, handleBeforeToolCall.
      destruct (truthy sk) eqn:Ht; [|done]. cbn [negb]. run.
      destruct (getWriter sk (store w)) as [writer|] eqn:Hw; [|done].
      destruct Hn. by exists sk, writer.
  - intros Hf. destruct sessionKey as [sk|]; [|done].
    unfold exec, handleToolResultPersist. cbn in Hf. by rewrite Hf.
Qed.

Lemma exec_env_events_app h es1 es2 w :
  exec (env_events h (es1 ++ es2)) w = exec (env_events h es2) (exec (env_events h es1) w).
Proof.
  revert w. induction es1 as [|e es1 IH]; intros w; [done|].
  cbn [app]. by rewrite !exec_env_events_cons, IH.
Qed.

Lemma hooks_keep_bindings sk st :
  let st1 := setToolFiredInRun sk st in
  (∀ id, getWriter sk (pushToolCallId sk id st1) = getWriter sk st ∧
         getMessageId sk (pushToolCallId sk id st1) = getMessageId sk st ∧
         ∀ name, isClientTool sk name (pushToolCallId sk id st1) = isClientTool sk name st) ∧
  (getWriter sk (setClientToolCalled sk st1) = getWriter sk st ∧
   getMessageId sk (setClientToolCalled sk st1) = getMessageId sk st ∧
   pending sk (setClientToolCalled sk st1) = pending sk st ∧
   ∀ name, isClientTool sk name (setClientToolCalled sk st1) = isClientTool sk name st) ∧
  (getWriter sk (popToolCallId sk st).2 = getWriter sk st ∧
   getMessageId sk (popToolCallId sk st).2 = getMessageId sk st ∧
   ∀ name, isClientTool sk name (popToolCallId sk st).2 = isClientTool sk name st) ∧
  pending sk st1 = pending sk st.
Proof.
  cbv zeta. split; [|split; [|split]]; try done.
  unfold popToolCallId. destruct (pendingStacks st !! sk); [|done].
  by destruct (Nat.eqb _ 0).
Qed.

(** the hook calls of a balanced sequence pair up *)
Lemma balanced_hooks_nest h sk writer mid is_client es :
  truthy sk = true → truthy mid = true → balanced is_client sk es →
  ∀ w,
    getWriter sk (store w) = Some writer →
    getMessageId sk (store w) = Some mid →
    (∀ name, isClientTool sk name (store w) = is_client name) →
    let w' := exec (env_events h es) w in
    (getWriter sk (store w') = Some writer ∧
     getMessageId sk (store w') = Some mid ∧
     (∀ name, isClientTool sk name (store w') = is_client name) ∧
     uuid_src w' = uuid_src w) ∧
    pending sk (store w') = pending sk (store w) ∧
    (∀ h', h' ≠ writer → runs w' h' = runs w h') ∧
    ∃ l, emitted (runs w' writer) = emitted (runs w writer) ++ l ∧
         nested (uuid_src w) mid (uuid_next w) l (uuid_next w').
Proof.
  intros Ht Hmid Hbal.
  induction Hbal as [|toolName params inner rest Hcl _ IHinner _ IHrest
                     |toolName params rest Hcl _ IHrest]; intros w Hw Hm Hc w'.
  - subst w'. cbn. repeat split; try done. exists []. rewrite app_nil_r. split; [done|].
    constructor.
  - subst w'. rewrite exec_env_events_cons, exec_env_events_app, exec_env_events_cons.
    cbn [env_event].
    destruct (before_hook_world sk writer toolName params w Ht Hw)
      as (Hn1 & Hs1 & _ & Ho1 & He1 & Hst1).
    rewrite Hc, Hcl in He1, Hst1.
    set (w1 := exec (handleBeforeToolCall toolName params (Some sk)) w) in *.
    set (id := tool_call_id (uuid_src w) (uuid_next w)) in *.
    destruct (hooks_keep_bindings sk (store w)) as (Hpush & _ & _ & Hfired).
    destruct (Hpush id) as (Hw1 & Hm1 & Hc1). rewrite <- Hst1 in Hw1, Hm1, Hc1.
    assert (Hp1 : pending sk (store w1) = pending sk (store w) ++ [id])
      by (by rewrite Hst1, pending_push, Hfired).
    destruct (IHinner w1) as ((Hw2 & Hm2 & Hc2 & Hs2) & Hp2 & Ho2 & l2 & He2 & Hn2).
    { by rewrite Hw1. } { by rewrite Hm1. } { intros name. by rewrite Hc1. }
    set (w2 := exec (env_events h inner) w1) in *.
    destruct (after_hook_world sk w2 Ht) as (Hn3 & Hs3 & _ & Hst3 & He3).
    rewrite Hw2, Hm2, Hp2, Hp1, last_snoc in He3.
    replace (truthy id) with true in He3 by done. rewrite Hmid in He3. cbn [andb] in He3.
    destruct He3 as [He3 Ho3].
    set (w3 := exec (handleToolResultPersist (Some sk)) w2) in *.
    destruct (hooks_keep_bindings sk (store w2)) as (_ & _ & (Hw3 & Hm3 & Hc3) & _).
    rewrite <- Hst3 in Hw3, Hm3, Hc3.
    assert (Hp3 : pending sk (store w3) = pending sk (store w)).
    { rewrite Hst3, popToolCallId_pending, Hp2, Hp1. by rewrite removelast_last. }
    destruct (IHrest w3) as ((Hw4 & Hm4 & Hc4 & Hs4) & Hp4 & Ho4 & l4 & He4 & Hn4).
    { by rewrite Hw3. } { by rewrite Hm3. } { intros name. by rewrite Hc3. }
    split; [repeat split; try done; congruence|].
    split; [congruence|].
    split; [intros h' Hh'; by rewrite Ho4, Ho3, Ho2, Ho1|].
    exists (TOOL_CALL_START id toolName :: args_events id params ++ l2
              ++ [TOOL_CALL_RESULT id mid ""; TOOL_CALL_END id] ++ l4).
    split.
    + rewrite He4, He3, He2, He1, app_nil_r. by rewrite <- !app_assoc.
    + apply nested_host with (k1 := uuid_next w2).
      * rewrite <- Hn1. by rewrite <- Hs1.
      * rewrite <- Hn3. by rewrite <- Hs1, <- Hs2, <- Hs3.
  - subst w'. rewrite exec_env_events_cons. cbn [env_event].
    destruct (before_hook_world sk writer toolName params w Ht Hw)
      as (Hn1 & Hs1 & _ & Ho1 & He1 & Hst1).
    rewrite Hc, Hcl in He1, Hst1.
    set (w1 := exec (handleBeforeToolCall toolName params (Some sk)) w) in *.
    set (id := tool_call_id (uuid_src w) (uuid_next w)) in *.
    destruct (hooks_keep_bindings sk (store w)) as (_ & (Hw1 & Hm1 & Hp1 & Hc1) & _ & _).
    rewrite <- Hst1 in Hw1, Hm1, Hp1, Hc1.
    destruct (IHrest w1) as ((Hw4 & Hm4 & Hc4 & Hs4) & Hp4 & Ho4 & l4 & He4 & Hn4).
    { by rewrite Hw1. } { by rewrite Hm1. } { intros name. by rewrite Hc1. }
    split; [repeat split; try done; congruence|].
    split; [congruence|].
    split; [intros h' Hh'; by rewrite Ho4, Ho1|].
    exists (TOOL_CALL_START id toolName :: args_events id params
              ++ [TOOL_CALL_END id] ++ l4).
    split.
    + rewrite He4, He1. rewrite <- !app_assoc. f_equal. cbn [app]. f_equal.
      by rewrite <- !app_assoc.
    + apply nested_client. rewrite <- Hn1. by rewrite <- Hs1.
Qed.

(** X11: for a session with a writer and a message id, hook calls in which
    every call of a host-executed tool is followed, after the calls nested in
    it, by its after-result hook hand the writer tool-call events that nest
    the same way: each "tool call result" and "tool call ended" carries the id
    of the "tool call started" it belongs to (last started, first resolved),
    the ids are made of successive UUIDs, the session's pending stack is in
    the end what it was, and no other run is touched. *)
Theorem hook_calls_pair_up (h : nat) (sk : string) (writer : nat) (mid : string)
    (is_client : string → bool) (es : list EnvEvent) (w : World) :
  truthy sk = true → truthy mid = true →
  getWriter sk (store w) = Some writer →
  getMessageId sk (store w) = Some mid →
  (∀ name, isClientTool sk name (store w) = is_client name) →
  balanced is_client sk es →
  let w' := exec (env_events h es) w in
  pending sk (store w') = pending sk (store w) ∧
  (∀ h', h' ≠ writer → runs w' h' = runs w h') ∧
  ∃ l, emitted (runs w' writer) = emitted (runs w writer) ++ l ∧
       nested (uuid_src w) mid (uuid_next w) l (uuid_next w').
Proof.
  intros Ht Hmid Hw Hm Hc Hbal.
  by destruct (balanced_hooks_nest h sk writer mid is_client es Ht Hmid Hbal w Hw Hm Hc)
    as (_ & H).
Qed.

Lemma hook_calls_pair_up_witness :
  let es := [BeforeToolCall "search_db" None (Some "s");
             BeforeToolCall "read_file" (Some [("path", JStr "a.txt")]) (Some "s");
             ToolResultPersist (Some "s");
             BeforeToolCall "get_weather" None (Some "s");
             ToolResultPersist (Some "s")] in
  balanced (λ name, isClientTool "s" name (store weather_world)) "s" es ∧
  pending "s" (store (exec (env_events 0 es) weather_world)) = [] ∧
  emitted (runs (exec (env_events 0 es) weather_world) 0) =
    [TOOL_CALL_START "tool-0" "search_db";
     TOOL_CALL_START "tool-1" "read_file";
     TOOL_CALL_ARGS "tool-1" (JSON_stringify (JObj [("path", JStr "a.txt")]));
     TOOL_CALL_RESULT "tool-1" "msg-001" ""; TOOL_CALL_END "tool-1";
     TOOL_CALL_START "tool-2" "get_weather"; TOOL_CALL_END "tool-2";
     TOOL_CALL_RESULT "tool-0" "msg-001" ""; TOOL_CALL_END "tool-0"].
Proof.
  intros es.
  assert (Hbal : balanced (λ name, isClientTool "s" name (store weather_world)) "s" es).
  { apply (balanced_host _ _ "search_db" None
             [BeforeToolCall "read_file" (Some [("path", JStr "a.txt")]) (Some "s");
              ToolResultPersist (Some "s");
              BeforeToolCall "get_weather" None (Some "s")] []);
      [reflexivity| |constructor].
    apply (balanced_host _ _ "read_file" _ [] [BeforeToolCall "get_weather" None (Some "s")]);
      [reflexivity|constructor|].
    apply balanced_client; [reflexivity|constructor]. }
  split; [exact Hbal|].
  destruct (hook_calls_pair_up 0 "s" 0 "msg-001"
              (λ name, isClientTool "s" name (store weather_world)) es weather_world
              eq_refl eq_refl eq_refl eq_refl (λ _, eq_refl) Hbal) as (Hp & _).
  split; [exact Hp|]. vm_compute. reflexivity.
Defined.

(** * What reaches the response *)

Lemma written_as_handed_wrote e r : written_as_handed r → written_as_handed (wrote e r).
Proof.
  unfold written_as_handed. intros [Hp Ho].
  destruct (wrote_cases e r) as [Hc|Hc Hg|Hc Hg]; cbn.
  - split; [by apply prefix_app_r|]. by rewrite Hc.
  - split; [by apply prefix_app_r|done].
  - rewrite (Ho Hc). by split.
Qed.

Lemma written_as_handed_finish t r :
  written_as_handed r → written_as_handed (set_ended true (set_closed true (wrote t r))).
Proof.
  intros H. apply (written_as_handed_wrote t) in H. destruct H as [Hp _].
  split; [exact Hp|]. cbn. done.
Qed.

Lemma written_as_handed_kept input sk peer pre cs script result w :
  written_as_handed (runs (during_dispatch input sk peer pre cs w) (run_handle w)) ∧
  written_as_handed
    (runs (exec (handleAguiRequest input sk peer pre script result) w) (run_handle w)).
Proof.
  assert (Hstart : ∀ tid rid mid,
            written_as_handed (wrote (RUN_STARTED tid rid) (fresh_run tid rid mid sk peer))).
  { intros. apply written_as_handed_wrote. split; [done|]. done. }
  split.
  - apply (during_dispatch_keeps (run_handle w) written_as_handed)
      with (term_ok := λ _, true) (closes := true); try done.
    + intros r e _. apply written_as_handed_wrote.
    + intros r mid role H _. by apply written_as_handed_wrote.
    + intros r mid delta H _. by apply written_as_handed_wrote.
    + intros r mid H _. by apply written_as_handed_wrote.
    + intros r t _ _. apply written_as_handed_finish.
    + intros _ r [Hp _]. split; [exact Hp|]. done.
  - apply (handler_keeps (run_handle w) written_as_handed)
      with (term_ok := λ _, true) (closes := true); try done.
    + intros r e _. apply written_as_handed_wrote.
    + intros r mid role H _. by apply written_as_handed_wrote.
    + intros r mid delta H _. by apply written_as_handed_wrote.
    + intros r mid H _. by apply written_as_handed_wrote.
    + intros r t _ _. apply written_as_handed_finish.
    + intros _ r [Hp _]. split; [exact Hp|]. done.
Qed.

(** X12: at every point of a run's dispatch and after the run, the events
    written to the run's response are the first of the events handed to its
    writer, in the same order, and all of them while the run is open: the
    writer drops events only from the first failed write or the close of the
    request on, never one in between. *)
Theorem output_is_what_was_handed (input : RunAgentInput) (sk : string)
    (peer : nat → bool) (pre : list EnvEvent) (cs script : list HostCall)
    (result : DispatchResult) (w : World) :
  let h := run_handle w in
  let w1 := during_dispatch input sk peer pre cs w in
  let w' := exec (handleAguiRequest input sk peer pre script result) w in
  output h w1 `prefix_of` emitted (runs w1 h) ∧
  (closed (runs w1 h) = false → output h w1 = emitted (runs w1 h)) ∧
  output h w' `prefix_of` emitted (runs w' h).
Proof.
  intros h w1 w'.
  destruct (written_as_handed_kept input sk peer pre cs script result w)
    as ([H1 H2] & [H3 _]).
  done.
Qed.

Lemma ended_on_terminal_wrote e r :
  is_terminal e = false → ended_on_terminal r → ended_on_terminal (wrote e r).
Proof.
  unfold ended_on_terminal. intros He [Hi Hc].
  rewrite wrote_ended, wrote_emitted, existsb_snoc, He, orb_false_r.
  split; [done|]. intros H. by apply wrote_stays_closed, Hc.
Qed.

Lemma ended_on_terminal_kept input sk peer pre script result w :
  ended_on_terminal
    (runs (exec (handleAguiRequest input sk peer pre script result) w) (run_handle w)).
Proof.
  apply (handler_keeps (run_handle w) ended_on_terminal)
    with (term_ok := λ _, true) (closes := true); try done.
  - intros r e He. apply ended_on_terminal_wrote. by destruct e.
  - intros r mid role H _. by apply (ended_on_terminal_wrote _ (set_messageStarted true r)).
  - intros r mid delta H _. by apply ended_on_terminal_wrote.
  - intros r mid H _. by apply ended_on_terminal_wrote.
  - intros r t Ht _ _. unfold ended_on_terminal. cbn.
    by rewrite wrote_emitted, existsb_snoc, Ht, orb_true_r.
  - intros _ r [Hi Hc]. split; [exact Hi|]. done.
  - intros tid rid mid. apply ended_on_terminal_wrote; [done|]. by split.
Qed.

(** * A run, step by step *)

Lemma during_dispatch_unfold input sk peer pre cs w :
  during_dispatch input sk peer pre cs w
  = exec (host_calls (run_handle w) cs)
      (exec (env_events (run_handle w) pre) (exec (start_run input sk peer) w)).
Proof.
  unfold during_dispatch. unfold exec at 1 4. rewrite bind_apply.
  destruct (start_run_returns input sk peer w) as (tid & rid & mid & w1 & -> & _).
  cbn [snd]. unfold exec at 1. by rewrite bind_apply, env_events_returns.
Qed.

Lemma handler_unfold input sk peer pre script result w :
  exec (handleAguiRequest input sk peer pre script result) w
  = exec (dispatch_and_close (run_handle w) script result)
      (exec (env_events (run_handle w) pre) (exec (start_run input sk peer) w)).
Proof.
  rewrite <- (during_dispatch_unfold input sk peer pre [] w) at 1.
  unfold exec at 1 2. change script with ([] ++ script) at 1.
  by rewrite (handler_from_point input sk peer pre [] script result w).
Qed.

(** A relation between worlds that every step of a run is in holds between
    the start of the run and its end. *)
Section RunSteps.
Variable h : nat.
Variable R : World → World → Prop.
Hypothesis R_refl : ∀ w, R w w.
Hypothesis R_trans : ∀ w1 w2 w3, R w1 w2 → R w2 w3 → R w1 w3.
Hypothesis R_env : ∀ e w, R w (exec (env_event h e) w).
Hypothesis R_block : ∀ text w, R w (exec (sendBlockReply h text) w).
Hypothesis R_final : ∀ text w, R w (exec (sendFinalReply h text) w).
Hypothesis R_close : ∀ w, R w (exec (close_after_dispatch h) w).
Hypothesis R_error : ∀ err w, R w (exec (on_dispatch_error h err) w).
Hypothesis R_cleanup : ∀ sk w, R w (exec (cleanup sk) w).

Lemma env_events_steps es w : R w (exec (env_events h es) w).
Proof.
  revert w. induction es as [|e es IH]; intros w; [apply R_refl|].
  rewrite exec_env_events_cons. eapply R_trans; [apply R_env|apply IH].
Qed.

Lemma host_call_steps c w : R w (exec (host_call h c) w).
Proof.
  destruct c as [e|text|text|text| |]; cbn [host_call]; rewrite ?exec_then_ret;
    auto using R_refl.
Qed.

Lemma host_calls_steps cs w : R w (exec (host_calls h cs) w).
Proof.
  revert w. induction cs as [|c cs IH]; intros w; [apply R_refl|].
  rewrite exec_host_calls_cons. eapply R_trans; [apply host_call_steps|apply IH].
Qed.

Lemma dispatch_and_close_steps script result w :
  R w (exec (dispatch_and_close h script result) w).
Proof.
  rewrite exec_dispatch_and_close.
  eapply R_trans; [apply host_calls_steps|].
  eapply R_trans; [|apply R_cleanup].
  destruct result; [apply R_close|apply R_error].
Qed.

Lemma rest_of_run_steps pre script result w :
  R w (exec (dispatch_and_close h script result) (exec (env_events h pre) w)).
Proof.
  eapply R_trans; [apply env_events_steps|apply dispatch_and_close_steps].
Qed.

Lemma calls_steps pre cs w :
  R w (exec (host_calls h cs) (exec (env_events h pre) w)).
Proof.
  eapply R_trans; [apply env_events_steps|apply host_calls_steps].
Qed.
End RunSteps.

(** * Where tool-call ids come from *)

Lemma start_ids_app l1 l2 : start_ids (l1 ++ l2) = start_ids l1 ++ start_ids l2.
Proof. apply omap_app. Qed.

Lemma start_ids_args id params : start_ids (args_events id params) = [].
Proof. unfold args_events. by destruct (has_params params). Qed.

Lemma start_ids_wrote e r :
  start_id e = None → start_ids (emitted (wrote e r)) = start_ids (emitted r).
Proof.
  intros He. rewrite wrote_emitted, start_ids_app. cbn. rewrite He. apply app_nil_r.
Qed.

Lemma no_tool_started_refl h w : no_tool_started h w w.
Proof. split; [apply only_run_changed_refl|done]. Qed.

Lemma no_tool_started_with_run h f w w0 :
  (∀ r, start_ids (emitted (f r)) = start_ids (emitted r)) →
  no_tool_started h w w0 → no_tool_started h w (with_run h f w0).
Proof.
  intros Hf [Ho Hs]. split; [by apply only_run_changed_with_run|].
  by rewrite with_run_same, Hf.
Qed.

(** the dispatcher hands its run no "tool call started" *)
Lemma dispatcher_starts_no_tool (h : nat) (w : World) (text : option string) (err : string) :
  no_tool_started h w (exec (sendBlockReply h text) w) ∧
  no_tool_started h w (exec (sendFinalReply h text) w) ∧
  no_tool_started h w (exec (close_after_dispatch h) w) ∧
  no_tool_started h w (exec (on_dispatch_error h err) w).
Proof.
  assert (Hw : ∀ w0 e, start_id e = None → no_tool_started h w w0 →
                 no_tool_started h w (with_run h (wrote e) w0)).
  { intros w0 e He. apply no_tool_started_with_run. intros r. by apply start_ids_wrote. }
  assert (Hstart : ∀ w0 mid role, no_tool_started h w w0 →
            wasClientToolCalled (sessionKey (runs w0 h)) (store w0) = false →
            messageStarted (runs w0 h) = false →
            no_tool_started h w
              (with_run h (wrote (TEXT_MESSAGE_START mid role))
                 (with_run h (set_messageStarted true) w0))).
  { intros w0 mid role H _ _. apply Hw; [done|]. by apply no_tool_started_with_run. }
  assert (Hcontent : ∀ w0 mid delta, no_tool_started h w w0 →
            wasClientToolCalled (sessionKey (runs w0 h)) (store w0) = false →
            messageStarted (runs w0 h) = true →
            no_tool_started h w (with_run h (wrote (TEXT_MESSAGE_CONTENT mid delta)) w0)).
  { intros w0 mid delta H _ _. by apply Hw. }
  assert (Hend : ∀ w0 mid, no_tool_started h w w0 → messageStarted (runs w0 h) = true →
            no_tool_started h w (with_run h (wrote (TEXT_MESSAGE_END mid)) w0)).
  { intros w0 mid H _. by apply Hw. }
  assert (Hfin : ∀ w0 t, is_terminal t = true → (λ _ : Event, true) t = true →
            no_tool_started h w w0 →
            no_tool_started h w
              (with_run h (set_ended true)
                 (with_run h (set_closed true) (with_run h (wrote t) w0)))).
  { intros w0 t Ht _ H. do 2 (apply no_tool_started_with_run; [done|]).
    apply Hw; [by destruct t|done]. }
  split; [|split; [|split]].
  - rewrite <- exec_then_ret.
    destruct (hoare_returns _ _ _ w
                (send_block_reply_keeps h (no_tool_started h w) Hstart Hcontent text)
                (no_tool_started_refl h w)) as ([] & _ & H).
    exact H.
  - rewrite <- exec_then_ret.
    destruct (hoare_returns _ _ _ w
                (send_final_reply_keeps h (no_tool_started h w) Hstart Hcontent Hend
                   (λ _, true) ltac:(done) Hfin text)
                (no_tool_started_refl h w)) as ([] & _ & H).
    exact H.
  - destruct (hoare_returns _ _ _ w
                (close_after_dispatch_keeps h (no_tool_started h w) Hend (λ _, true)
                   ltac:(done) Hfin)
                (no_tool_started_refl h w)) as ([] & _ & H & _).
    exact H.
  - destruct (hoare_returns _ _ _ w
                (on_dispatch_error_keeps h (no_tool_started h w) (λ _, true) Hfin err eq_refl)
                (no_tool_started_refl h w)) as ([] & _ & H & _).
    exact H.
Qed.

Lemma ids_step_refl w : ids_step w w.
Proof. by repeat split. Qed.

Lemma ids_step_trans w1 w2 w3 : ids_step w1 w2 → ids_step w2 w3 → ids_step w1 w3.
Proof.
  intros (S1 & N1 & I1) (S2 & N2 & I2). split; [congruence|]. split; [lia|]. auto.
Qed.

(** a step that draws UUIDs and hands no writer a "tool call started" *)
Lemma ids_step_quiet w w' :
  uuid_src w' = uuid_src w → uuid_next w ≤ uuid_next w' →
  (∀ h, start_ids (emitted (runs w' h)) = start_ids (emitted (runs w h))) →
  ids_step w w'.
Proof.
  intros Hs Hn He. split; [done|]. split; [done|].
  intros h (ks & E & Hnd & Hlt). exists ks. rewrite He, Hs.
  split; [done|]. split; [done|].
  eapply Forall_impl; [exact Hlt|]. intros k Hk. cbn in *. lia.
Qed.

Lemma ids_step_no_tool_started h w w' : no_tool_started h w w' → ids_step w w'.
Proof.
  intros ((_ & Hn & Hs & _ & Ho) & He). apply ids_step_quiet; [done|lia|].
  intros h'. destruct (decide (h' = h)) as [->|Hne]; [done|]. by rewrite Ho.
Qed.

Lemma ids_step_before_hook toolName params sk w :
  ids_step w (exec (handleBeforeToolCall toolName params sk) w).
Proof.
  destruct sk as [sk|]; [|apply ids_step_refl].
  destruct (truthy sk) eqn:Ht.
  2:{ unfold exec, handleBeforeToolCall. rewrite Ht. apply ids_step_refl. }
  destruct (getWriter sk (store w)) as [writer|] eqn:Hw.
  2:{ unfold exec, handleBeforeToolCall. rewrite Ht. cbn [negb]. run. rewrite Hw.
      apply ids_step_refl. }
  destruct (before_hook_world sk writer toolName params w Ht Hw)
    as (Hn & Hs & _ & Ho & He & _).
  split; [done|]. split; [lia|].
  intros h (ks & E & Hnd & Hlt).
  destruct (decide (h = writer)) as [->|Hne].
  - exists (ks ++ [uuid_next w]). rewrite He, Hs, Hn, !start_ids_app, E, fmap_app.
    cbn [start_ids omap list_omap start_id]. rewrite !start_ids_app, start_ids_args.
    split; [|split].
    + f_equal. cbn. by destruct (isClientTool sk toolName (store w)).
    + apply NoDup_app. split; [done|]. split; [|apply NoDup_singleton].
      intros k Hk ->%list_elem_of_singleton.
      rewrite Forall_forall in Hlt. specialize (Hlt _ Hk). cbn in Hlt. lia.
    + apply Forall_app. split; [|repeat constructor].
      eapply Forall_impl; [exact Hlt|]. intros k Hk. cbn in *. lia.
  - exists ks. rewrite Ho by done. rewrite Hs, Hn. split; [done|]. split; [done|].
    eapply Forall_impl; [exact Hlt|]. intros k Hk. cbn in *. lia.
Qed.

Lemma ids_step_after_hook sk w : ids_step w (exec (handleToolResultPersist sk) w).
Proof.
  destruct sk as [sk|]; [|apply ids_step_refl].
  destruct (truthy sk) eqn:Ht.
  2:{ unfold exec, handleToolResultPersist. rewrite Ht. apply ids_step_refl. }
  destruct (after_hook_world sk w Ht) as (Hn & Hs & _ & _ & He).
  apply ids_step_quiet; [done|lia|]. intros h.
  destruct (getWriter sk (store w)) as [writer|]; [|by rewrite He].
  destruct (last (pending sk (store w))) as [id|]; [|by rewrite He].
  destruct (getMessageId sk (store w)) as [mid|]; [|by rewrite He].
  destruct (truthy id && truthy mid); [|by rewrite He].
  destruct He as [He Ho].
  destruct (decide (h = writer)) as [->|Hne]; [|by rewrite Ho].
  rewrite He, start_ids_app. cbn. apply app_nil_r.
Qed.

Lemma ids_step_env_event h e w : ids_step w (exec (env_event h e) w).
Proof.
  destruct e as [toolName params sk|sk|sk|]; cbn [env_event].
  - apply ids_step_before_hook.
  - apply ids_step_after_hook.
  - rewrite exec_then_ret. unfold exec. rewrite in_store_returns. cbn [snd].
    by apply ids_step_quiet.
  - unfold exec. rewrite in_run_modify. cbn [snd].
    apply ids_step_quiet; [by rewrite with_run_uuid_src|by rewrite with_run_uuid_next|].
    intros h'. rewrite with_run_runs. by destruct (Nat.eqb h' h).
Qed.

(** every step of a run after its start keeps the ids as they should be *)
Lemma ids_step_rest_of_run h pre script result w :
  ids_step w (exec (dispatch_and_close h script result) (exec (env_events h pre) w)).
Proof.
  apply rest_of_run_steps.
  - apply ids_step_refl.
  - apply ids_step_trans.
  - apply ids_step_env_event.
  - intros text w0. eapply ids_step_no_tool_started.
    by destruct (dispatcher_starts_no_tool h w0 text EmptyString) as (H & _).
  - intros text w0. eapply ids_step_no_tool_started.
    by destruct (dispatcher_starts_no_tool h w0 text EmptyString) as (_ & H & _).
  - intros w0. eapply ids_step_no_tool_started.
    by destruct (dispatcher_starts_no_tool h w0 None EmptyString) as (_ & _ & H & _).
  - intros err w0. eapply ids_step_no_tool_started.
    by destruct (dispatcher_starts_no_tool h w0 None err) as (_ & _ & _ & H).
  - intros sk w0. unfold exec. rewrite cleanup_returns. cbn [snd].
    by apply ids_step_quiet.
Qed.

Lemma start_run_uuid_src input sk peer w :
  uuid_src (exec (start_run input sk peer) w) = uuid_src w.
Proof.
  unfold exec, start_run, or_else.
  destruct (truthy_opt (input_threadId input)), (truthy_opt (input_runId input));
    run; rewrite new_run_returns; run.
  all: destruct (Nat.eqb (length (input_tools input)) 0); cbn [negb]; run.
  all: reflexivity.
Qed.

Lemma ids_after_run input sk peer pre script result w :
  ids_from_source (exec (handleAguiRequest input sk peer pre script result) w)
    (run_handle w) ∧
  uuid_src (exec (handleAguiRequest input sk peer pre script result) w) = uuid_src w.
Proof.
  rewrite handler_unfold.
  destruct (ids_step_rest_of_run (run_handle w) pre script result
              (exec (start_run input sk peer) w)) as (Hs & _ & Hi).
  split; [|by rewrite Hs, start_run_uuid_src].
  apply Hi. exists []. split; [|split; constructor].
  unfold exec.
  destruct (start_run_returns input sk peer w) as (tid & rid & mid & w1 & -> & Hr & _).
  cbn [snd]. by rewrite Hr, wrote_emitted.
Qed.

(** X14: when the source of UUIDs never repeats itself, the "tool call
    started" events of a run's stream carry pairwise distinct tool-call ids,
    whatever hooks fire during the run and for whatever sessions; each id is
    "tool-" followed by a UUID that was drawn. *)
Theorem tool_call_ids_distinct (input : RunAgentInput) (sk : string)
    (peer : nat → bool) (pre : list EnvEvent) (script : list HostCall)
    (result : DispatchResult) (w : World) :
  (∀ i j, uuid_src w i = uuid_src w j → i = j) →
  let h := run_handle w in
  let w' := exec (handleAguiRequest input sk peer pre script result) w in
  NoDup (start_ids (emitted (runs w' h))) ∧
  NoDup (start_ids (output h w')) ∧
  ∀ id, id ∈ start_ids (emitted (runs w' h)) →
        ∃ k, k < uuid_next w' ∧ id = "tool-" +:+ uuid_src w k.
Proof.
  intros Hinj h w'.
  destruct (ids_after_run input sk peer pre script result w)
    as ((ks & E & Hnd & Hlt) & Hs).
  fold h w' in E, Hlt, Hs. rewrite Hs in E.
  assert (Hnd' : NoDup (start_ids (emitted (runs w' h)))).
  { rewrite E. apply NoDup_fmap_2_strong; [|done].
    intros i j _ _ Hij. unfold tool_call_id in Hij. cbn in Hij.
    injection Hij as Hij. by apply Hinj. }
  split; [exact Hnd'|]. split.
  - destruct (written_as_handed_kept input sk peer pre [] script result w)
      as (_ & [[l Hl] _]).
    fold h w' in Hl. unfold output. rewrite Hl, start_ids_app in Hnd'.
    by apply NoDup_app in Hnd' as (H & _).
  - intros id Hid. rewrite E in Hid. apply list_elem_of_fmap in Hid as (k & -> & Hk).
    exists k. split; [|done]. rewrite Forall_forall in Hlt. by apply Hlt.
Qed.

Lemma tool_call_ids_distinct_witness :
  (∀ i j, uuid_src (initial_world uuids) i = uuid_src (initial_world uuids) j → i = j) ∧
  NoDup (start_ids (output 0 leaky_run)).
Proof.
  assert (H : ∀ i j, uuid_src (initial_world uuids) i = uuid_src (initial_world uuids) j
                     → i = j).
  { intros i j Hij. cbn in Hij. unfold uuids in Hij. by apply (inj pretty) in Hij. }
  split; [exact H|].
  exact (proj1 (proj2 (tool_call_ids_distinct weather_input "agui:test-session" stays []
           [Env (BeforeToolCall "search_db" None (Some "agui:test-session"));
            SendFinalReply (Some "done")] Resolves (initial_world uuids) H))).
Defined.

(** * Block replies in sequence *)

Lemma truthy_reply_text text : truthy_opt (trim <$> text) = truthy (reply_text text).
Proof. by destruct text. Qed.

(** one block reply on an open run whose peer stays *)
Lemma block_reply_open h text w :
  let r := runs w h in
  closed r = false → wasClientToolCalled (sessionKey r) (store w) = false →
  peer_stays r →
  let w' := exec (sendBlockReply h text) w in
  let r' := runs w' h in
  store w' = store w ∧ closed r' = false ∧ peer_stays r' ∧
  sessionKey r' = sessionKey r ∧ messageId r' = messageId r ∧
  messageStarted r' = messageStarted r || truthy (reply_text text) ∧
  emitted r' = emitted r ++ block_events (messageId r) (messageStarted r)
                              (block_deltas [text]) ∧
  chunks r' = chunks r ++ block_events (messageId r) (messageStarted r)
                            (block_deltas [text]).
Proof.
  intros r Hc Hf Hp w' r'. subst w' r'. unfold exec, sendBlockReply.
  run. fold r. rewrite Hc, Hf. cbn [orb]. rewrite truthy_reply_text.
  unfold block_deltas, block_events. cbn [fmap list_fmap List.filter].
  destruct (truthy (reply_text text)) eqn:Ht; cbn [negb].
  2:{ run. cbn [snd length Nat.eqb]. rewrite orb_true_r, orb_false_r. cbn.
      rewrite !app_nil_r. by fold r. }
  cbn [length Nat.eqb]. rewrite orb_false_r, orb_true_r.
  replace (default "" (trim <$> text)) with (reply_text text) by done.
  destruct (messageStarted r) eqn:Hs; cbn [negb]; run; cbn [snd].
  - rewrite with_run_store, with_run_same. fold r.
    rewrite wrote_ok by (done || apply Hp). cbn. by rewrite Hc, Hs.
  - rewrite !with_run_store, !with_run_same. fold r.
    assert (Hc1 : closed (set_messageStarted true r) = false) by done.
    assert (Hp1 : peer_stays (set_messageStarted true r)) by done.
    set (r1 := wrote _ (set_messageStarted true r)).
    assert (Hc2 : closed r1 = false) by (by apply wrote_open_closed).
    assert (Hp2 : peer_stays r1) by (by apply wrote_peer_stays).
    split; [done|]. split; [by apply wrote_open_closed|].
    split; [by apply wrote_peer_stays|].
    rewrite wrote_sessionKey, wrote_messageId, wrote_messageStarted, wrote_emitted,
      wrote_open_chunks by done.
    subst r1.
    rewrite wrote_sessionKey, wrote_messageId, wrote_messageStarted, wrote_emitted,
      wrote_open_chunks by done.
    cbn. by rewrite <- !app_assoc.
Qed.

Lemma block_events_app mid started ds1 ds2 :
  block_events mid started ds1
    ++ block_events mid (started || negb (Nat.eqb (length ds1) 0)) ds2
  = block_events mid started (ds1 ++ ds2).
Proof.
  unfold block_events. rewrite fmap_app, length_app.
  destruct started, ds1 as [|d ds1], ds2 as [|d2 ds2]; cbn; rewrite ?app_nil_r; try done.
  all: by rewrite <- ?app_assoc.
Qed.

Lemma block_replies_open h texts :
  ∀ w,
    let r := runs w h in
    closed r = false → wasClientToolCalled (sessionKey r) (store w) = false →
    peer_stays r →
    let w' := exec (host_calls h (SendBlockReply <$> texts)) w in
    let r' := runs w' h in
    store w' = store w ∧ closed r' = false ∧
    messageStarted r' = messageStarted r || negb (Nat.eqb (length (block_deltas texts)) 0) ∧
    emitted r' = emitted r ++ block_events (messageId r) (messageStarted r)
                                (block_deltas texts) ∧
    chunks r' = chunks r ++ block_events (messageId r) (messageStarted r)
                              (block_deltas texts).
Proof.
  induction texts as [|text texts IH]; intros w r Hc Hf Hp w' r'.
  - subst w' r'. unfold block_events, block_deltas. cbn. fold r.
    rewrite ?orb_false_r, ?orb_true_r. cbn. by rewrite ?app_nil_r.
  - subst w' r'. cbn [fmap list_fmap]. rewrite exec_host_calls_cons.
    cbn [host_call]. rewrite exec_then_ret.
    destruct (block_reply_open h text w Hc Hf Hp) as (Hst & Hc1 & Hp1 & Hk1 & Hm1 & Hs1 & He1 & Hch1).
    set (w1 := exec (sendBlockReply h text) w) in *.
    destruct (IH w1) as (Hst2 & Hc2 & Hs2 & He2 & Hch2); try done.
    { by rewrite Hk1, Hst. }
    fold r in Hk1, Hm1, Hs1, He1, Hch1.
    rewrite Hst2, Hc2, Hs2, He2, Hch2, Hm1, Hs1, He1, Hch1, Hst.
    assert (Hd : block_deltas (text :: texts) = block_deltas [text] ++ block_deltas texts).
    { unfold block_deltas. cbn. by destruct (truthy (reply_text text)). }
    assert (Hl : truthy (reply_text text) = negb (Nat.eqb (length (block_deltas [text])) 0)).
    { unfold block_deltas. cbn. by destruct (truthy (reply_text text)). }
    rewrite Hd, Hl, <- !app_assoc, !block_events_app, length_app.
    split; [done|]. split; [done|]. split; [|done].
    rewrite <- orb_assoc. f_equal.
    by destruct (block_deltas [text]), (block_deltas texts).
Qed.

(** X15: block replies on an open run whose peer stays and whose session has
    called no client tool are streamed as one "text message started" (none
    when the message has started already, or when every text is blank) and
    then one "text message content" for each text that is not blank, trimmed,
    in the order of the replies; blank replies add nothing, the run stays
    open and the store is not touched. *)
Theorem block_replies_stream (h : nat) (texts : list (option string)) (w : World) :
  let r := runs w h in
  closed r = false → wasClientToolCalled (sessionKey r) (store w) = false →
  peer_stays r →
  let w' := exec (host_calls h (SendBlockReply <$> texts)) w in
  output h w' = output h w ++ block_events (messageId r) (messageStarted r)
                                (block_deltas texts) ∧
  emitted (runs w' h) = emitted r ++ block_events (messageId r) (messageStarted r)
                                       (block_deltas texts) ∧
  closed (runs w' h) = false ∧ store w' = store w.
Proof.
  intros r Hc Hf Hp w'.
  destruct (block_replies_open h texts w Hc Hf Hp) as (Hst & Hc' & _ & He & Hch).
  done.
Qed.

Lemma block_replies_stream_witness :
  let texts := [Some "  Hello "; None; Some "   "; Some "world"] in
  closed (runs started_world 0) = false ∧
  peer_stays (runs started_world 0) ∧
  output 0 (exec (host_calls 0 (SendBlockReply <$> texts)) started_world) =
    [RUN_STARTED "t1" "r1"; TEXT_MESSAGE_START "msg-0" "assistant";
     TEXT_MESSAGE_CONTENT "msg-0" "Hello"; TEXT_MESSAGE_CONTENT "msg-0" "world"].
Proof.
  intros texts.
  assert (Hc : closed (runs started_world 0) = false) by reflexivity.
  assert (Hp : peer_stays (runs started_world 0)) by (intros n; reflexivity).
  split; [exact Hc|]. split; [exact Hp|].
  exact (proj1 (block_replies_stream 0 texts started_world Hc eq_refl Hp)).
Defined.

(** * The tool factory *)

(** X16: the tool factory, asked for a session right after tools were
    stashed for it, returns nothing exactly when the stashed list is empty,
    and otherwise one agent tool for each stashed tool, in order, with the
    tool's name as name and as label, its description, and its parameter
    schema, or the empty object schema when the tool's parameters are
    undefined or null; it drains the stash, so asked again it returns
    nothing; asked without a session key, or with an empty one, it returns
    nothing and leaves the store as it was. *)
Theorem factory_drains_stash (sk : string) (tools : list Tool) (st : Store) :
  truthy sk = true →
  let r := clawgUiToolFactory (Some sk) (stashTools sk tools st) in
  (r.1 = None ↔ tools = []) ∧
  (∀ ats, r.1 = Some ats →
     length ats = length tools ∧
     ∀ i t, tools !! i = Some t →
       ∃ a, ats !! i = Some a ∧ at_name a = tool_name t ∧ at_label a = tool_name t ∧
            at_description a = tool_description t ∧
            (tool_parameters t = None ∨ tool_parameters t = Some JNull →
             at_parameters a = empty_object_schema) ∧
            (∀ schema, tool_parameters t = Some schema → schema ≠ JNull →
                       at_parameters a = schema)) ∧
  r.2 = (popTools sk st).2 ∧
  (clawgUiToolFactory (Some sk) r.2).1 = None ∧
  (∀ key, truthy_opt key = false → clawgUiToolFactory key st = (None, st)).
Proof.
  intros Ht r.
  assert (E : popTools sk (stashTools sk tools st) = (tools, (popTools sk st).2)).
  { unfold popTools, stashTools. cbn. rewrite lookup_insert_eq. cbn.
    by rewrite delete_insert_eq. }
  assert (Hr : r = (if Nat.eqb (length tools) 0 then None
                    else Some (map (λ t, mkAgentTool (tool_name t) (tool_name t)
                                           (tool_description t)
                                           (parameters_or_default (tool_parameters t)))
                                 tools),
                    (popTools sk st).2)).
  { subst r. unfold clawgUiToolFactory. rewrite Ht. cbn [negb]. rewrite E.
    by destruct (Nat.eqb _ 0). }
  rewrite Hr. cbn [fst snd]. clear Hr r.
  split; [|split; [|split; [|split]]].
  - destruct tools; cbn; by split.
  - intros ats. destruct (Nat.eqb (length tools) 0); [done|]. intros [= <-].
    split; [by rewrite length_map|].
    intros i t Hi. change (map ?f ?l) with (f <$> l). rewrite list_lookup_fmap, Hi.
    cbn. eexists. split; [done|]. cbn. split; [done|]. split; [done|]. split; [done|].
    split.
    + by intros [->| ->].
    + intros schema -> Hne. by destruct schema.
  - done.
  - assert (E2 : (popTools sk (popTools sk st).2).1 = [])
      by (unfold popTools; cbn; by rewrite lookup_delete_eq).
    unfold clawgUiToolFactory. rewrite Ht. cbn [negb].
    destruct (popTools sk (popTools sk st).2) as [l st3]. cbn in E2. by subst l.
  - intros [key|] Hk; [|done]. cbn in Hk. unfold clawgUiToolFactory. by rewrite Hk.
Qed.

Lemma factory_drains_stash_witness :
  let tools := [mkTool "get_weather" (Some "Get weather") (Some JNull);
                mkTool "get_time" None (Some (JObj [("type", JStr "object")]))] in
  truthy "s" = true ∧
  (clawgUiToolFactory (Some "s") (stashTools "s" tools empty_store)).1 ≠ None ∧
  (clawgUiToolFactory (Some "s") (stashTools "s" tools empty_store)).1 =
    Some [mkAgentTool "get_weather" "get_weather" (Some "Get weather")
            (JObj [("type", JStr "object"); ("properties", JObj [])]);
          mkAgentTool "get_time" "get_time" None (JObj [("type", JStr "object")])].
Proof.
  intros tools. split; [reflexivity|]. split; [|vm_compute; reflexivity].
  intros H.
  apply (proj1 (factory_drains_stash "s" tools empty_store eq_refl)) in H.
  discriminate H.
Defined.

(** * Strings *)

Lemma append_cons c (a b : string) : String c a +:+ b = String c (a +:+ b).
Proof. reflexivity. Qed.

Lemma append_assoc (a b c : string) : (a +:+ b) +:+ c = a +:+ (b +:+ c).
Proof. induction a as [|x a IH]; [done|]. rewrite !append_cons. by rewrite IH. Qed.

(** [trimStart] removes one white space character after the other *)
Lemma trimStart_unfold s :
  trimStart s = match strip_space s with
                | Some rest => trimStart rest
                | None => s
                end.
Proof.
  destruct s as [|c1 s1]; [reflexivity|]. unfold strip_space. cbn [trimStart].
  destruct (is_space1 c1); [reflexivity|].
  destruct s1 as [|c2 s2]; [reflexivity|].
  destruct (is_space2 c1 c2); [reflexivity|].
  destruct s2 as [|c3 s3]; [reflexivity|].
  destruct (is_space3 c1 c2 c3); reflexivity.
Qed.

Lemma strip_space_shorter s rest :
  strip_space s = Some rest → String.length rest < String.length s.
Proof.
  destruct s as [|c1 s1]; [done|]. unfold strip_space.
  destruct (is_space1 c1); [intros [= <-]; cbn; lia|].
  destruct s1 as [|c2 s2]; [done|].
  destruct (is_space2 c1 c2); [intros [= <-]; cbn; lia|].
  destruct s2 as [|c3 s3]; [done|].
  destruct (is_space3 c1 c2 c3); [intros [= <-]; cbn; lia|done].
Qed.

Lemma strip_space_app s rest x :
  strip_space s = Some rest → strip_space (s +:+ x) = Some (rest +:+ x).
Proof.
  destruct s as [|c1 s1]; [done|]. rewrite append_cons. unfold strip_space.
  destruct (is_space1 c1); [by intros [= <-]|].
  destruct s1 as [|c2 s2]; [done|]. rewrite append_cons.
  destruct (is_space2 c1 c2); [by intros [= <-]|].
  destruct s2 as [|c3 s3]; [done|]. rewrite append_cons.
  destruct (is_space3 c1 c2 c3); [by intros [= <-]|done].
Qed.

Lemma strip_space_split s rest :
  strip_space s = Some rest →
  ∃ w, s = w +:+ rest ∧ strip_space w = Some EmptyString.
Proof.
  destruct s as [|c1 s1]; [done|]. unfold strip_space.
  destruct (is_space1 c1) eqn:H1.
  { intros [= <-]. exists (String c1 EmptyString). split; [done|]. cbn. by rewrite H1. }
  destruct s1 as [|c2 s2]; [done|].
  destruct (is_space2 c1 c2) eqn:H2.
  { intros [= <-]. exists (String c1 (String c2 EmptyString)). split; [done|].
    cbn. by rewrite H1, H2. }
  destruct s2 as [|c3 s3]; [done|].
  destruct (is_space3 c1 c2 c3) eqn:H3; [|done].
  intros [= <-]. exists (String c1 (String c2 (String c3 EmptyString))). split; [done|].
  cbn. by rewrite H1, H2, H3.
Qed.

(** induction along the white space at the start of a string *)
Lemma strip_space_ind (P : string → Prop) :
  (∀ s, strip_space s = None → P s) →
  (∀ s rest, strip_space s = Some rest → P rest → P s) →
  ∀ s, P s.
Proof.
  intros Hnone Hsome s.
  remember (String.length s) as n eqn:Hlen. revert s Hlen.
  induction n as [n IH] using lt_wf_ind. intros s ->.
  destruct (strip_space s) as [rest|] eqn:E; [|by apply Hnone].
  apply (Hsome s rest E).
  apply (IH (String.length rest)); [by apply strip_space_shorter|done].
Qed.

Lemma trimStart_spaces ws s : trimStart ws = EmptyString → trimStart (ws +:+ s) = trimStart s.
Proof.
  induction ws as [ws E|ws rest E IH] using strip_space_ind.
  - rewrite (trimStart_unfold ws), E. by intros ->.
  - rewrite (trimStart_unfold ws), E. intros H.
    rewrite trimStart_unfold, (strip_space_app ws rest s E). by apply IH.
Qed.

Lemma trimStart_split s : ∃ ws, s = ws +:+ trimStart s ∧ trimStart ws = EmptyString.
Proof.
  induction s as [s E|s rest E (ws & Hr & Hws)] using strip_space_ind.
  - exists EmptyString. by rewrite trimStart_unfold, E.
  - destruct (strip_space_split s rest E) as (w & -> & Hw).
    exists (w +:+ ws). rewrite (trimStart_unfold (w +:+ rest)), E. split.
    + by rewrite append_assoc, <- Hr.
    + by rewrite trimStart_unfold, (strip_space_app w EmptyString ws Hw).
Qed.

Lemma trimStart_clean s : clean_start (trimStart s).
Proof.
  induction s as [s E|s rest E IH] using strip_space_ind;
    rewrite trimStart_unfold, E; done.
Qed.

Lemma clean_start_trimStart s : clean_start s → trimStart s = s.
Proof. intros H. by rewrite trimStart_unfold, H. Qed.

Lemma trimEnd_cons c s :
  trimEnd (String c s) =
    if String.eqb (trimStart (String c s)) EmptyString then EmptyString
    else String c (trimEnd s).
Proof. reflexivity. Qed.

Lemma trimEnd_split s : ∃ ws, s = trimEnd s +:+ ws ∧ trimStart ws = EmptyString.
Proof.
  induction s as [|c s (ws & E & Hws)]; [by exists EmptyString|].
  rewrite trimEnd_cons.
  destruct (String.eqb_spec (trimStart (String c s)) EmptyString) as [Hb|Hb].
  - by exists (String c s).
  - exists ws. split; [|done]. by rewrite append_cons, <- E.
Qed.

Lemma trimEnd_clean_start s : clean_start s → clean_start (trimEnd s).
Proof.
  unfold clean_start. intros H.
  destruct (trimEnd_split s) as (ws & E & _).
  destruct (strip_space (trimEnd s)) as [rest|] eqn:Hs; [|done].
  apply (strip_space_app _ _ ws) in Hs. rewrite <- E in Hs. congruence.
Qed.

Lemma trimEnd_idemp s : trimEnd (trimEnd s) = trimEnd s.
Proof.
  induction s as [|c s IH]; [done|]. rewrite trimEnd_cons.
  destruct (String.eqb_spec (trimStart (String c s)) EmptyString) as [Hb|Hb]; [done|].
  rewrite trimEnd_cons, IH.
  destruct (String.eqb_spec (trimStart (String c (trimEnd s))) EmptyString) as [Hb'|Hb'];
    [|done].
  destruct Hb. destruct (trimEnd_split s) as (ws & E & Hws).
  rewrite E, <- append_cons, trimStart_spaces by done. exact Hws.
Qed.

Lemma trimEnd_suffix a b : trimEnd (a +:+ b) = a +:+ b → trimEnd b = b.
Proof.
  induction a as [|c a IH]; [done|]. rewrite append_cons, trimEnd_cons.
  destruct (String.eqb (trimStart (String c (a +:+ b))) EmptyString); [done|].
  intros [= H]. by apply IH.
Qed.

Lemma trim_idemp s : trim (trim s) = trim s.
Proof.
  unfold trim. rewrite (clean_start_trimStart (trimEnd _)).
  - apply trimEnd_idemp.
  - apply trimEnd_clean_start, trimStart_clean.
Qed.

(** a string that begins with something else than white space is not blank *)
Lemma trim_clean_nonempty s : clean_start s → s ≠ EmptyString → trim s ≠ EmptyString.
Proof.
  intros Hc Hne. unfold trim. rewrite (clean_start_trimStart s Hc).
  destruct s as [|c s]; [done|]. rewrite trimEnd_cons, (clean_start_trimStart _ Hc).
  by destruct (String.eqb_spec (String c s) EmptyString).
Qed.

Lemma length_append (a b : string) :
  String.length (a +:+ b) = String.length a + String.length b.
Proof. induction a as [|x a IH]; [done|]. rewrite append_cons. cbn. by rewrite IH. Qed.

Lemma toLowerCase_append a b : toLowerCase (a +:+ b) = toLowerCase a +:+ toLowerCase b.
Proof.
  induction a as [|x a IH]; [done|]. rewrite append_cons. cbn [toLowerCase].
  by rewrite IH, append_cons.
Qed.

Lemma toLowerCase_length s : String.length (toLowerCase s) = String.length s.
Proof. induction s as [|x s IH]; [done|]. cbn. by rewrite IH. Qed.

Lemma startsWith_spec s p : startsWith s p = true ↔ ∃ rest, s = p +:+ rest.
Proof.
  revert s. induction p as [|c p IH]; intros s.
  - split; [by exists s|by destruct s].
  - destruct s as [|d s]; [split; [done|by intros [? ?]]|].
    cbn [startsWith]. rewrite andb_true_iff, IH. split.
    + intros [Hc [rest ->]]. apply Ascii.eqb_eq in Hc as ->. by exists rest.
    + intros [rest H]. rewrite append_cons in H. injection H as -> ->.
      split; [apply Ascii.eqb_refl|by exists rest].
Qed.

Lemma slice_append a b : slice (String.length a) (a +:+ b) = b.
Proof. induction a as [|x a IH]; [by destruct b|]. rewrite append_cons. exact IH. Qed.

Lemma slice_append_length n a b : String.length a = n → slice n (a +:+ b) = b.
Proof. intros <-. apply slice_append. Qed.

Lemma toLowerCase_split s p rest :
  toLowerCase s = p +:+ rest →
  ∃ s1 s2, s = s1 +:+ s2 ∧ toLowerCase s1 = p ∧ toLowerCase s2 = rest.
Proof.
  revert s. induction p as [|c p IH]; intros s H.
  - by exists EmptyString, s.
  - destruct s as [|d s]; [done|]. rewrite append_cons in H. cbn [toLowerCase] in H.
    injection H as Hc H.
    destruct (IH s H) as (s1 & s2 & -> & H1 & H2).
    exists (String d s1), s2. rewrite append_cons. cbn [toLowerCase]. by rewrite Hc, H1.
Qed.

Lemma toLowerCase_char_space c :
  toLowerCase_char c = Ascii.Ascii false false false false false true false false →
  c = Ascii.Ascii false false false false false true false false.
Proof.
  change (Ascii.Ascii false false false false false true false false)
    with (Ascii.ascii_of_nat 32).
  unfold toLowerCase_char.
  destruct (Nat.leb 65 (Ascii.nat_of_ascii c) && Nat.leb (Ascii.nat_of_ascii c) 90) eqn:E;
    [|done].
  intros H. apply (f_equal Ascii.nat_of_ascii) in H.
  apply andb_true_iff in E as [E1 E2]. apply Nat.leb_le in E1, E2.
  assert (H1 : Ascii.nat_of_ascii c + 32 < 256) by lia.
  assert (H2 : 32 < 256) by lia.
  rewrite (Ascii.nat_ascii_embedding _ H1), (Ascii.nat_ascii_embedding _ H2) in H. lia.
Qed.

Lemma truthy_nonempty s : truthy s = true ↔ s ≠ EmptyString.
Proof.
  unfold truthy. destruct (String.eqb_spec s EmptyString) as [->|H]; cbn [negb].
  - split; [done|]. intros H. by destruct H.
  - by split.
Qed.

(** * The bearer token *)

Lemma bearer_token_of_header header token :
  getBearerToken (Some header) = Some token ↔
  ∃ scheme ws,
    trim header = scheme +:+ " " +:+ ws +:+ token ∧
    toLowerCase scheme = "bearer" ∧
    trimStart ws = EmptyString ∧ token ≠ EmptyString ∧ trim token = token.
Proof.
  unfold getBearerToken. cbn [fmap option_fmap option_map from_option]. unfold id.
  set (raw := trim header). split.
  - destruct (startsWith (toLowerCase raw) "bearer ") eqn:Hs; cbn [negb]; [|done].
    destruct (truthy (trim (slice 7 raw))) eqn:Ht; [|done].
    intros Htok. apply (inj Some) in Htok.
    apply startsWith_spec in Hs as [rest Hs].
    apply toLowerCase_split in Hs as (s1 & s2 & Hraw & H1 & _).
    change "bearer "%string with ("bearer" +:+ " ") in H1.
    pose proof H1 as Hlen. apply (f_equal String.length) in Hlen.
    rewrite toLowerCase_length in Hlen.
    change (String.length ("bearer" +:+ " ")) with 7 in Hlen.
    apply toLowerCase_split in H1 as (scheme & sp & -> & Hscheme & Hsp).
    destruct sp as [|c [|? ?]]; try done. cbn in Hsp. injection Hsp as Hsp.
    apply toLowerCase_char_space in Hsp. subst c.
    assert (Hsl : slice 7 raw = s2) by (rewrite Hraw; by apply slice_append_length).
    rewrite Hsl in Htok, Ht.
    destruct (trimStart_split s2) as (ws & Hs2 & Hws).
    assert (Hend : trimEnd (trimStart s2) = trimStart s2).
    { apply (trimEnd_suffix ((scheme +:+ " ") +:+ ws)).
      rewrite append_assoc, <- Hs2, <- Hraw. apply trimEnd_idemp. }
    assert (Htok' : token = trimStart s2) by (rewrite <- Htok; exact Hend).
    exists scheme, ws. split; [|split; [done|split; [done|split]]].
    + rewrite Htok', <- Hs2. fold raw. by rewrite Hraw, append_assoc.
    + apply truthy_nonempty. by rewrite <- Htok.
    + rewrite <- Htok. apply trim_idemp.
  - intros (scheme & ws & Hraw & Hscheme & Hws & Hne & Htrim).
    assert (Hlen : String.length (scheme +:+ " ") = 7).
    { rewrite length_append, <- (toLowerCase_length scheme), Hscheme. done. }
    assert (Hs : startsWith (toLowerCase raw) "bearer " = true).
    { apply startsWith_spec. exists (toLowerCase (ws +:+ token)).
      rewrite Hraw, !toLowerCase_append, Hscheme. done. }
    rewrite Hs. cbn [negb].
    assert (Hsl : slice 7 raw = ws +:+ token).
    { rewrite Hraw, <- append_assoc. by apply slice_append_length. }
    rewrite Hsl. unfold trim at 1 2. rewrite trimStart_spaces by done.
    fold (trim token). rewrite Htrim.
    by apply truthy_nonempty in Hne as ->.
Qed.

Lemma bearer_token_nonempty authorization token :
  getBearerToken authorization = Some token → token ≠ EmptyString.
Proof.
  destruct authorization as [header|]; [|done].
  by intros (? & ? & _ & _ & _ & Hne & _)%bearer_token_of_header.
Qed.

(** X17: a request carries a bearer token exactly when its authorization
    header, white space around it removed, is the word "bearer" in any mix of
    upper and lower case, one space, any further white space and then the
    token; the token returned is never empty and has no white space around it.
    A request without the header carries none.  White space is what
    [String.prototype.trim] removes, the no-break space and the other
    Unicode spaces included. *)
Theorem bearer_token_accepted (authorization : option string) (token : string) :
  getBearerToken authorization = Some token ↔
  ∃ header scheme ws,
    authorization = Some header ∧
    trim header = scheme +:+ " " +:+ ws +:+ token ∧
    toLowerCase scheme = "bearer" ∧
    trimStart ws = EmptyString ∧ token ≠ EmptyString ∧ trim token = token.
Proof.
  destruct authorization as [header|].
  - rewrite bearer_token_of_header. split.
    + intros (scheme & ws & H). by exists header, scheme, ws.
    + intros (header' & scheme & ws & [= <-] & H). by exists scheme, ws.
  - split; [done|]. by intros (? & ? & ? & ? & _).
Qed.

(** * The token check *)

Lemma get_beyond s j : String.length s ≤ j → String.get j s = None.
Proof.
  revert j. induction s as [|c s IH]; intros j Hj; [done|].
  destruct j as [|j]; cbn in *; [lia|]. apply IH. lia.
Qed.

Lemma get_within s j : j < String.length s → ∃ c, String.get j s = Some c.
Proof.
  revert j. induction s as [|c s IH]; intros j Hj; cbn in *; [lia|].
  destruct j as [|j]; [by exists c|]. apply IH. lia.
Qed.

Lemma compare_loop_zero token configured n :
  ∀ i mismatch,
    compare_loop token configured i n mismatch = 0%N ↔
    mismatch = 0%N ∧
    ∀ j, i ≤ j < i + n → charCodeAt token j = charCodeAt configured j.
Proof.
  induction n as [|n IH]; intros i mismatch; cbn [compare_loop].
  - split; [intros ->; split; [done|]; intros j Hj; lia|by intros [-> _]].
  - rewrite IH, N.lor_eq_0_iff, N.lxor_eq_0_iff. split.
    + intros [[-> Hi] Hrest]. split; [done|]. intros j Hj.
      destruct (decide (j = i)) as [->|Hne]; [done|]. apply Hrest. lia.
    + intros [-> Hall]. split; [split; [done|apply Hall; lia]|].
      intros j Hj. apply Hall. lia.
Qed.

(** the loop finds no mismatch exactly when two strings of one length are the
    same string *)
Lemma compare_loop_equal token configured :
  String.length token = String.length configured →
  compare_loop token configured 0 (String.length token) 0 = 0%N ↔ token = configured.
Proof.
  intros Hlen. rewrite compare_loop_zero. split.
  - intros [_ Hall]. apply String.get_correct. intros j.
    destruct (decide (j < String.length token)) as [Hj|Hj].
    + specialize (Hall j ltac:(lia)). unfold charCodeAt in Hall.
      destruct (get_within token j Hj) as [c Hc].
      destruct (get_within configured j ltac:(lia)) as [d Hd].
      rewrite Hc, Hd in *. f_equal.
      apply (f_equal Ascii.ascii_of_N) in Hall.
      by rewrite !Ascii.ascii_N_embedding in Hall.
    + rewrite !get_beyond by lia. done.
  - intros ->. by split.
Qed.

Lemma authenticate_iff authorization src :
  authenticateRequest authorization src = true ↔
  ∃ token, getBearerToken authorization = Some token ∧
           configuredToken src = Some (JStr token).
Proof.
  unfold authenticateRequest.
  destruct (getBearerToken authorization) as [token|] eqn:Hb.
  2:{ split; [done|]. by intros (? & ? & _). }
  assert (Hne : truthy token = true).
  { apply truthy_nonempty. by apply (bearer_token_nonempty authorization). }
  rewrite Hne. cbn [negb].
  destruct (configuredToken src) as [[| | |configured| |]|];
    try (split; [done|]; by intros (? & _ & ?)).
  destruct (decide (token = configured)) as [<-|Hne'].
  - rewrite Hne, Nat.eqb_refl. cbn [negb]. split; [by exists token|]. intros _.
    apply N.eqb_eq. by apply compare_loop_equal.
  - split; [|intros (t & [= ->] & [= ->]); done].
    destruct (truthy configured); cbn [negb]; [|done].
    destruct (Nat.eqb_spec (String.length token) (String.length configured)) as [Hl|Hl];
      cbn [negb]; [|done].
    intros H%N.eqb_eq. by apply compare_loop_equal in H.
Qed.

(** X18: a request is authenticated exactly when it carries a bearer token
    and that token is, character for character, the configured token, where
    the configured token is the first of the configuration's gateway token
    and the two environment variables that is neither undefined nor null, and
    has to be a string.  So the comparison loop decides equality of the two
    strings; nothing is authenticated when no token is configured, when the
    first one configured is not a string, or when it is the empty string, even
    if a later source holds a token. *)
Theorem authenticated_iff_token_matches (authorization : option string)
    (src : AuthSources) :
  (authenticateRequest authorization src = true ↔
   ∃ token, getBearerToken authorization = Some token ∧
            configuredToken src = Some (JStr token)) ∧
  (configuredToken src = None → authenticateRequest authorization src = false) ∧
  (∀ v, gateway_auth_token src = Some v → v ≠ JNull →
        (∀ s, v ≠ JStr s) → authenticateRequest authorization src = false) ∧
  (OPENCLAW_GATEWAY_TOKEN src = Some EmptyString →
   gateway_auth_token src = None →
   authenticateRequest authorization src = false).
Proof.
  split; [apply authenticate_iff|]. split; [|split].
  - intros Hc. destruct (authenticateRequest authorization src) eqn:E; [|done].
    apply authenticate_iff in E as (token & _ & Ht). by rewrite Hc in Ht.
  - intros v Hv Hnull Hstr.
    destruct (authenticateRequest authorization src) eqn:E; [|done].
    apply authenticate_iff in E as (token & _ & Ht). unfold configuredToken in Ht.
    rewrite Hv in Ht. destruct v; cbn in Ht; try done. injection Ht as ->.
    by destruct (Hstr token).
  - intros He Hg.
    destruct (authenticateRequest authorization src) eqn:E; [|done].
    apply authenticate_iff in E as (token & Hb & Ht). unfold configuredToken in Ht.
    rewrite Hg, He in Ht. cbn in Ht. injection Ht as <-.
    by apply bearer_token_nonempty in Hb.
Qed.

(** * The prompt *)

Lemma default_last_snoc {A} (d : A) l x : default d (last (l ++ [x])) = x.
Proof. by rewrite last_snoc. Qed.

Lemma body_step_spec sys parts lastUser msg :
  body_step (sys, parts, lastUser) msg =
    (sys ++ option_list (system_text_of msg),
     parts ++ option_list (line_of msg),
     default lastUser (user_text_of msg)).
Proof.
  unfold body_step, system_text_of, line_of, user_text_of.
  set (role := default "" (trim <$> msg_role msg)).
  set (content := trim (extractTextContent msg)).
  destruct (truthy content) eqn:Hc; cbn [negb orb andb].
  2:{ rewrite orb_true_r. cbn. by rewrite !app_nil_r. }
  destruct (truthy role) eqn:Hr; cbn [negb orb].
  2:{ unfold truthy in Hr. apply negb_false_iff, String.eqb_eq in Hr.
      rewrite Hr. cbn. by rewrite !app_nil_r. }
  destruct (String.eqb_spec role "system") as [->|_]; [cbn; by rewrite app_nil_r|].
  destruct (String.eqb_spec role "user") as [->|_]; [cbn; by rewrite app_nil_r|].
  destruct (String.eqb_spec role "assistant") as [->|_]; [cbn; by rewrite app_nil_r|].
  destruct (String.eqb_spec role "tool") as [->|_]; cbn; by rewrite ?app_nil_r.
Qed.

(** the loop, message by message *)
Lemma body_fold messages :
  ∀ sys parts lastUser,
    foldl body_step (sys, parts, lastUser) messages =
      (sys ++ omap system_text_of messages,
       parts ++ omap line_of messages,
       default lastUser (last (omap user_text_of messages))).
Proof.
  induction messages as [|msg messages IH]; intros sys parts lastUser.
  - cbn. by rewrite !app_nil_r.
  - cbn [foldl]. rewrite body_step_spec, IH. cbn [omap list_omap].
    rewrite <- !app_assoc. f_equal; [f_equal|].
    + by destruct (system_text_of msg).
    + by destruct (line_of msg).
    + destruct (user_text_of msg) as [c|]; cbn; [|done].
      by destruct (omap user_text_of messages) as [|x l] using rev_ind;
        [|rewrite app_comm_cons, !last_snoc].
Qed.

Lemma buildBody_spec messages :
  buildBodyFromMessages messages =
    (if Nat.eqb (length (List.filter is_user messages)) 1
        && Nat.eqb (length (omap line_of messages)) 1
     then default "" (last (omap user_text_of messages))
     else join newline (omap line_of messages),
     if Nat.ltb 0 (length (omap system_text_of messages))
     then Some (join (newline +:+ newline) (omap system_text_of messages))
     else None).
Proof. unfold buildBodyFromMessages. by rewrite body_fold. Qed.

Lemma user_text_line msg c :
  user_text_of msg = Some c → line_of msg = Some ("User: " +:+ c) ∧ truthy c = true.
Proof.
  unfold user_text_of, line_of.
  destruct (truthy (trim (extractTextContent msg))) eqn:Hc; cbn [negb andb]; [|done].
  destruct (String.eqb _ "user"); [|done]. by intros [= <-].
Qed.

Lemma is_user_line msg :
  is_user msg = true →
  line_of msg = (if truthy (trim (extractTextContent msg))
                 then Some ("User: " +:+ trim (extractTextContent msg)) else None) ∧
  user_text_of msg = (if truthy (trim (extractTextContent msg))
                      then Some (trim (extractTextContent msg)) else None).
Proof.
  unfold is_user, line_of, user_text_of. destruct (msg_role msg) as [role|]; [|done].
  intros ->%String.eqb_eq. cbn. by destruct (truthy _).
Qed.

Lemma silent_no_line msg : silent msg = true → line_of msg = None ∧ user_text_of msg = None ∧
                                               is_user msg = false.
Proof.
  unfold silent. intros [Hu Hl]%andb_true_iff.
  apply negb_true_iff in Hu, Hl. apply bool_decide_eq_false in Hl.
  assert (Hn : line_of msg = None) by (destruct (line_of msg); [by destruct Hl|done]).
  split; [done|]. split; [|done].
  destruct (user_text_of msg) as [c|] eqn:E; [|done].
  apply user_text_line in E as [E _]. by rewrite E in Hn.
Qed.

Lemma omap_filter_silent {A} (f : Message → option A) messages :
  (∀ msg, silent msg = true → f msg = None) →
  omap f (List.filter (λ m, negb (silent m)) messages) = omap f messages.
Proof.
  intros Hf. induction messages as [|msg messages IH]; [done|].
  cbn [List.filter]. destruct (silent msg) eqn:Hs; cbn [negb omap list_omap].
  - by rewrite (Hf msg Hs).
  - by rewrite IH.
Qed.

Lemma filter_user_silent messages :
  List.filter is_user (List.filter (λ m, negb (silent m)) messages)
  = List.filter is_user messages.
Proof.
  induction messages as [|msg messages IH]; [done|].
  cbn [List.filter]. destruct (silent msg) eqn:Hs; cbn [negb List.filter].
  - apply silent_no_line in Hs as (_ & _ & ->). exact IH.
  - by rewrite IH.
Qed.

Lemma system_is_silent msg :
  is_Some (system_text_of msg) → silent msg = true.
Proof.
  unfold system_text_of, silent, is_user, line_of.
  destruct (msg_role msg) as [role|]; cbn [fmap option_fmap option_map from_option];
    unfold id.
  2:{ rewrite andb_false_r. by intros [? ?]. }
  destruct (truthy (trim (extractTextContent msg))); cbn [andb negb]; [|by intros [? ?]].
  destruct (String.eqb_spec (trim role) "system") as [E|_]; [|by intros [? ?]].
  intros _. rewrite E. cbn.
  destruct (String.eqb_spec role "user") as [->|_]; [done|]. done.
Qed.

Lemma body_ignores_silent messages :
  (buildBodyFromMessages (List.filter (λ m, negb (silent m)) messages)).1
  = (buildBodyFromMessages messages).1.
Proof.
  rewrite !buildBody_spec. cbn [fst].
  rewrite filter_user_silent, !omap_filter_silent; [done| |].
  - intros msg Hs. by apply silent_no_line in Hs as (_ & -> & _).
  - intros msg Hs. by apply silent_no_line in Hs as (-> & _).
Qed.

(** X19: the body built from the messages does not depend on the messages
    that add no line of their own and whose role is not exactly "user"
    (system messages, messages with blank or non-text content, roles other
    than user, assistant and tool): removing them leaves the body as it is.
    When what remains is one message of role "user" with text, the body is
    that text, trimmed, with no "User: " in front; when the messages add no
    line or more than one, the body is the lines joined by newlines, in the
    order of the messages. *)
Theorem body_of_messages (messages : list Message) :
  let body := (buildBodyFromMessages messages).1 in
  let lines := omap line_of messages in
  (buildBodyFromMessages (List.filter (λ m, negb (silent m)) messages)).1 = body ∧
  (∀ msg, is_Some (system_text_of msg) → silent msg = true) ∧
  (∀ msg, List.filter (λ m, negb (silent m)) messages = [msg] →
          is_user msg = true → truthy (trim (extractTextContent msg)) = true →
          body = trim (extractTextContent msg)) ∧
  (length lines ≠ 1 → body = join newline lines).
Proof.
  intros body lines. split; [apply body_ignores_silent|].
  split; [apply system_is_silent|]. split.
  - intros msg Hf Hu Hc. subst body. rewrite <- body_ignores_silent, Hf.
    rewrite buildBody_spec. cbn [fst List.filter omap list_omap].
    destruct (is_user_line msg Hu) as [-> ->]. rewrite Hu, Hc. done.
  - intros Hl. subst body lines. rewrite buildBody_spec. cbn [fst].
    destruct (Nat.eqb_spec (length (omap line_of messages)) 1) as [E|_]; [done|].
    by rewrite andb_false_r.
Qed.

(** a line begins with a letter, whatever follows *)
Lemma line_clean msg l :
  line_of msg = Some l → ∃ c s, l = String c s ∧ ∀ t, clean_start (String c t).
Proof.
  assert (H : ∀ p content, p = "User: " ∨ p = "Assistant: " ∨ p = "Tool: " →
            ∃ c s, p +:+ content = String c s ∧ ∀ t, clean_start (String c t)).
  { intros p content [->|[->| ->]]; eexists _, _; (split; [reflexivity|]);
      intros t; unfold clean_start; by destruct t as [|c2 [|c3 t3]]. }
  unfold line_of. destruct (truthy _); cbn [negb]; [|done].
  destruct (String.eqb _ "user"); [intros [= <-]; apply H; auto|].
  destruct (String.eqb _ "assistant"); [intros [= <-]; apply H; auto|].
  destruct (String.eqb _ "tool"); [intros [= <-]; apply H; auto|done].
Qed.

Lemma join_lines_not_blank messages :
  omap line_of messages ≠ [] → trim (join newline (omap line_of messages)) ≠ EmptyString.
Proof.
  destruct (omap line_of messages) as [|l ls] eqn:E; [done|]. intros _.
  assert (Hl : ∃ msg, line_of msg = Some l).
  { clear -E. induction messages as [|m ms IH]; [done|].
    cbn [omap list_omap] in E. destruct (line_of m) as [l'|] eqn:El; [|by apply IH].
    injection E as -> _. by exists m. }
  destruct Hl as (msg & (c & s & -> & Hc)%line_clean).
  unfold join. cbn [String.concat].
  destruct ls; [by apply trim_clean_nonempty|].
  rewrite append_cons. by apply trim_clean_nonempty.
Qed.

Lemma omap_is_nil {A B} (f : A → option B) l :
  omap f l = [] ↔ ∀ x, x ∈ l → f x = None.
Proof.
  induction l as [|a l IH]; [split; [by intros _ ? ?%elem_of_nil|done]|].
  cbn [omap list_omap]. destruct (f a) eqn:E.
  - split; [done|]. intros H. specialize (H a ltac:(left)). congruence.
  - rewrite IH. split.
    + intros H x [->|Hx]%elem_of_cons; auto.
    + intros H x Hx. apply H. by right.
Qed.

Lemma check_messages_sound messages body :
  check_messages messages = inr body →
  body = (buildBodyFromMessages messages).1 ∧ trim body ≠ EmptyString ∧
  (∃ msg, msg ∈ messages ∧ is_user msg = true) ∧
  (∃ msg, msg ∈ messages ∧ is_Some (line_of msg)).
Proof.
  unfold check_messages.
  destruct (existsb is_user messages) eqn:Hu; cbn [negb]; [|done].
  destruct (truthy (trim (buildBodyFromMessages messages).1)) eqn:Ht; cbn [negb]; [|done].
  intros [= <-]. split; [done|]. split; [by apply truthy_nonempty|]. split.
  - apply existsb_exists in Hu as (msg & Hin & Hm). exists msg.
    split; [by apply list_elem_of_In|done].
  - destruct (decide (omap line_of messages = [])) as [E|E].
    + rewrite buildBody_spec, E in Ht. cbn in Ht. by rewrite andb_false_r in Ht.
    + destruct (omap line_of messages) as [|l ls] eqn:El; [done|].
      assert (Hin : l ∈ omap line_of messages) by (rewrite El; left).
      apply list_elem_of_omap in Hin as (msg & Hin & Hl). exists msg.
      split; [done|]. by rewrite Hl.
Qed.

Lemma check_messages_complete messages msg :
  msg ∈ messages → is_user msg = true →
  truthy (trim (extractTextContent msg)) = true →
  check_messages messages = inr (buildBodyFromMessages messages).1.
Proof.
  intros Hin Hu Hc. unfold check_messages.
  assert (He : existsb is_user messages = true).
  { apply existsb_exists. exists msg. split; [by apply list_elem_of_In|done]. }
  rewrite He. cbn [negb].
  destruct (is_user_line msg Hu) as [Hl Ht]. rewrite Hc in Hl, Ht.
  assert (Hlines : omap line_of messages ≠ []).
  { intros E. rewrite omap_is_nil in E. specialize (E msg Hin). by rewrite Hl in E. }
  assert (Hb : trim (buildBodyFromMessages messages).1 ≠ EmptyString).
  { rewrite buildBody_spec. cbn [fst].
    destruct (_ && _); [|by apply join_lines_not_blank].
    destruct (omap user_text_of messages) as [|x l _] eqn:E using rev_ind.
    - rewrite omap_is_nil in E. specialize (E msg Hin). by rewrite Ht in E.
    - rewrite last_snoc. cbn.
      assert (Hx : x ∈ omap user_text_of messages) by (rewrite E; set_solver).
      apply list_elem_of_omap in Hx as (m' & _ & Hx).
      pose proof Hx as [_ Htx]%user_text_line.
      unfold user_text_of in Hx. destruct (_ && _); [|done]. injection Hx as <-.
      fold (trim (trim (extractTextContent m'))). rewrite trim_idemp.
      by apply truthy_nonempty. }
  apply truthy_nonempty in Hb. by rewrite Hb.
Qed.

(** X20: the handler takes a prompt from the messages whenever one message
    has the role "user" and text that is not blank; and when it takes one,
    the prompt is the body built from the messages and is not blank, some
    message has exactly the role "user", and some user, assistant or tool
    message has text that is not blank.  System messages alone, or messages
    without text, never give a prompt. *)
Theorem prompt_needs_user_text (messages : list Message) :
  (∀ msg, msg ∈ messages → is_user msg = true →
          truthy (trim (extractTextContent msg)) = true →
          check_messages messages = inr (buildBodyFromMessages messages).1) ∧
  (∀ body, check_messages messages = inr body →
           body = (buildBodyFromMessages messages).1 ∧ trim body ≠ EmptyString ∧
           (∃ msg, msg ∈ messages ∧ is_user msg = true) ∧
           (∃ msg, msg ∈ messages ∧ is_Some (line_of msg))).
Proof.
  split.
  - apply check_messages_complete.
  - apply check_messages_sound.
Qed.

(** * The request body *)

Lemma append_empty_r (s : string) : s +:+ EmptyString = s.
Proof. induction s as [|c s IH]; [done|]. by rewrite append_cons, IH. Qed.

Lemma concat_empty_cons x xs :
  String.concat EmptyString (x :: xs) = x +:+ String.concat EmptyString xs.
Proof. destruct xs; [by rewrite append_empty_r|done]. Qed.

Lemma concat_empty_app xs ys :
  String.concat EmptyString (xs ++ ys)
  = String.concat EmptyString xs +:+ String.concat EmptyString ys.
Proof.
  induction xs as [|x xs IH]; [done|].
  rewrite <- app_comm_cons, !concat_empty_cons, IH. by rewrite append_assoc.
Qed.

Lemma readJsonBody_from_data JSON_parse maxBytes chunks rest :
  ∀ acc size,
    size = String.length (String.concat EmptyString acc) → size ≤ maxBytes →
    readJsonBody_from JSON_parse maxBytes acc size ((Data <$> chunks) ++ End :: rest) =
      Some (if Nat.ltb maxBytes (String.length (String.concat EmptyString (acc ++ chunks)))
            then inl "Request body too large"
            else match JSON_parse (String.concat EmptyString (acc ++ chunks)) with
                 | Some v => inr v
                 | None => inl "Invalid JSON body"
                 end).
Proof.
  induction chunks as [|chunk chunks IH]; intros acc size Hsize Hle.
  - cbn [fmap list_fmap app readJsonBody_from]. rewrite app_nil_r, <- Hsize.
    destruct (Nat.ltb_spec maxBytes size); [lia|]. by destruct (JSON_parse _).
  - cbn [fmap list_fmap app readJsonBody_from].
    assert (Hlen : String.length (String.concat EmptyString (acc ++ chunk :: chunks))
                   = size + String.length chunk
                     + String.length (String.concat EmptyString chunks)).
    { rewrite concat_empty_app, concat_empty_cons, !length_append. lia. }
    destruct (Nat.ltb_spec maxBytes (size + String.length chunk)) as [Hgt|Hok].
    + rewrite Hlen. by destruct (Nat.ltb_spec maxBytes
                                   (size + String.length chunk
                                    + String.length (String.concat EmptyString chunks)));
        [|lia].
    + rewrite (IH (acc ++ [chunk]) (size + String.length chunk)); [|  |done].
      * by rewrite <- app_assoc.
      * rewrite concat_empty_app, length_append, concat_empty_cons, length_append. cbn. lia.
Qed.

Lemma readJsonBody_from_value JSON_parse maxBytes events :
  ∀ acc size v,
    size = String.length (String.concat EmptyString acc) → size ≤ maxBytes →
    readJsonBody_from JSON_parse maxBytes acc size events = Some (inr v) →
    ∃ chunks rest,
      events = (Data <$> chunks) ++ End :: rest ∧
      String.length (String.concat EmptyString (acc ++ chunks)) ≤ maxBytes ∧
      JSON_parse (String.concat EmptyString (acc ++ chunks)) = Some v.
Proof.
  induction events as [|[chunk| |err] events IH]; intros acc size v Hsize Hle;
    cbn [readJsonBody_from]; [done| | |done].
  - destruct (Nat.ltb_spec maxBytes (size + String.length chunk)) as [Hgt|Hok]; [done|].
    intros H. apply IH in H as (chunks & rest & -> & Hlen & Hp); [|  |done].
    + exists (chunk :: chunks), rest. rewrite <- app_assoc in Hlen, Hp. by split.
    + rewrite concat_empty_app, length_append, concat_empty_cons, length_append. cbn. lia.
  - destruct (JSON_parse (String.concat EmptyString acc)) as [v'|] eqn:Hp; [|done].
    intros [= <-]. exists [], events. rewrite app_nil_r, <- Hsize. by split.
Qed.

(** X21: the body of a request whose stream delivers its chunks and then
    ends is rejected as too large exactly when the chunks together are longer
    than the limit, however the body is cut into chunks (a body of exactly
    the limit is read); otherwise it is what JSON.parse makes of the chunks
    put together, or rejected as invalid JSON when JSON.parse throws.  And a
    value comes out only that way: after nothing but data within the limit,
    and then the end of the stream. *)
Theorem body_limit_by_total_size (JSON_parse : string → option JSValue)
    (maxBytes : nat) (chunks : list string) (rest events : list ReqEvent)
    (v : JSValue) :
  let body := String.concat EmptyString chunks in
  readJsonBody JSON_parse maxBytes ((Data <$> chunks) ++ End :: rest) =
    Some (if Nat.ltb maxBytes (String.length body)
          then inl "Request body too large"
          else match JSON_parse body with
               | Some v => inr v
               | None => inl "Invalid JSON body"
               end) ∧
  (readJsonBody JSON_parse maxBytes events = Some (inr v) →
   ∃ chunks' rest',
     events = (Data <$> chunks') ++ End :: rest' ∧
     String.length (String.concat EmptyString chunks') ≤ maxBytes ∧
     JSON_parse (String.concat EmptyString chunks') = Some v).
Proof.
  intros body. split.
  - unfold readJsonBody. rewrite (readJsonBody_from_data _ _ chunks rest [] 0); [done..|lia].
  - intros H. unfold readJsonBody in H.
    by apply readJsonBody_from_value in H; [|done|lia].
Qed.

(** * The assistant's text message *)

(** the dispatcher's methods and the end of the dispatch, as changes of the
    run's variables *)
Lemma sendBlockReply_world h text w :
  exec (sendBlockReply h text) w =
    let r := runs w h in
    if closed r || wasClientToolCalled (sessionKey r) (store w)
       || negb (truthy (reply_text text))
    then w
    else with_run h (wrote (TEXT_MESSAGE_CONTENT (messageId r) (reply_text text)))
           (if messageStarted r then w
            else with_run h (wrote (TEXT_MESSAGE_START (messageId r) "assistant"))
                   (with_run h (set_messageStarted true) w)).
Proof.
  cbv zeta. unfold exec, sendBlockReply. run.
  destruct (closed (runs w h) || wasClientToolCalled (sessionKey (runs w h)) (store w));
    cbn [orb]; [by run|].
  rewrite truthy_reply_text.
  destruct (truthy (reply_text text)); cbn [negb]; [|by run].
  replace (default "" (trim <$> text)) with (reply_text text) by done.
  destruct (messageStarted (runs w h)); cbn [negb]; by run.
Qed.

Lemma sendFinalReply_world h text w :
  exec (sendFinalReply h text) w =
    let r := runs w h in
    if closed r then w
    else
      let t := if wasClientToolCalled (sessionKey r) (store w)
               then EmptyString else reply_text text in
      let w1 := if truthy t
                then with_run h (wrote (TEXT_MESSAGE_CONTENT (messageId r) t))
                       (if messageStarted r then w
                        else with_run h (wrote (TEXT_MESSAGE_START (messageId r) "assistant"))
                               (with_run h (set_messageStarted true) w))
                else w in
      let w2 := if messageStarted r || truthy t
                then with_run h (wrote (TEXT_MESSAGE_END (messageId r))) w1
                else w1 in
      with_run h (set_ended true)
        (with_run h (set_closed true)
           (with_run h (wrote (RUN_FINISHED (threadId r) (runId r))) w2)).
Proof.
  cbv zeta. unfold exec, sendFinalReply. run.
  destruct (closed (runs w h)); [by run|]. run.
  set (r := runs w h).
  assert (Htr : truthy_opt (if wasClientToolCalled (sessionKey r) (store w)
                            then Some EmptyString else trim <$> text)
                = truthy (if wasClientToolCalled (sessionKey r) (store w)
                          then EmptyString else reply_text text)).
  { destruct (wasClientToolCalled _ _); [done|]. by destruct text. }
  assert (Hdef : default EmptyString (if wasClientToolCalled (sessionKey r) (store w)
                            then Some EmptyString else trim <$> text)
                = (if wasClientToolCalled (sessionKey r) (store w)
                   then EmptyString else reply_text text)).
  { by destruct (wasClientToolCalled _ _). }
  rewrite Htr, Hdef.
  set (t := if wasClientToolCalled _ _ then _ else _).
  destruct (truthy t) eqn:Ht; run;
    [destruct (messageStarted r) eqn:Hs; cbn [negb]; run|];
    rewrite ?with_run_same; fold r;
    rewrite ?wrote_messageStarted; cbn [messageStarted set_messageStarted];
    rewrite ?Hs; cbn [orb]; [| |rewrite orb_false_r; destruct (messageStarted r)];
    by run.
Qed.

Lemma close_after_dispatch_world h w :
  exec (close_after_dispatch h) w =
    let r := runs w h in
    if closed r then w
    else with_run h (set_ended true)
           (with_run h (set_closed true)
              (with_run h (wrote (RUN_FINISHED (threadId r) (runId r)))
                 (if messageStarted r
                  then with_run h (wrote (TEXT_MESSAGE_END (messageId r))) w
                  else w))).
Proof.
  cbv zeta. unfold exec, close_after_dispatch. run.
  destruct (closed (runs w h)); cbn [negb]; run; [done|].
  destruct (messageStarted (runs w h)); by run.
Qed.

Lemma on_dispatch_error_world h err w :
  exec (on_dispatch_error h err) w =
    let r := runs w h in
    if closed r then w
    else with_run h (set_ended true)
           (with_run h (set_closed true) (with_run h (wrote (RUN_ERROR err)) w)).
Proof.
  cbv zeta. unfold exec, on_dispatch_error. run.
  destruct (closed (runs w h)); cbn [negb]; by run.
Qed.

Lemma text_events_snoc l e :
  text_events (l ++ [e]) = text_events l ++ (if is_text_event e then [e] else []).
Proof. unfold text_events. by rewrite List.filter_app. Qed.

Lemma text_inv_wrote e r : is_text_event e = false → text_inv r → text_inv (wrote e r).
Proof.
  unfold text_inv. intros He.
  rewrite wrote_messageStarted, wrote_messageId, wrote_emitted, text_events_snoc, He,
    app_nil_r.
  destruct (messageStarted r); [|done].
  intros (ds & Hds & [H|[Hc H]]); exists ds; (split; [done|]); [by left|right].
  split; [by apply wrote_stays_closed|done].
Qed.

Lemma text_inv_closed r : text_inv r → text_inv (set_closed true r).
Proof.
  unfold text_inv. cbn. destruct (messageStarted r); [|done].
  intros (ds & Hds & [H|[Hc H]]); exists ds; (split; [done|]); [by left|by right].
Qed.

Lemma text_inv_ended r : text_inv r → text_inv (set_ended true r).
Proof. done. Qed.

(** the events of a block of text on an open run *)
Lemma text_inv_content d r :
  closed r = false → truthy d = true → text_inv r →
  text_inv (wrote (TEXT_MESSAGE_CONTENT (messageId r) d)
              (if messageStarted r then r
               else wrote (TEXT_MESSAGE_START (messageId r) "assistant")
                      (set_messageStarted true r))) ∧
  messageStarted (wrote (TEXT_MESSAGE_CONTENT (messageId r) d)
              (if messageStarted r then r
               else wrote (TEXT_MESSAGE_START (messageId r) "assistant")
                      (set_messageStarted true r))) = true ∧
  ∃ ds, text_events (emitted (wrote (TEXT_MESSAGE_CONTENT (messageId r) d)
              (if messageStarted r then r
               else wrote (TEXT_MESSAGE_START (messageId r) "assistant")
                      (set_messageStarted true r))))
        = TEXT_MESSAGE_START (messageId r) "assistant"
            :: (TEXT_MESSAGE_CONTENT (messageId r) <$> ds) ∧
        Forall (λ d, truthy d = true) ds.
Proof.
  intros Hc Hd. unfold text_inv.
  destruct (messageStarted r) eqn:Hs.
  - intros (ds & Hds & [H|[Hc' _]]); [|congruence].
    assert (E : text_events (emitted (wrote (TEXT_MESSAGE_CONTENT (messageId r) d) r))
                = TEXT_MESSAGE_START (messageId r) "assistant"
                    :: (TEXT_MESSAGE_CONTENT (messageId r) <$> ds ++ [d])).
    { rewrite wrote_emitted, text_events_snoc, H, fmap_app. done. }
    assert (F : Forall (λ d, truthy d = true) (ds ++ [d]))
      by (apply Forall_app; split; [done|by constructor]).
    rewrite wrote_messageStarted, wrote_messageId, Hs.
    split; [|split; [done|by exists (ds ++ [d])]].
    exists (ds ++ [d]). split; [done|by left].
  - intros H.
    assert (E : text_events (emitted (wrote (TEXT_MESSAGE_CONTENT (messageId r) d)
                  (wrote (TEXT_MESSAGE_START (messageId r) "assistant")
                     (set_messageStarted true r))))
                = TEXT_MESSAGE_START (messageId r) "assistant"
                    :: (TEXT_MESSAGE_CONTENT (messageId r) <$> [d])).
    { rewrite !wrote_emitted, !text_events_snoc. cbn [emitted set_messageStarted].
      rewrite H. done. }
    assert (F : Forall (λ d, truthy d = true) [d]) by (by constructor).
    rewrite !wrote_messageStarted, !wrote_messageId.
    cbn [messageStarted messageId set_messageStarted].
    split; [|split; [done|by exists [d]]].
    exists [d]. split; [done|by left].
Qed.

Lemma text_inv_finish t r :
  is_text_event t = false → text_inv r →
  text_inv (set_ended true (set_closed true (wrote t r))).
Proof. intros Ht H. by apply text_inv_ended, text_inv_closed, text_inv_wrote. Qed.

(** "text message ended", the terminal event, and the run closed *)
Lemma text_inv_end t mid r :
  is_text_event t = false → messageStarted r = true → messageId r = mid →
  (∃ ds, text_events (emitted r)
         = TEXT_MESSAGE_START mid "assistant" :: (TEXT_MESSAGE_CONTENT mid <$> ds) ∧
         Forall (λ d, truthy d = true) ds) →
  text_inv (set_ended true (set_closed true (wrote t (wrote (TEXT_MESSAGE_END mid) r)))).
Proof.
  intros Ht Hs <- (ds & H & F). unfold text_inv.
  cbn [messageStarted messageId emitted closed set_ended set_closed].
  rewrite !wrote_messageStarted, !wrote_messageId, !wrote_emitted, !text_events_snoc,
    Ht, Hs, H, app_nil_r.
  exists ds. split; [done|]. right. split; [done|]. done.
Qed.

Lemma text_inv_open r :
  closed r = false → messageStarted r = true → text_inv r →
  ∃ ds, text_events (emitted r)
        = TEXT_MESSAGE_START (messageId r) "assistant"
            :: (TEXT_MESSAGE_CONTENT (messageId r) <$> ds) ∧
        Forall (λ d, truthy d = true) ds.
Proof.
  unfold text_inv. intros Hc ->. intros (ds & F & [H|[Hc' _]]); [|congruence].
  by exists ds.
Qed.

Lemma text_inv_block_reply h text w :
  text_inv (runs w h) → text_inv (runs (exec (sendBlockReply h text) w) h).
Proof.
  intros H. rewrite sendBlockReply_world. cbv zeta.
  destruct (closed (runs w h)) eqn:Hc; cbn [orb]; [done|].
  destruct (wasClientToolCalled _ _); cbn [orb]; [done|].
  destruct (truthy (reply_text text)) eqn:Ht; cbn [negb]; [|done].
  destruct (text_inv_content (reply_text text) (runs w h) Hc Ht H) as (H' & _).
  destruct (messageStarted (runs w h)); by rewrite !with_run_same.
Qed.

Lemma text_inv_final_reply h text w :
  text_inv (runs w h) → text_inv (runs (exec (sendFinalReply h text) w) h).
Proof.
  intros H. rewrite sendFinalReply_world. cbv zeta.
  destruct (closed (runs w h)) eqn:Hc; [done|].
  set (r := runs w h) in *.
  set (t := if wasClientToolCalled _ _ then _ else _).
  destruct (truthy t) eqn:Ht.
  - rewrite orb_true_r.
    destruct (text_inv_content t r Hc Ht H) as (_ & Hs' & Hopen).
    assert (Hm : messageId (wrote (TEXT_MESSAGE_CONTENT (messageId r) t)
                   (if messageStarted r then r
                    else wrote (TEXT_MESSAGE_START (messageId r) "assistant")
                           (set_messageStarted true r))) = messageId r).
    { rewrite wrote_messageId. destruct (messageStarted r); [done|].
      by rewrite wrote_messageId. }
    pose proof (text_inv_end (RUN_FINISHED (threadId r) (runId r)) _ _ eq_refl Hs' Hm Hopen)
      as Hend.
    destruct (messageStarted r); by rewrite !with_run_same.
  - rewrite orb_false_r. destruct (messageStarted r) eqn:Hs.
    + rewrite !with_run_same. fold r.
      apply text_inv_end; [done|done|done|]. by apply text_inv_open.
    + rewrite !with_run_same. fold r. by apply text_inv_finish.
Qed.

Lemma text_inv_close_after_dispatch h w :
  text_inv (runs w h) → text_inv (runs (exec (close_after_dispatch h) w) h).
Proof.
  intros H. rewrite close_after_dispatch_world. cbv zeta.
  destruct (closed (runs w h)) eqn:Hc; [done|].
  destruct (messageStarted (runs w h)) eqn:Hs; rewrite !with_run_same.
  - apply text_inv_end; [done|done|done|]. by apply text_inv_open.
  - by apply text_inv_finish.
Qed.

Lemma text_inv_on_dispatch_error h err w :
  text_inv (runs w h) → text_inv (runs (exec (on_dispatch_error h err) w) h).
Proof.
  intros H. rewrite on_dispatch_error_world. cbv zeta.
  destruct (closed (runs w h)) eqn:Hc; [done|].
  rewrite !with_run_same. by apply text_inv_finish.
Qed.

Lemma text_inv_env_event h e w :
  text_inv (runs w h) → text_inv (runs (exec (env_event h e) w) h).
Proof.
  intros H.
  destruct (hoare_returns _ _ _ w
              (env_event_keeps h (λ w, text_inv (runs w h))
                 ltac:(done) ltac:(done)
                 ltac:(intros w0 h' e0 He0 H0; cbv beta in *; rewrite with_run_runs;
                       destruct (Nat.eqb h h'); [|done];
                       apply text_inv_wrote; [by destruct e0|done])
                 true
                 ltac:(intros _ w0 H0; cbv beta in *; rewrite with_run_same;
                       by apply text_inv_closed)
                 e ltac:(done)) H) as ([] & _ & H').
  exact H'.
Qed.

Lemma text_inv_rest_of_run h pre script result w :
  text_inv (runs w h) →
  text_inv (runs (exec (dispatch_and_close h script result)
                    (exec (env_events h pre) w)) h).
Proof.
  apply (rest_of_run_steps h (λ w w', text_inv (runs w h) → text_inv (runs w' h)));
    try done.
  - auto.
  - intros e w0. apply text_inv_env_event.
  - intros text w0. apply text_inv_block_reply.
  - intros text w0. apply text_inv_final_reply.
  - intros w0. apply text_inv_close_after_dispatch.
  - intros err w0. apply text_inv_on_dispatch_error.
Qed.

Lemma text_inv_calls h pre cs w :
  text_inv (runs w h) →
  text_inv (runs (exec (host_calls h cs) (exec (env_events h pre) w)) h).
Proof.
  apply (calls_steps h (λ w w', text_inv (runs w h) → text_inv (runs w' h)));
    try done.
  - auto.
  - intros e w0. apply text_inv_env_event.
  - intros text w0. apply text_inv_block_reply.
  - intros text w0. apply text_inv_final_reply.
Qed.

Lemma text_inv_start input sk peer w :
  text_inv (runs (exec (start_run input sk peer) w) (run_handle w)) ∧
  ∃ mid, messageId (runs (exec (start_run input sk peer) w) (run_handle w)) = mid.
Proof.
  unfold exec.
  destruct (start_run_returns input sk peer w) as (tid & rid & mid & w1 & -> & Hr & _).
  cbn [snd]. rewrite Hr. split; [|by eexists].
  apply text_inv_wrote; [done|]. done.
Qed.

Lemma text_inv_prefix r :
  text_inv r →
  ∃ ds, Forall (λ d, truthy d = true) ds ∧
        text_events (emitted r) `prefix_of` text_message (messageId r) ds.
Proof.
  unfold text_inv. destruct (messageStarted r).
  - intros (ds & F & [H|[_ H]]); exists ds; (split; [done|]); rewrite H; [|done].
    unfold text_message. by eexists [_].
  - intros ->. exists []. split; [done|]. apply prefix_nil.
Qed.

Lemma text_events_prefix l1 l2 :
  l1 `prefix_of` l2 → text_events l1 `prefix_of` text_events l2.
Proof.
  intros [k ->]. unfold text_events. rewrite List.filter_app. by eexists.
Qed.

(** X22: at every point of a run's dispatch and after the run, the text
    events of the run's stream are the beginning of one well-formed text
    message: nothing, or one "text message started" with the role
    "assistant", then "text message content" events, none with an empty
    text, then at most one "text message ended", all with the run's message
    id.  So the stream never has a second "started", a content event before
    the "started" or after the "ended", or text under another message id. *)
Theorem text_message_lifecycle (input : RunAgentInput) (sk : string)
    (peer : nat → bool) (pre : list EnvEvent) (cs script : list HostCall)
    (result : DispatchResult) (w : World) :
  let h := run_handle w in
  let w1 := during_dispatch input sk peer pre cs w in
  let w' := exec (handleAguiRequest input sk peer pre script result) w in
  (∃ ds, Forall (λ d, truthy d = true) ds ∧
         text_events (output h w1) `prefix_of` text_message (messageId (runs w1 h)) ds) ∧
  (∃ ds, Forall (λ d, truthy d = true) ds ∧
         text_events (output h w') `prefix_of` text_message (messageId (runs w' h)) ds).
Proof.
  intros h w1 w'.
  destruct (written_as_handed_kept input sk peer pre cs script result w)
    as ([H1 _] & [H2 _]).
  fold h w1 w' in H1, H2.
  destruct (text_inv_start input sk peer w) as [Hstart _]. fold h in Hstart.
  split.
  - assert (Hinv : text_inv (runs w1 h)).
    { subst w1. rewrite during_dispatch_unfold. by apply text_inv_calls. }
    destruct (text_inv_prefix _ Hinv) as (ds & F & Hp). exists ds. split; [done|].
    etrans; [apply text_events_prefix, H1|exact Hp].
  - assert (Hinv : text_inv (runs w' h)).
    { subst w'. rewrite handler_unfold. by apply text_inv_rest_of_run. }
    destruct (text_inv_prefix _ Hinv) as (ds & F & Hp). exists ds. split; [done|].
    etrans; [apply text_events_prefix, H2|exact Hp].
Qed.

(** * What the dispatcher's methods return *)

Lemma sendBlockReply_returns h text w :
  sendBlockReply h text w =
    (Ret (negb (closed (runs w h)
                || wasClientToolCalled (sessionKey (runs w h)) (store w)
                || negb (truthy (reply_text text)))),
     exec (sendBlockReply h text) w).
Proof.
  unfold exec, sendBlockReply. run.
  destruct (closed (runs w h) || wasClientToolCalled (sessionKey (runs w h)) (store w));
    cbn [orb negb]; [by run|].
  rewrite truthy_reply_text.
  destruct (truthy (reply_text text)); cbn [negb]; [|by run].
  destruct (messageStarted (runs w h)); cbn [negb]; by run.
Qed.

Lemma sendFinalReply_returns h text w :
  sendFinalReply h text w =
    (Ret (negb (closed (runs w h))), exec (sendFinalReply h text) w).
Proof.
  unfold exec, sendFinalReply. run.
  destruct (closed (runs w h)); cbn [negb]; [by run|]. run.
  destruct (truthy_opt _); run;
    [destruct (messageStarted (runs w h)); cbn [negb]; run|];
    rewrite ?with_run_same, ?wrote_messageStarted;
    cbn [messageStarted set_messageStarted];
    try (destruct (messageStarted (runs w h))); by run.
Qed.

(** X23: a block reply returns true exactly when it hands the writer a "text
    message content" event, which is then the last event handed to it, and
    false, changing nothing, when the run is closed, a client tool was called
    or the text is blank.  A final reply returns true exactly when the run
    was open, and the run is then closed and ended with "run finished" as the
    last event handed to the writer; on a closed run it returns false and
    changes nothing. *)
Theorem dispatcher_results (h : nat) (text : option string) (w : World) :
  let r := runs w h in
  (∃ b, sendBlockReply h text w = (Ret b, exec (sendBlockReply h text) w) ∧
        (b = false → exec (sendBlockReply h text) w = w) ∧
        (b = false ↔ closed r = true ∨ wasClientToolCalled (sessionKey r) (store w) = true
                     ∨ reply_text text = EmptyString) ∧
        (b = true →
         last (emitted (runs (exec (sendBlockReply h text) w) h))
         = Some (TEXT_MESSAGE_CONTENT (messageId r) (reply_text text)))) ∧
  sendFinalReply h text w = (Ret (negb (closed r)), exec (sendFinalReply h text) w) ∧
  (closed r = true → exec (sendFinalReply h text) w = w) ∧
  (closed r = false →
   let r' := runs (exec (sendFinalReply h text) w) h in
   closed r' = true ∧ ended r' = true ∧
   last (emitted r') = Some (RUN_FINISHED (threadId r) (runId r))).
Proof.
  intros r. split; [|split; [apply sendFinalReply_returns|split]].
  - eexists. split; [apply sendBlockReply_returns|]. fold r.
    rewrite sendBlockReply_world. cbv zeta. fold r.
    destruct (closed r); cbn [orb negb].
    { split; [done|]. split; [|done]. split; [by left|done]. }
    destruct (wasClientToolCalled (sessionKey r) (store w)); cbn [orb negb].
    { split; [done|]. split; [|done]. split; [by right; left|done]. }
    destruct (truthy (reply_text text)) eqn:Ht; cbn [negb].
    + split; [done|]. split.
      * split; [done|]. intros [?|[?|E]]; try done.
        apply truthy_nonempty in Ht. by destruct Ht.
      * intros _. by rewrite with_run_same, wrote_emitted, last_snoc.
    + split; [done|]. split; [|done]. split; [|done]. intros _. right. right.
      unfold truthy in Ht. by apply negb_false_iff, String.eqb_eq in Ht.
  - intros Hc. rewrite sendFinalReply_world. cbv zeta. fold r. by rewrite Hc.
  - intros Hc r'. subst r'. rewrite sendFinalReply_world. cbv zeta. fold r. rewrite Hc.
    rewrite !with_run_same. cbn [closed ended emitted set_ended set_closed].
    by rewrite wrote_emitted, last_snoc.
Qed.

(** * The ids of a run *)

(** the world a run starts its dispatch in *)
Lemma start_run_world input sk peer w :
  let ids := ids_of_request input (uuid_src w) (uuid_next w) in
  let h := run_handle w in
  let w1 := exec (start_run input sk peer) w in
  runs w1 h = wrote (RUN_STARTED (ids_thread ids) (ids_run ids))
                (fresh_run (ids_thread ids) (ids_run ids) (ids_message ids) sk peer) ∧
  uuid_next w1 = ids_next_uuid ids ∧
  store w1 = setWriter_without_id sk h
               (if Nat.eqb (length (input_tools input)) 0 then store w
                else markClientToolNames sk (map tool_name (input_tools input))
                       (stashTools sk (input_tools input) (store w))).
Proof.
  cbv zeta. unfold exec, start_run, or_else, ids_of_request, run_handle.
  destruct (truthy_opt (input_threadId input)), (truthy_opt (input_runId input));
    run; rewrite new_run_returns; run.
  all: destruct (Nat.eqb (length (input_tools input)) 0); cbn [negb]; run.
  all: cbn [snd store uuid_next set_store ids_thread ids_run ids_message ids_next_uuid].
  all: rewrite ?with_run_same, ?with_run_store, ?with_run_uuid_next.
  all: cbn [runs store uuid_next set_runs set_next_run set_store set_uuid_next].
  all: (rewrite upd_same; by repeat split).
Qed.

Lemma envelope_inv_wrote tid rid e r :
  envelope_ok tid rid e → envelope_inv tid rid r → envelope_inv tid rid (wrote e r).
Proof.
  intros He (Ht & Hr & Hall).
  split; [by rewrite wrote_threadId|]. split; [by rewrite wrote_runId|].
  rewrite wrote_emitted. apply Forall_app. split; [done|by constructor].
Qed.

Lemma envelope_inv_ended tid rid r :
  envelope_inv tid rid r → envelope_inv tid rid (set_ended true (set_closed true r)).
Proof. done. Qed.

Lemma envelope_inv_rest_of_run tid rid h pre script result w :
  envelope_inv tid rid (runs w h) →
  envelope_inv tid rid
    (runs (exec (dispatch_and_close h script result) (exec (env_events h pre) w)) h).
Proof.
  apply (rest_of_run_steps h
           (λ w w', envelope_inv tid rid (runs w h) → envelope_inv tid rid (runs w' h)));
    try done.
  - auto.
  - intros e w0 H.
    destruct (hoare_returns _ _ _ w0
                (env_event_keeps h (λ w, envelope_inv tid rid (runs w h))
                   ltac:(done) ltac:(done)
                   ltac:(intros w1 h' e0 He0 H0; cbv beta in *; rewrite with_run_runs;
                         destruct (Nat.eqb h h'); [|done];
                         apply envelope_inv_wrote; [by destruct e0|done])
                   true
                   ltac:(intros _ w1 H0; cbv beta in *; by rewrite with_run_same)
                   e ltac:(done)) H) as ([] & _ & H').
    exact H'.
  - intros text w0 H. rewrite sendBlockReply_world. cbv zeta.
    destruct (_ || _); [done|].
    destruct (messageStarted (runs w0 h)); rewrite !with_run_same;
      repeat (apply envelope_inv_wrote; [done|]); done.
  - intros text w0 H. rewrite sendFinalReply_world. cbv zeta.
    destruct (closed (runs w0 h)); [done|].
    pose proof H as (Ht & Hr & _). rewrite Ht, Hr.
    destruct (truthy _), (messageStarted (runs w0 h)); cbn [orb];
      rewrite !with_run_same; apply envelope_inv_ended;
      repeat (apply envelope_inv_wrote; [done|]); done.
  - intros w0 H. rewrite close_after_dispatch_world. cbv zeta.
    destruct (closed (runs w0 h)); [done|].
    pose proof H as (Ht & Hr & _). rewrite Ht, Hr.
    destruct (messageStarted (runs w0 h));
      rewrite !with_run_same; apply envelope_inv_ended;
      repeat (apply envelope_inv_wrote; [done|]); done.
  - intros err w0 H. rewrite on_dispatch_error_world. cbv zeta.
    destruct (closed (runs w0 h)); [done|].
    rewrite !with_run_same. apply envelope_inv_ended. by apply envelope_inv_wrote.
Qed.

(** the message id of a run is the one it started with *)
Lemma message_id_rest_of_run h pre script result w mid :
  messageId (runs w h) = mid →
  messageId (runs (exec (dispatch_and_close h script result)
                     (exec (env_events h pre) w)) h) = mid.
Proof.
  apply (rest_of_run_steps h (λ w w', messageId (runs w h) = mid → messageId (runs w' h) = mid));
    try done.
  - auto.
  - intros e w0 H.
    destruct (hoare_returns _ _ _ w0
                (env_event_keeps h (λ w, messageId (runs w h) = mid)
                   ltac:(done) ltac:(done)
                   ltac:(intros w1 h' e0 He0 H0; cbv beta in *; rewrite with_run_runs;
                         destruct (Nat.eqb h h'); [|done]; by rewrite wrote_messageId)
                   true
                   ltac:(intros _ w1 H0; cbv beta in *; by rewrite with_run_same)
                   e ltac:(done)) H) as ([] & _ & H').
    exact H'.
  - intros text w0 H. rewrite sendBlockReply_world. cbv zeta.
    destruct (_ || _); [done|].
    destruct (messageStarted (runs w0 h)); rewrite !with_run_same;
      by rewrite ?wrote_messageId.
  - intros text w0 H. rewrite sendFinalReply_world. cbv zeta.
    destruct (closed (runs w0 h)); [done|].
    destruct (truthy _), (messageStarted (runs w0 h)); cbn [orb];
      rewrite !with_run_same; cbn [messageId set_ended set_closed];
      by rewrite ?wrote_messageId.
  - intros w0 H. rewrite close_after_dispatch_world. cbv zeta.
    destruct (closed (runs w0 h)); [done|].
    destruct (messageStarted (runs w0 h)); rewrite !with_run_same;
      cbn [messageId set_ended set_closed]; by rewrite ?wrote_messageId.
  - intros err w0 H. rewrite on_dispatch_error_world. cbv zeta.
    destruct (closed (runs w0 h)); [done|].
    rewrite !with_run_same. cbn [messageId set_ended set_closed].
    by rewrite wrote_messageId.
Qed.

(** X24: the "run started" and "run finished" events of a run's stream carry
    the thread id and the run id of the request, or, where the request has
    none or an empty one, the ids "clawg-ui-" and "clawg-ui-run-" followed by
    a fresh UUID each; the message id of the run's text events is "msg-"
    followed by the next UUID.  The three UUIDs are drawn in this order,
    before anything else.  The handler binds the run's writer without the
    message id: the store has none for the session when the dispatch
    begins. *)
Theorem run_carries_request_ids (input : RunAgentInput) (sk : string)
    (peer : nat → bool) (pre : list EnvEvent) (script : list HostCall)
    (result : DispatchResult) (w : World) :
  let ids := ids_of_request input (uuid_src w) (uuid_next w) in
  let h := run_handle w in
  let w' := exec (handleAguiRequest input sk peer pre script result) w in
  Forall (envelope_ok (ids_thread ids) (ids_run ids)) (output h w') ∧
  threadId (runs w' h) = ids_thread ids ∧
  runId (runs w' h) = ids_run ids ∧
  messageId (runs w' h) = ids_message ids ∧
  uuid_next (exec (start_run input sk peer) w) = ids_next_uuid ids ∧
  getWriter sk (store (exec (start_run input sk peer) w)) = Some h ∧
  getMessageId sk (store (exec (start_run input sk peer) w)) = None.
Proof.
  intros ids h w'.
  destruct (start_run_world input sk peer w) as (Hr & Hn & Hst). fold ids h in Hr, Hn, Hst.
  assert (Hstart : envelope_inv (ids_thread ids) (ids_run ids)
                     (runs (exec (start_run input sk peer) w) h)).
  { rewrite Hr. apply envelope_inv_wrote; [done|]. by repeat split. }
  apply (envelope_inv_rest_of_run _ _ h pre script result) in Hstart.
  unfold h in Hstart. rewrite <- handler_unfold in Hstart. fold h w' in Hstart.
  destruct Hstart as (Ht & Hrid & Hall).
  destruct (written_as_handed_kept input sk peer pre [] script result w)
    as (_ & [[k Hk] _]).
  fold h w' in Hk. rewrite Hk in Hall. apply Forall_app in Hall as [Hall _].
  assert (Hmid : messageId (runs w' h) = ids_message ids).
  { assert (Hm0 : messageId (runs (exec (start_run input sk peer) w) h) = ids_message ids)
      by (by rewrite Hr, wrote_messageId).
    subst w'. rewrite handler_unfold.
    by apply (message_id_rest_of_run h pre script result). }
  split; [exact Hall|]. split; [done|]. split; [done|]. split; [done|]. split; [done|].
  rewrite Hst. unfold getWriter, getMessageId, setWriter_without_id. cbn.
  by rewrite lookup_insert_eq, lookup_delete_eq.
Qed.

(** * The client tools of a run *)

Lemma names_kept_env_event h e w :
  clientToolNames (store (exec (env_event h e) w)) = clientToolNames (store w).
Proof.
  destruct e as [toolName params sk|sk|sk|]; cbn [env_event].
  - destruct sk as [sk|]; [|done].
    destruct (truthy sk) eqn:Ht.
    2:{ unfold exec, handleBeforeToolCall. by rewrite Ht. }
    destruct (getWriter sk (store w)) as [writer|] eqn:Hw.
    2:{ unfold exec, handleBeforeToolCall. rewrite Ht. cbn [negb]. run. by rewrite Hw. }
    destruct (before_hook_world sk writer toolName params w Ht Hw) as (_ & _ & _ & _ & _ & ->).
    by destruct (isClientTool sk toolName (store w)).
  - destruct sk as [sk|]; [|done].
    destruct (truthy sk) eqn:Ht.
    2:{ unfold exec, handleToolResultPersist. by rewrite Ht. }
    destruct (after_hook_world sk w Ht) as (_ & _ & _ & -> & _).
    unfold popToolCallId. destruct (pendingStacks (store w) !! sk); [|done].
    by destruct (Nat.eqb _ 0).
  - rewrite exec_then_ret. unfold exec. rewrite in_store_returns. cbn [snd store set_store].
    destruct sk as [sk|]; [|done]. cbn [clawgUiToolFactory].
    destruct (truthy sk); cbn [negb]; [|done].
    unfold popTools. cbn. by destruct (Nat.eqb _ 0).
  - unfold exec. rewrite in_run_modify. cbn [snd]. by rewrite with_run_store.
Qed.

Lemma names_kept_calls h pre cs w :
  clientToolNames (store (exec (host_calls h cs) (exec (env_events h pre) w)))
  = clientToolNames (store w).
Proof.
  apply (calls_steps h (λ w w', clientToolNames (store w') = clientToolNames (store w))).
  - done.
  - intros w1 w2 w3 H1 H2. by rewrite H2.
  - apply names_kept_env_event.
  - intros text w0.
    by destruct (dispatcher_frame h w0 text EmptyString) as ((-> & _) & _).
  - intros text w0.
    by destruct (dispatcher_frame h w0 text EmptyString) as (_ & (-> & _) & _).
Qed.

(** X25: at every point of a run's dispatch, a tool is a client tool of the
    run's session exactly when its name is the name of one of the tools the
    request came with, whatever hooks and factory calls have fired; a request
    without tools leaves the session's marking as it found it.  For every
    other session the answer is what it was before the run. *)
Theorem client_tools_of_the_request (input : RunAgentInput) (sk : string)
    (peer : nat → bool) (pre : list EnvEvent) (cs : list HostCall) (w : World)
    (sk' toolName : string) :
  let w1 := during_dispatch input sk peer pre cs w in
  isClientTool sk toolName (store w1) =
    (if Nat.eqb (length (input_tools input)) 0
     then isClientTool sk toolName (store w)
     else bool_decide (toolName ∈ tool_name <$> input_tools input)) ∧
  (sk' ≠ sk → isClientTool sk' toolName (store w1) = isClientTool sk' toolName (store w)).
Proof.
  intros w1. subst w1. rewrite during_dispatch_unfold.
  unfold isClientTool at 1 3. rewrite names_kept_calls.
  destruct (start_run_world input sk peer w) as (_ & _ & ->).
  destruct (Nat.eqb (length (input_tools input)) 0).
  - by split.
  - cbn. rewrite lookup_insert_eq. split.
    + apply bool_decide_ext. by rewrite elem_of_list_to_set.
    + intros Hne. by rewrite lookup_insert_ne.
Qed.

(** * Requests, run *)

Example bearer_token_of_padded_header :
  getBearerToken (Some "  BeArEr   secret ") = Some "secret" ∧
  getBearerToken (Some "Bearer ") = None ∧
  getBearerToken (Some "Basic secret") = None ∧
  getBearerToken None = None.
Proof. vm_compute. done. Qed.

Example bearer_token_after_no_break_space :
  getBearerToken (Some ("Bearer " +:+ nbsp +:+ "tok")) = Some "tok" ∧
  getBearerToken (Some (nbsp +:+ "bearer tok" +:+ nbsp)) = Some "tok" ∧
  getBearerToken (Some ("Bearer" +:+ nbsp +:+ "tok")) = None ∧
  trim (nbsp +:+ " a" +:+ nbsp +:+ "b " +:+ nbsp) = "a" +:+ nbsp +:+ "b".
Proof. vm_compute. done. Qed.

Example token_from_environment :
  let src := mkAuthSources None None (Some "secret") in
  authenticateRequest (Some "Bearer secret") src = true ∧
  authenticateRequest (Some "Bearer secrex") src = false ∧
  authenticateRequest (Some "Bearer secret")
    (mkAuthSources (Some (JNum (mkSafeInteger 42 eq_refl))) (Some "secret") None) = false ∧
  authenticateRequest (Some "Bearer secret")
    (mkAuthSources (Some JNull) (Some "secret") None) = true.
Proof. vm_compute. done. Qed.

Example body_of_one_user_message :
  buildBodyFromMessages
    [mkMessage (Some "system") (Some "Be brief."); mkMessage (Some "user") (Some " Hi ")]
  = ("Hi", Some "Be brief.").
Proof. vm_compute. done. Qed.

Example body_of_a_conversation :
  (buildBodyFromMessages
     [mkMessage (Some "user") (Some "Hi"); mkMessage (Some "assistant") (Some "Hello");
      mkMessage (Some "tool") None; mkMessage (Some "user") (Some "Weather?")]).1
  = "User: Hi" +:+ newline +:+ "Assistant: Hello" +:+ newline +:+ "User: Weather?".
Proof. vm_compute. done. Qed.

Example body_read_at_the_limit :
  let parse := λ s, if String.eqb s "{}" then Some (JObj []) else None in
  readJsonBody parse 2 [Data "{"; Data "}"; End] = Some (inr (JObj [])) ∧
  readJsonBody parse 1 [Data "{"; Data "}"; End] = Some (inl "Request body too large") ∧
  readJsonBody parse 9 [Data "{"; End] = Some (inl "Invalid JSON body") ∧
  readJsonBody parse 9 [Data "{"] = None.
Proof. vm_compute. done. Qed.

(** * When the response is ended *)

(** what the hooks and the close of the request keep of a run's variables *)
Lemma env_event_run_keeps h (Q : Run → Prop) e w :
  (∀ e0 r, is_tool e0 = true → Q r → Q (wrote e0 r)) →
  (∀ r, Q r → Q (set_closed true r)) →
  Q (runs w h) → Q (runs (exec (env_event h e) w) h).
Proof.
  intros Ht Hc H.
  destruct (hoare_returns _ _ _ w
              (env_event_keeps h (λ w, Q (runs w h))
                 ltac:(done) ltac:(done)
                 ltac:(intros w1 h' e0 He0 H0; cbv beta in *; rewrite with_run_runs;
                       destruct (Nat.eqb h h'); [|done]; by apply Ht)
                 true
                 ltac:(intros _ w1 H0; cbv beta in *; rewrite with_run_same; by apply Hc)
                 e ltac:(done)) H) as ([] & _ & H').
  exact H'.
Qed.

(** a response that has been ended stays ended *)
Lemma ended_kept h script result w :
  ended (runs w h) = true →
  ended (runs (exec (dispatch_and_close h script result) w) h) = true.
Proof.
  apply (dispatch_and_close_steps h
           (λ w w', ended (runs w h) = true → ended (runs w' h) = true)); try done.
  - auto.
  - intros e w0 H. apply (env_event_run_keeps h (λ r, ended r = true)); try done.
    intros e0 r _ Hr. by rewrite wrote_ended.
  - intros text w0 H. rewrite sendBlockReply_world. cbv zeta.
    destruct (_ || _); [done|].
    destruct (messageStarted (runs w0 h)); rewrite !with_run_same;
      by rewrite ?wrote_ended.
  - intros text w0 H. rewrite sendFinalReply_world. cbv zeta.
    destruct (closed (runs w0 h)); [done|]. by rewrite !with_run_same.
  - intros w0 H. rewrite close_after_dispatch_world. cbv zeta.
    destruct (closed (runs w0 h)); [done|]. by rewrite !with_run_same.
  - intros err w0 H. rewrite on_dispatch_error_world. cbv zeta.
    destruct (closed (runs w0 h)); [done|]. by rewrite !with_run_same.
Qed.

(** a stream closed with the response not ended stays so: nothing ends the
    response of a closed stream *)
Lemma closed_not_ended_kept h script result w :
  closed (runs w h) = true ∧ ended (runs w h) = false →
  let r := runs (exec (dispatch_and_close h script result) w) h in
  closed r = true ∧ ended r = false.
Proof.
  cbv zeta.
  apply (dispatch_and_close_steps h
           (λ w w', closed (runs w h) = true ∧ ended (runs w h) = false →
                    closed (runs w' h) = true ∧ ended (runs w' h) = false)); try done.
  - auto.
  - intros e w0 H.
    apply (env_event_run_keeps h (λ r, closed r = true ∧ ended r = false)); try done.
    + intros e0 r _ [Hc He]. split; [by apply wrote_stays_closed|by rewrite wrote_ended].
    + by intros r [Hc He].
  - intros text w0 [Hc He]. rewrite sendBlockReply_world. cbv zeta. by rewrite Hc.
  - intros text w0 [Hc He]. rewrite sendFinalReply_world. cbv zeta. by rewrite Hc.
  - intros w0 [Hc He]. rewrite close_after_dispatch_world. cbv zeta. by rewrite Hc.
  - intros err w0 [Hc He]. rewrite on_dispatch_error_world. cbv zeta. by rewrite Hc.
Qed.

Lemma exec_handler_from_point input sk peer pre cs1 cs2 result w :
  exec (handleAguiRequest input sk peer pre (cs1 ++ cs2) result) w =
  exec (dispatch_and_close (run_handle w) cs2 result)
    (during_dispatch input sk peer pre cs1 w).
Proof. unfold exec at 1 2. by rewrite handler_from_point. Qed.

Lemma exec_dispatch_and_close_app h cs1 cs2 result w :
  exec (dispatch_and_close h (cs1 ++ cs2) result) w =
  exec (dispatch_and_close h cs2 result) (exec (host_calls h cs1) w).
Proof. unfold exec at 1 2. by rewrite dispatch_and_close_app. Qed.

(** X13: after a run the response has been ended exactly when a terminal
    event ("run finished" or "run error") has been handed to the run's
    writer, and a run that has ended its response has closed its stream.
    If the stream is closed and the response not ended at some point of the
    dispatch (the request was closed, or a write outside the final reply
    failed), the run never ends the response.  A final reply that finds the
    stream open ends the response, whether or not its writes succeed. *)
Theorem response_ended_on_terminal (input : RunAgentInput) (sk : string)
    (peer : nat → bool) (pre : list EnvEvent) (script : list HostCall)
    (result : DispatchResult) (w : World) :
  let h := run_handle w in
  let r := runs (exec (handleAguiRequest input sk peer pre script result) w) h in
  ended r = existsb is_terminal (emitted r) ∧
  (ended r = true → closed r = true) ∧
  (∀ cs1 cs2, script = cs1 ++ cs2 →
   let r1 := runs (during_dispatch input sk peer pre cs1 w) h in
   closed r1 = true → ended r1 = false → ended r = false) ∧
  (∀ cs1 text cs2, script = cs1 ++ SendFinalReply text :: cs2 →
   let r1 := runs (during_dispatch input sk peer pre cs1 w) h in
   closed r1 = false → ended r = true).
Proof.
  intros h r.
  destruct (ended_on_terminal_kept input sk peer pre script result w) as [Hi Hc].
  fold h r in Hi, Hc.
  split; [|split; [exact Hc|split]].
  - destruct (ended r), (existsb is_terminal (emitted r)); try done.
    + by destruct Hi as [-> _].
    + by destruct Hi as [_ ->].
  - intros cs1 cs2 -> r1 Hc1 He1. subst r.
    rewrite exec_handler_from_point. fold h.
    by destruct (closed_not_ended_kept h cs2 result _ (conj Hc1 He1)).
  - intros cs1 text cs2 -> r1 Hc1. subst r.
    rewrite exec_handler_from_point. fold h.
    change (SendFinalReply text :: cs2) with ([SendFinalReply text] ++ cs2).
    rewrite exec_dispatch_and_close_app.
    apply ended_kept.
    rewrite exec_host_calls_cons. cbn [host_calls host_call].
    rewrite exec_then_ret, sendFinalReply_world. cbv zeta. fold r1. rewrite Hc1.
    change (exec (mret ()) ?x) with x.
    by rewrite !with_run_same.
Qed.

Lemma response_ended_on_terminal_witness :
  (let r := runs disconnected_run 0 in
   chunks r = [RUN_STARTED "t1" "r1"; TEXT_MESSAGE_START "msg-0" "assistant";
               TEXT_MESSAGE_CONTENT "msg-0" "Hello"] ∧
   ended r = false) ∧
  (let r := runs (one_run hello_input (gone_after 1) [] [SendFinalReply (Some "bye")]
                    Resolves) 0 in
   chunks r = [RUN_STARTED "t1" "r1"] ∧ ended r = true).
Proof.
  split; (split; [vm_compute; reflexivity|]).
  - exact (proj1 (proj2 (proj2
      (response_ended_on_terminal hello_input "agui:test-session" stays []
         [SendBlockReply (Some "Hello"); Env ReqClose; SendFinalReply (Some "bye")]
         Resolves (initial_world uuids))))
      [SendBlockReply (Some "Hello"); Env ReqClose] [SendFinalReply (Some "bye")]
      eq_refl eq_refl eq_refl).
  - exact (proj2 (proj2 (proj2
      (response_ended_on_terminal hello_input "agui:test-session" (gone_after 1) []
         [SendFinalReply (Some "bye")] Resolves (initial_world uuids))))
      [] (Some "bye") [] eq_refl eq_refl).
Defined.

(** * The end of a run *)

(** the run's variables after the run, from those the dispatch left *)
Lemma end_of_run input sk peer pre script result w :
  let h := run_handle w in
  let r1 := runs (during_dispatch input sk peer pre script w) h in
  runs (exec (handleAguiRequest input sk peer pre script result) w) h =
    if closed r1 then r1
    else set_ended true (set_closed true
           match result with
           | Resolves =>
               wrote (RUN_FINISHED (threadId r1) (runId r1))
                 (if messageStarted r1
                  then wrote (TEXT_MESSAGE_END (messageId r1)) r1 else r1)
           | Rejects err => wrote (RUN_ERROR err) r1
           end).
Proof.
  intros h r1. subst r1.
  rewrite handler_unfold, exec_dispatch_and_close, during_dispatch_unfold.
  fold h. set (w1 := exec (host_calls h script) _).
  unfold exec at 1. rewrite cleanup_returns. cbn [snd runs set_store].
  destruct result as [|err].
  - rewrite close_after_dispatch_world. cbv zeta.
    destruct (closed (runs w1 h)); [done|].
    rewrite !with_run_same. destruct (messageStarted (runs w1 h)); by rewrite ?with_run_same.
  - rewrite on_dispatch_error_world. cbv zeta.
    destruct (closed (runs w1 h)); [done|]. by rewrite !with_run_same.
Qed.

(** while the peer stays and the request is not closed, only the final reply
    closes the stream during the dispatch *)
Lemma closed_by_final_reply input sk peer pre cs w :
  (∀ n, peer n = false) → ¬ has_close pre cs →
  let r1 := runs (during_dispatch input sk peer pre cs w) (run_handle w) in
  peer_stays r1 ∧
  (closed r1 = true → ∃ tid rid, last (chunks r1) = Some (RUN_FINISHED tid rid)).
Proof.
  intros Hpeer Hcl r1.
  destruct (during_dispatch_keeps (run_handle w)
              (λ r, strict_inv r ∧ terminals_among not_run_error (chunks r)))
    with (term_ok := not_run_error) (closes := false)
         (input := input) (sk := sk) (peer := peer) (pre := pre) (cs := cs) (w := w)
    as [[Hp Hinv] Hterm]; try done.
  - intros r e He [H1 H2]. split.
    + apply strict_inv_wrote; [by apply is_tool_body|done].
    + apply terminals_wrote; [by destruct e|done].
  - intros r mid role [H1 H2] _. split.
    + by apply strict_inv_wrote.
    + by apply terminals_wrote.
  - intros r mid delta [H1 H2] _. split.
    + by apply strict_inv_wrote.
    + by apply terminals_wrote.
  - intros r mid [H1 H2] _. split.
    + by apply strict_inv_wrote.
    + by apply terminals_wrote.
  - intros r t Ht Hok [H1 H2]. split.
    + by apply strict_inv_finish.
    + cbn. by apply terminals_wrote.
  - intros tid rid mid. split; [by apply strict_inv_start|].
    apply terminals_wrote; [done|]. constructor.
  - fold r1 in Hp, Hinv, Hterm. split; [exact Hp|].
    intros Hc. rewrite Hc in Hinv. destruct Hinv as (mid & t & Heq & _ & Ht).
    rewrite Heq in Hterm |- *.
    change (RUN_STARTED (threadId r1) (runId r1) :: mid ++ [t])
      with ((RUN_STARTED (threadId r1) (runId r1) :: mid) ++ [t]) in *.
    apply Forall_app in Hterm as [_ Hterm]. inversion_clear Hterm as [|? ? Hok _].
    specialize (Hok Ht). rewrite last_snoc.
    destruct t; try discriminate. eauto.
Qed.

(** the ids of the terminal event the final reply writes *)
Lemma final_reply_ids input sk peer pre script w tid rid :
  let r1 := runs (during_dispatch input sk peer pre script w) (run_handle w) in
  closed r1 = true →
  RUN_FINISHED tid rid ∈ chunks r1 → tid = threadId r1 ∧ rid = runId r1.
Proof.
  intros r1 Hc Hin.
  set (ids := ids_of_request input (uuid_src w) (uuid_next w)).
  destruct (start_run_world input sk peer w) as (Hr & _ & _). fold ids in Hr.
  assert (Hstart : envelope_inv (ids_thread ids) (ids_run ids)
                     (runs (exec (start_run input sk peer) w) (run_handle w))).
  { rewrite Hr. apply envelope_inv_wrote; [done|]. by repeat split. }
  apply (envelope_inv_rest_of_run _ _ (run_handle w) pre script Resolves) in Hstart.
  rewrite <- handler_unfold in Hstart.
  rewrite (end_of_run input sk peer pre script Resolves w) in Hstart.
  cbv zeta in Hstart. fold r1 in Hstart. rewrite Hc in Hstart.
  destruct Hstart as (Ht & Hrid & Hall).
  destruct (written_as_handed_kept input sk peer pre script script Resolves w)
    as ([[k Hk] _] & _).
  fold r1 in Hk. rewrite Hk in Hall. apply Forall_app in Hall as [Hall _].
  rewrite Forall_forall in Hall. specialize (Hall _ Hin). cbn in Hall.
  destruct Hall as [-> ->]. by rewrite Ht, Hrid.
Qed.

(** C1, as the code has it: the run returns; its output is empty or begins
    with "run started", which occurs nowhere else; it holds at most one
    terminal event, and then in last position (so never both "run finished"
    and "run error"); a "run error" carries the error the dispatch rejected
    with.  When the dispatch settles with the stream closed, the handler
    hands its writer nothing more and leaves the response as it is.  When
    it settles with the stream open, the handler hands its writer "run
    error" with the error if the dispatch rejected, and "text message
    ended" (if a message is open) and "run finished" if it resolved.  When
    no write fails and the request is not closed by the peer, the output
    begins with "run started" and ends with exactly one terminal event:
    "run finished" from the final reply or from the close after a dispatch
    that resolved, "run error" with the error of a dispatch that rejected
    with the stream open. *)
Theorem run_envelope (input : RunAgentInput) (sk : string) (peer : nat → bool)
    (pre : list EnvEvent) (script : list HostCall) (result : DispatchResult)
    (w : World) :
  let h := run_handle w in
  let r1 := runs (during_dispatch input sk peer pre script w) h in
  let w' := exec (handleAguiRequest input sk peer pre script result) w in
  let out := output h w' in
  handleAguiRequest input sk peer pre script result w = (Ret tt, w') ∧
  (∀ e, head out = Some e → is_run_started e = true) ∧
  (∀ i e, out !! i = Some e → is_run_started e = true → i = 0) ∧
  count_terminal out ≤ 1 ∧
  (∀ i e, out !! i = Some e → is_terminal e = true → S i = length out) ∧
  (∀ msg, RUN_ERROR msg ∈ out → result = Rejects msg) ∧
  (closed r1 = true → runs w' h = r1) ∧
  (closed r1 = false →
   emitted (runs w' h) =
     emitted r1 ++
     match result with
     | Resolves =>
         (if messageStarted r1 then [TEXT_MESSAGE_END (messageId r1)] else [])
         ++ [RUN_FINISHED (threadId r1) (runId r1)]
     | Rejects err => [RUN_ERROR err]
     end) ∧
  ((∀ n, peer n = false) → ¬ has_close pre script →
   (∃ tid rid, head out = Some (RUN_STARTED tid rid)) ∧
   ends_with_one_terminal out ∧
   last out =
     Some (if closed r1 then RUN_FINISHED (threadId r1) (runId r1)
           else match result with
                | Resolves => RUN_FINISHED (threadId r1) (runId r1)
                | Rejects err => RUN_ERROR err
                end)).
Proof.
  intros h r1 w' out.
  destruct (envelope_kept input sk peer pre script result w) as (Hret & [Hinv Hterm] & Hc).
  fold h w' in Hret, Hinv, Hterm, Hc.
  apply protocol_inv_done, stream_done_shape in Hinv as (H1 & H2 & H3 & H4).
  pose proof (end_of_run input sk peer pre script result w) as Hend.
  cbv zeta in Hend. fold h r1 w' in Hend.
  split; [exact Hret|].
  split; [intros e He; by rewrite (H1 e He)|].
  split; [exact H2|]. split; [exact H3|]. split; [exact H4|].
  split.
  { intros msg Hin. unfold terminals_among in Hterm. rewrite Forall_forall in Hterm.
    specialize (Hterm _ Hin eq_refl). cbn in Hterm.
    destruct result as [|err]; [done|]. apply String.eqb_eq in Hterm. by subst. }
  split; [intros Hc1; by rewrite Hend, Hc1|].
  split.
  { intros Hc1. rewrite Hend, Hc1. cbn [emitted set_ended set_closed].
    destruct result as [|err]; [|by rewrite wrote_emitted].
    destruct (messageStarted r1); rewrite !wrote_emitted; [|done].
    by rewrite <- app_assoc. }
  intros Hpeer Hcl.
  destruct (stream_finished_shape _ _ _
              (envelope_finished input sk peer pre script result w Hpeer Hcl))
    as (Hh & He & _).
  split; [eauto|]. split; [exact He|].
  destruct (closed_by_final_reply input sk peer pre script w Hpeer Hcl) as [Hp Hlast].
  fold h r1 in Hp, Hlast.
  unfold out, output. rewrite Hend.
  destruct (closed r1) eqn:Hc1.
  - destruct (Hlast eq_refl) as (tid & rid & Hl). rewrite Hl. f_equal.
    destruct (final_reply_ids input sk peer pre script w tid rid Hc1) as [-> ->]; [|done].
    fold h r1. apply list_elem_of_In. apply last_Some in Hl as [l' ->].
    apply in_app_iff. right. by left.
  - cbn [chunks set_ended set_closed].
    destruct result as [|err].
    + destruct (messageStarted r1).
      * rewrite wrote_open_chunks; [by rewrite last_snoc| |by apply wrote_peer_stays].
        by apply wrote_open_closed.
      * by rewrite wrote_open_chunks, last_snoc.
    + by rewrite wrote_open_chunks, last_snoc.
Qed.

Lemma run_envelope_witness :
  (∀ n, stays n = false) ∧
  ¬ has_close [] [SendBlockReply (Some "Hello")] ∧
  last (output 0 failed_run) = Some (RUN_ERROR "Error: agent failed").
Proof.
  assert (H1 : ∀ n, stays n = false) by reflexivity.
  assert (H2 : ¬ has_close [] [SendBlockReply (Some "Hello")]).
  { unfold has_close. cbn. intros [H|[H|H]]; try discriminate; destruct H. }
  split; [exact H1|]. split; [exact H2|].
  destruct (run_envelope hello_input "agui:test-session" stays []
              [SendBlockReply (Some "Hello")] (Rejects "Error: agent failed")
              (initial_world uuids))
    as (_ & _ & _ & _ & _ & _ & _ & _ & H).
  exact (proj2 (proj2 (H H1 H2))).
Defined.

Example failed_run_after_a_block :
  output 0 failed_run =
    [RUN_STARTED "t1" "r1"; TEXT_MESSAGE_START "msg-0" "assistant";
     TEXT_MESSAGE_CONTENT "msg-0" "Hello"; RUN_ERROR "Error: agent failed"].
Proof. vm_compute. reflexivity. Qed.
